(** * StackTower row-ordering core: PQ-tree and branch-and-bound solver

    A shallow embedding of

      - [pkg/dag/perm/pqtree.go]                       (module [Perm])
      - [pkg/render/tower/ordering/optimal.go]         (module [Ordering])
      - [pkg/render/tower/ordering/barycentric.go]     (module [Ordering])

    Go's [int] is the 64-bit signed integer; it is modelled as [Z] and the
    wrap-around of the arithmetic that can overflow is written out with
    [GoInt.wrap].  Slice lengths and the counters bounded by them cannot
    overflow and are kept as plain [Z]. *)

From Stdlib Require Import ZArith QArith Lia.
From stdpp Require Import base list gmap strings.

Set Warnings "-register-all".

Local Open Scope Z_scope.

(** ** Go integers *)

Module GoInt.

Definition wrap (z : Z) : Z := (z + 2 ^ 63) mod 2 ^ 64 - 2 ^ 63.

Definition mul (a b : Z) : Z := wrap (a * b).

(** [len(s)] of a slice. *)
Definition len {A : Type} (s : list A) : Z := Z.of_nat (length s).

Definition min_int : Z := - 2 ^ 63.
Definition max_int : Z := 2 ^ 63 - 1.

Definition in_range (z : Z) : Prop := min_int <= z <= max_int.

End GoInt.

(** ** package perm: the PQ-tree *)

Module Perm.

Import GoInt.

Inductive nodeKind : Type := leafNode | pNode | qNode.

Inductive markKind : Type := unmarked | empty | full | partial.

Definition nodeKind_eqb (a b : nodeKind) : bool :=
  match a, b with
  | leafNode, leafNode | pNode, pNode | qNode, qNode => true
  | _, _ => false
  end.

Definition markKind_eqb (a b : markKind) : bool :=
  match a, b with
  | unmarked, unmarked | empty, empty | full, full | partial, partial => true
  | _, _ => false
  end.

(** [pqNode].  The [parent] back pointer of the Go struct is only ever
    written, never read (the test [parent == t.root] of
    [extendPartialChild] compares the node under reduction with the root,
    not a back pointer), so the tree is the inductive value below and the
    nodes of a tree are not shared. *)
Inductive pqNode : Type :=
  mkNode {
    kind : nodeKind;
    value : Z;
    children : list pqNode;
    mark : markKind;
    fullCount : Z;
    partialCount : Z
  }.

(** [PQTree].  [t.leaves] holds, at index [i], the pointer to the leaf of
    value [i]; the leaves are created once and only moved inside the tree,
    so the model keeps the length of that slice and reaches leaf [i]
    through the tree. *)
Record PQTree : Type :=
  mkTree {
    root : option pqNode;
    leaves : nat
  }.

Definition newLeaf (v : Z) : pqNode :=
  mkNode leafNode v [] unmarked 0 0.

Definition set_children (n : pqNode) (cs : list pqNode) : pqNode :=
  mkNode (kind n) (value n) cs (mark n) (fullCount n) (partialCount n).

Definition set_mark (n : pqNode) (m : markKind) : pqNode :=
  mkNode (kind n) (value n) (children n) m (fullCount n) (partialCount n).

(** [NewPQTree(n)].  [make([]*pqNode, n)] panics on a negative length:
    [None]. *)
Definition NewPQTree (n : Z) : option PQTree :=
  if n =? 0 then Some (mkTree None 0)
  else if n =? 1 then Some (mkTree (Some (newLeaf 0)) 1)
  else if n <? 0 then None
  else
    let leaves := (λ i : nat, newLeaf (Z.of_nat i)) <$> seq 0 (Z.to_nat n) in
    Some (mkTree (Some (mkNode pNode 0 leaves unmarked 0 0)) (length leaves)).

(** Modelled from the spec: [perm.Factorial] is not among the sources; the
    spec gives the count of a P-node with [k] children as [k!] times the
    product of its children's counts.  Its result is a Go [int], so the
    product [1 * 2 * ... * n] is taken in 64-bit arithmetic. *)
Fixpoint fact (n : nat) : Z :=
  match n with
  | O => 1
  | S m => Z.of_nat n * fact m
  end.

Definition Factorial (n : Z) : Z := wrap (fact (Z.to_nat n)).

(** [countPerms]. *)
Fixpoint countPerms (node : pqNode) : Z :=
  match kind node with
  | leafNode => 1
  | k =>
      let product :=
        fold_left (λ product child, mul product (countPerms child))
                  (children node) 1 in
      match k with
      | qNode => mul 2 product
      | _ => mul (Factorial (len (children node))) product
      end
  end.

(** *** Reduction *)

Fixpoint pqNode_eqb (a b : pqNode) {struct a} : bool :=
  nodeKind_eqb (kind a) (kind b)
  && (value a =? value b)
  && (fix all2 (xs ys : list pqNode) {struct xs} : bool :=
        match xs, ys with
        | [], [] => true
        | x :: xs', y :: ys' => pqNode_eqb x y && all2 xs' ys'
        | _, _ => false
        end) (children a) (children b)
  && markKind_eqb (mark a) (mark b)
  && (fullCount a =? fullCount b)
  && (partialCount a =? partialCount b).

(** Membership in a Go [map[*pqNode]bool] built from a slice of nodes.
    The map is keyed by node identity; the nodes of a tree are pairwise
    distinct objects, and in both uses below the slice is selected from
    the children of one node by their marks, so identity and equality of
    values single out the same children. *)
Definition inNodeSet (set : list pqNode) (child : pqNode) : bool :=
  existsb (pqNode_eqb child) set.

Definition hasMark (m : markKind) (n : pqNode) : bool :=
  markKind_eqb (mark n) m.

Definition countMark (m : markKind) (cs : list pqNode) : Z :=
  len (List.filter (hasMark m) cs).

(** [s[i]]: an index out of range is a run-time panic, [None]. *)
Definition index {A : Type} (s : list A) (i : Z) : option A :=
  if i <? 0 then None else s !! Z.to_nat i.

(** [clearMarks]. *)
Fixpoint clearMarks (n : pqNode) : pqNode :=
  mkNode (kind n) (value n) (clearMarks <$> children n) unmarked 0 0.

(** The write [t.leaves[elem].mark = full], seen from the root: the leaf
    of value [elem] gets the mark. *)
Fixpoint markLeaf (elem : Z) (n : pqNode) : pqNode :=
  match kind n with
  | leafNode => if value n =? elem then set_mark n full else n
  | _ => set_children n (markLeaf elem <$> children n)
  end.

(** [t.leaves[elem].mark = full] with the bounds check of the indexing. *)
Definition writeLeafMark (nleaves : nat) (elem : Z) (r : pqNode) : option pqNode :=
  if (0 <=? elem) && (elem <? Z.of_nat nleaves) then Some (markLeaf elem r)
  else None.

(** The marking loop of [Reduce]. *)
Fixpoint markConstraint (nleaves : nat) (constraint : list Z) (r : pqNode)
  : option pqNode :=
  match constraint with
  | [] => Some r
  | elem :: rest =>
      if (elem >=? 0) && (elem <? Z.of_nat nleaves) then
        match writeLeafMark nleaves elem r with
        | Some r' => markConstraint nleaves rest r'
        | None => None
        end
      else markConstraint nleaves rest r
  end.

(** [bubbleUp]: the returned mark is the [mark] of the returned node. *)
Fixpoint bubbleUp (n : pqNode) : pqNode :=
  match kind n with
  | leafNode =>
      if markKind_eqb (mark n) unmarked then set_mark n empty else n
  | _ =>
      let cs := bubbleUp <$> children n in
      let fc := countMark full cs in
      let pc := countMark partial cs in
      let m :=
        if fc =? len cs then full
        else if (fc =? 0) && (pc =? 0) then empty
        else partial in
      mkNode (kind n) (value n) cs m fc pc
  end.

(** The loop shared by [groupChildren] and [extendPartialChild]: the
    children in [set] are dropped and [node] takes the place of the first
    of them. *)
Fixpoint spliceOnce (set : list pqNode) (node : pqNode) (inserted : bool)
    (cs : list pqNode) : list pqNode :=
  match cs with
  | [] => []
  | child :: rest =>
      if inNodeSet set child then
        if inserted then spliceOnce set node true rest
        else node :: spliceOnce set node true rest
      else child :: spliceOnce set node inserted rest
  end.

(** [groupChildren]. *)
Definition groupChildren (parent : pqNode) (group : list pqNode)
    (k : nodeKind) : pqNode :=
  match group with
  | g0 :: _ :: _ =>
      let node := mkNode k 0 group (mark g0) 0 0 in
      set_children parent (spliceOnce group node false (children parent))
  | _ => parent
  end.

(** [extendPartialChild].  [isRoot] is the test [parent == t.root]; when
    the root collapses the node returned is the new root. *)
Definition extendPartialChild (isRoot : bool) (parent partialChild : pqNode)
    (fullSiblings : list pqNode) : bool * pqNode :=
  if len fullSiblings =? 0 then (true, parent)
  else
    let fullInPartial := List.filter (hasMark full) (children partialChild) in
    let emptyInPartial :=
      List.filter (λ c, negb (hasMark full c)) (children partialChild) in
    let cs := emptyInPartial ++ fullInPartial ++ fullSiblings in
    let qnode := mkNode qNode 0 cs partial 0 0 in
    let toRemove := partialChild :: fullSiblings in
    let parent' :=
      set_children parent (spliceOnce toRemove qnode false (children parent)) in
    match children parent' with
    | [c] => if isRoot then (true, c) else (true, parent')
    | _ => (true, parent')
    end.

(** [s[i].mark == m] at an index that the guard before it keeps in
    range. *)
Definition markAt (s : list pqNode) (i : Z) (m : markKind) : bool :=
  match index s i with
  | Some c => hasMark m c
  | None => false
  end.

(** [mergeQNodes]. *)
Definition mergeQNodes (parent : pqNode) (idx : Z) : option pqNode :=
  match index (children parent) idx with
  | None => None
  | Some child =>
      if negb (nodeKind_eqb (kind child) qNode) then Some parent
      else
        let reverse :=
          if (idx >? 0) && markAt (children parent) (idx - 1) full then
            (len (children child) >? 0)
            && markAt (children child) (len (children child) - 1) full
          else if (idx <? len (children parent) - 1)
                  && markAt (children parent) (idx + 1) full then
            (len (children child) >? 0) && markAt (children child) 0 full
          else false in
        let grand := if reverse then rev (children child) else children child in
        Some (set_children parent
                (take (Z.to_nat idx) (children parent) ++ grand
                 ++ drop (Z.to_nat (idx + 1)) (children parent)))
  end.

(** The scan of [reduceQNode]: [first], [last] and [partialIdx]. *)
Fixpoint scanQ (i : Z) (cs : list pqNode) (st : Z * Z * list Z)
  : Z * Z * list Z :=
  match cs with
  | [] => st
  | child :: rest =>
      let '(first, last, partialIdx) := st in
      scanQ (i + 1) rest
        (match mark child with
         | full => (if first <? 0 then i else first, i, partialIdx)
         | partial => (first, last, partialIdx ++ [i])
         | _ => st
         end)
  end.

(** [for i := first; i <= last; i++ { if n.children[i].mark == empty ... }]:
    [Some false] when the loop returns false, [Some true] when it ends. *)
Fixpoint noEmptyInRun (cs : list pqNode) (i : Z) (steps : nat) : option bool :=
  match steps with
  | O => Some true
  | S steps' =>
      match index cs i with
      | None => None
      | Some c =>
          if hasMark empty c then Some false
          else noEmptyInRun cs (i + 1) steps'
      end
  end.

(** The merging loop of [reduceQNode]; [n.children] is read again at every
    iteration. *)
Fixpoint mergeLoop (n : pqNode) (partialIdx : list Z) : option pqNode :=
  match partialIdx with
  | [] => Some n
  | idx :: rest =>
      match index (children n) idx with
      | None => None
      | Some c =>
          if nodeKind_eqb (kind c) qNode then
            match mergeQNodes n idx with
            | Some n' => mergeLoop n' rest
            | None => None
            end
          else mergeLoop n rest
      end
  end.

Section Rewriting.

(** [t.reduce] on a node below the root. *)
Variable reduce : pqNode → option (bool * pqNode).

(** First loop of [reducePartialChildren]. *)
Fixpoint reduceEach (cs : list pqNode) : option (bool * list pqNode) :=
  match cs with
  | [] => Some (true, [])
  | c :: rest =>
      if hasMark partial c then
        match reduce c with
        | None => None
        | Some (false, c') => Some (false, c' :: rest)
        | Some (true, c') =>
            match reduceEach rest with
            | None => None
            | Some (ok, rest') => Some (ok, c' :: rest')
            end
        end
      else
        match reduceEach rest with
        | None => None
        | Some (ok, rest') => Some (ok, c :: rest')
        end
  end.

(** [reducePartialChildren]. *)
Definition reducePartialChildren (n : pqNode) : option (bool * pqNode) :=
  match reduceEach (children n) with
  | None => None
  | Some (false, cs) => Some (false, set_children n cs)
  | Some (true, cs) =>
      Some (true, mkNode (kind n) (value n) cs (mark n)
                    (countMark full cs) (countMark partial cs))
  end.

(** [reducePNode]. *)
Definition reducePNode (isRoot : bool) (n : pqNode) : option (bool * pqNode) :=
  match reducePartialChildren n with
  | None => None
  | Some (false, n1) => Some (false, n1)
  | Some (true, n1) =>
      let fullCh := List.filter (hasMark full) (children n1) in
      let emptyCh := List.filter (hasMark empty) (children n1) in
      let partialCh := List.filter (hasMark partial) (children n1) in
      if len partialCh >? 1 then Some (false, n1)
      else if len fullCh =? 0 then Some (true, n1)
      else if len partialCh =? 0 then
        if (len fullCh >? 1) && (len emptyCh >? 0)
        then Some (true, groupChildren n1 fullCh pNode)
        else Some (true, n1)
      else
        match partialCh with
        | p0 :: _ => Some (extendPartialChild isRoot n1 p0 fullCh)
        | [] => None
        end
  end.

(** [reduceQNode]. *)
Definition reduceQNode (n : pqNode) : option (bool * pqNode) :=
  match reducePartialChildren n with
  | None => None
  | Some (false, n1) => Some (false, n1)
  | Some (true, n1) =>
      let '(first, last, partialIdx) :=
        scanQ 0 (children n1) (-1, -1, []) in
      if first <? 0 then Some (true, n1)
      else
        match noEmptyInRun (children n1) first (Z.to_nat (last - first + 1)) with
        | None => None
        | Some false => Some (false, n1)
        | Some true =>
            if forallb (λ idx, (idx =? first - 1) || (idx =? last + 1))
                 partialIdx
            then
              match mergeLoop n1 partialIdx with
              | Some n2 => Some (true, n2)
              | None => None
              end
            else Some (false, n1)
        end
  end.

End Rewriting.

(** [reduce].  The result is [None] on a run-time panic, else the boolean
    returned together with the node as the call leaves it (for the root,
    the node [t.root] points to afterwards). *)
Fixpoint reduce (isRoot : bool) (n : pqNode) {struct n} : option (bool * pqNode) :=
  if hasMark full n || hasMark empty n then Some (true, n)
  else
    match kind n with
    | leafNode => Some (true, n)
    | pNode => reducePNode (reduce false) isRoot n
    | qNode => reduceQNode (reduce false) n
    end.

(** [Reduce]: [None] on a panic, else the result and the tree after the
    call. *)
Definition Reduce (t : PQTree) (constraint : list Z) : option (bool * PQTree) :=
  match root t with
  | None => Some (true, t)
  | Some r =>
      if (len constraint <=? 1) || (len constraint =? Z.of_nat (leaves t))
      then Some (true, t)
      else
        match markConstraint (leaves t) constraint (clearMarks r) with
        | None => None
        | Some r1 =>
            let r2 := bubbleUp r1 in
            if hasMark empty r2 then Some (true, mkTree (Some r2) (leaves t))
            else
              match reduce true r2 with
              | None => None
              | Some (ok, r3) => Some (ok, mkTree (Some r3) (leaves t))
              end
        end
  end.

(** *** Enumeration *)

(** [s[a], s[b] = s[b], s[a]]. *)
Definition swap {A : Type} (s : list A) (a b : Z) : option (list A) :=
  match index s a, index s b with
  | Some x, Some y => Some (<[Z.to_nat b := x]> (<[Z.to_nat a := y]> s))
  | _, _ => None
  end.

Fixpoint height (n : pqNode) : nat :=
  S (foldr (λ c h, Nat.max (height c) h) O (children n)).

Section Enumeration.

(** The variables a callback closes over and updates ([results] in
    [Enumerate]); a callback is a function on that state returning the
    continuation flag. *)
Context {St : Type}.

Definition callback (A : Type) : Type := A → St → option (bool * St).

(** The loop of the P-node case of [forEachChildPerm]; the iteration
    count is bounded by [fuel], and running out of it is [None]. *)
Fixpoint heapLoop (fuel : nat) (fn : callback (list pqNode)) (n : Z)
    (perm : list pqNode) (state : list Z) (i : Z) (st : St)
  : option (bool * St) :=
  match fuel with
  | O => None
  | S fuel' =>
      if i <? n then
        match index state i with
        | None => None
        | Some si =>
            if si <? i then
              match (if Z.land i 1 =? 0 then swap perm 0 i
                     else swap perm si i) with
              | None => None
              | Some perm' =>
                  match fn perm' st with
                  | None => None
                  | Some (false, st') => Some (false, st')
                  | Some (true, st') =>
                      heapLoop fuel' fn n perm'
                        (<[Z.to_nat i := si + 1]> state) 0 st'
                  end
              end
            else
              heapLoop fuel' fn n perm (<[Z.to_nat i := 0]> state) (i + 1) st
        end
      else Some (true, st)
  end.

(** A bound on the iterations of the loop over [n] children:
    [(n + 1) * n!]. *)
Fixpoint factNat (n : nat) : nat :=
  match n with
  | O => 1%nat
  | S m => (n * factNat m)%nat
  end.

Definition heapFuel (n : nat) : nat := S (S n * factNat n).

(** [forEachChildPerm]. *)
Definition forEachChildPerm (node : pqNode) (fn : callback (list pqNode))
    (st : St) : option (bool * St) :=
  if nodeKind_eqb (kind node) qNode then
    match fn (children node) st with
    | None => None
    | Some (false, st') => Some (false, st')
    | Some (true, st') =>
        if len (children node) <=? 1 then Some (true, st')
        else fn (rev (children node)) st'
    end
  else
    let n := len (children node) in
    if n =? 0 then fn [] st
    else if n =? 1 then fn (children node) st
    else
      match fn (children node) st with
      | None => None
      | Some (false, st') => Some (false, st')
      | Some (true, st') =>
          heapLoop (heapFuel (length (children node))) fn n (children node)
            (replicate (length (children node)) 0) 0 st'
      end.

(** [enumerateChildrenLazy], over the [enumerateLazy] it calls. *)
Fixpoint enumerateChildrenWith
    (enumerateLazy : pqNode → list Z → callback (list Z) → St → option (bool * St))
    (cs : list pqNode) (prefix : list Z) (emit : callback (list Z)) {struct cs}
  : St → option (bool * St) :=
  match cs with
  | [] => emit prefix
  | first :: rest =>
      enumerateLazy first []
        (λ firstPerm,
           enumerateChildrenWith enumerateLazy rest (prefix ++ firstPerm) emit)
  end.

(** [enumerateLazy] and [enumerateChildrenLazy].  The two functions call
    each other through callbacks on permuted children, so the recursion
    is on a bound [depth] of the nesting: [None] when it runs out. *)
Fixpoint enumerateLazy (depth : nat) (node : pqNode) (prefix : list Z)
    (emit : callback (list Z)) (st : St) {struct depth} : option (bool * St) :=
  match depth with
  | O => None
  | S depth' =>
      if nodeKind_eqb (kind node) leafNode then emit (prefix ++ [value node]) st
      else
        forEachChildPerm node
          (λ cs, enumerateChildrenWith (enumerateLazy depth') cs prefix emit)
          st
  end.

Definition enumerateChildrenLazy (depth : nat) (cs : list pqNode)
    (prefix : list Z) (emit : callback (list Z)) : St → option (bool * St) :=
  enumerateChildrenWith (enumerateLazy depth) cs prefix emit.

End Enumeration.

(** [Enumerate]: [None] on a panic. *)
Definition Enumerate (t : PQTree) (limit : Z) : option (list (list Z)) :=
  match root t with
  | None => Some [[]]
  | Some r =>
      let emit : callback (list Z) :=
        λ perm results,
          let results := results ++ [perm] in
          Some ((limit <=? 0) || (len results <? limit), results) in
      snd <$> enumerateLazy (height r) r [] emit []
  end.

(** *** What the claims speak about *)

(** The PQ-tree states of a run: a fresh tree, then any number of [Reduce]
    calls, whatever they return. *)
Inductive reachable : PQTree → Prop :=
| reach_new (n : Z) (t : PQTree) :
    NewPQTree n = Some t → reachable t
| reach_reduce (t t' : PQTree) (constraint : list Z) (ok : bool) :
    reachable t → Reduce t constraint = Some (ok, t') → reachable t'.

(** The constraints reduced with success on the way to a state. *)
Inductive reducedTo : PQTree → list (list Z) → Prop :=
| reduced_new (n : Z) (t : PQTree) :
    NewPQTree n = Some t → reducedTo t []
| reduced_step (t t' : PQTree) (done : list (list Z)) (constraint : list Z) :
    reducedTo t done → Reduce t constraint = Some (true, t') →
    reducedTo t' (constraint :: done).

(** The leaves below a node, left to right. *)
Fixpoint leafValues (n : pqNode) : list Z :=
  match kind n with
  | leafNode => [value n]
  | _ => children n ≫= leafValues
  end.

(** The shape every node of a run has: a leaf has no children and is never
    marked partial, an inner node has children. *)
Inductive proper : pqNode → Prop :=
| proper_leaf (v : Z) (m : markKind) (f p : Z) :
    m ≠ partial → proper (mkNode leafNode v [] m f p)
| proper_inner (k : nodeKind) (v : Z) (cs : list pqNode) (m : markKind) (f p : Z) :
    k ≠ leafNode → cs ≠ [] → Forall proper cs → proper (mkNode k v cs m f p).

(** A tree over the leaves [0 .. n-1]. *)
Definition wfTree (t : PQTree) : Prop :=
  match root t with
  | None => leaves t = 0%nat
  | Some r => proper r ∧ leafValues r ≡ₚ (Z.of_nat <$> seq 0 (leaves t))
  end.

(** The value of the counter [state] of the P-node loop in the factorial
    number system, digit [j] weighing [j!]; [digits] are the digits from
    position [j] on. *)
Fixpoint weight (j : nat) (digits : list Z) : Z :=
  match digits with
  | [] => 0
  | d :: rest => d * fact j + weight (S j) rest
  end.

(** The elements of a constraint that name a leaf. *)
Definition inRange (nleaves : nat) (elem : Z) : bool :=
  (0 <=? elem) && (elem <? Z.of_nat nleaves).

(** [S] occupies a contiguous block of [ordering]: whatever stands between
    two elements of [S] is in [S]. *)
Definition contiguous (S ordering : list Z) : Prop :=
  ∀ (i j k : nat) (x y z : Z),
    (i ≤ j ≤ k)%nat →
    ordering !! i = Some x → ordering !! j = Some y → ordering !! k = Some z →
    x ∈ S → z ∈ S → y ∈ S.

(** [ValidCount]. *)
Definition ValidCount (t : PQTree) : Z :=
  match root t with
  | None => 1
  | Some r => countPerms r
  end.

(** A run of [Reduce] calls, with the results they return. *)
Fixpoint reduceAll (t : PQTree) (constraints : list (list Z))
  : option (list bool * PQTree) :=
  match constraints with
  | [] => Some ([], t)
  | c :: rest =>
      '(b, t1) ← Reduce t c;
      '(bs, t2) ← reduceAll t1 rest;
      Some (b :: bs, t2)
  end.

(** The tree over 4 leaves after [Reduce] of {0,1,2} and {0,1}, and the
    same after one more [Reduce] of {1,3}. *)
Definition brokenStart : option (list bool * PQTree) :=
  t0 ← NewPQTree 4; reduceAll t0 [[0; 1; 2]; [0; 1]].

Definition brokenRun : option (list bool * PQTree) :=
  t0 ← NewPQTree 4; reduceAll t0 [[0; 1; 2]; [0; 1]; [1; 3]].

(** *** Invariants of the rewriting and of the enumeration *)

(** What every rewriting step keeps: the node stays [proper] and keeps its
    leaves. *)
Definition keeps (n n' : pqNode) : Prop :=
  proper n' ∧ leafValues n' ≡ₚ leafValues n.

(** What the scan of [reduceQNode] has found after the children below
    index [bound]. *)
Definition scanned (bound : Z) (st : Z * Z * list Z) : Prop :=
  let '(first, last, partialIdx) := st in
  (first < 0 ∨ (0 <= first ∧ first <= last ∧ last < bound))
  ∧ Forall (λ idx, 0 <= idx < bound) partialIdx.

(** A call of [reduce] that does not panic and keeps the node. *)
Definition reduceKeeps (n : pqNode) (r : option (bool * pqNode)) : Prop :=
  ∃ ok n', r = Some (ok, n') ∧ keeps n n'.

(** A pass over the tree that touches marks and counters only. *)
Definition marksOnly (f : pqNode → pqNode) : Prop :=
  ∀ n, kind (f n) = kind n
       ∧ value (f n) = value n
       ∧ (kind n ≠ leafNode → children (f n) = f <$> children n)
       ∧ (kind n = leafNode → children n = [] →
          children (f n) = [] ∧ (mark n ≠ partial → mark (f n) ≠ partial)).

(** A callback that does not fail on the arguments in [P] and keeps [I]. *)
Definition runsOn {St : Type} (I : St → Prop) {A : Type} (P : A → Prop)
    (fn : callback A) : Prop :=
  ∀ x st, P x → I st → ∃ b st', fn x st = Some (b, st') ∧ I st'.

(** *** What the further properties speak about *)

(** A callback called on the elements of a list in turn, until it returns
    false or panics. *)
Fixpoint runList {St A : Type} (xs : list A) (fn : callback A) (st : St)
  : option (bool * St) :=
  match xs with
  | [] => Some (true, st)
  | x :: xs' =>
      match fn x st with
      | Some (true, st') => runList xs' fn st'
      | r => r
      end
  end.

(** The arguments the loop [heapLoop] hands to its callback, in order (as
    far as the loop gets within [fuel] and without a panic). *)
Fixpoint heapPerms (fuel : nat) (n : Z) (perm : list pqNode) (state : list Z)
    (i : Z) : list (list pqNode) :=
  match fuel with
  | O => []
  | S fuel' =>
      if i <? n then
        match index state i with
        | None => []
        | Some si =>
            if si <? i then
              match (if Z.land i 1 =? 0 then swap perm 0 i
                     else swap perm si i) with
              | None => []
              | Some perm' =>
                  perm' :: heapPerms fuel' n perm'
                             (<[Z.to_nat i := si + 1]> state) 0
              end
            else heapPerms fuel' n perm (<[Z.to_nat i := 0]> state) (i + 1)
        end
      else []
  end.

(** The arguments [forEachChildPerm] hands to its callback, in order. *)
Definition childPerms (node : pqNode) : list (list pqNode) :=
  if nodeKind_eqb (kind node) qNode then
    if len (children node) <=? 1 then [children node]
    else [children node; rev (children node)]
  else
    let n := len (children node) in
    if n =? 0 then [[]]
    else if n =? 1 then [children node]
    else
      children node
      :: heapPerms (heapFuel (length (children node))) n (children node)
           (replicate (length (children node)) 0) 0.

(** The orderings [enumerateChildrenLazy] and [enumerateLazy] hand to
    [emit] after its prefix, in order. *)
Fixpoint childOrderings (orderings : pqNode → list (list Z)) (cs : list pqNode)
  : list (list Z) :=
  match cs with
  | [] => [[]]
  | first :: rest =>
      firstPerm ← orderings first;
      (λ q, firstPerm ++ q) <$> childOrderings orderings rest
  end.

Fixpoint orderings (depth : nat) (node : pqNode) : list (list Z) :=
  match depth with
  | O => []
  | S depth' =>
      if nodeKind_eqb (kind node) leafNode then [[value node]]
      else childPerms node ≫= childOrderings (orderings depth')
  end.

(** The orderings a tree admits: the children of a P-node in any order,
    those of a Q-node in their order or in the reverse order, each child
    contributing an ordering it admits. *)
Inductive admits : pqNode → list Z → Prop :=
| admits_leaf (n : pqNode) :
    kind n = leafNode → admits n [value n]
| admits_P (n : pqNode) (cs : list pqNode) (parts : list (list Z)) :
    kind n = pNode → cs ≡ₚ children n → Forall2 admits cs parts →
    admits n (mjoin parts)
| admits_Q (n : pqNode) (cs : list pqNode) (parts : list (list Z)) :
    kind n = qNode → cs = children n ∨ cs = rev (children n) →
    Forall2 admits cs parts →
    admits n (mjoin parts).


(** The nodes of a tree: [within n m] when [m] is [n] or a node below. *)
Inductive within : pqNode → pqNode → Prop :=
| within_here (n : pqNode) : within n n
| within_child (n c m : pqNode) :
    c ∈ children n → within c m → within n m.


(** Every Q-node of the tree has at least two children. *)
Inductive wideQ : pqNode → Prop :=
| wideQ_node (n : pqNode) :
    (kind n = qNode → (2 ≤ length (children n))%nat) →
    Forall wideQ (children n) → wideQ n.

(** The number of orderings of a node: [n!] (for a Q-node, 2) times the
    numbers of its children, without the wrap-around of [countPerms]. *)
Fixpoint orderingCount (node : pqNode) : nat :=
  match kind node with
  | leafNode => 1%nat
  | k =>
      let product :=
        foldr (λ child product, (orderingCount child * product)%nat) 1%nat
          (children node) in
      match k with
      | qNode => (2 * product)%nat
      | _ => (factNat (length (children node)) * product)%nat
      end
  end.


End Perm.

(** ** package ordering: the barycentric orderer and the optimal search *)

Module Ordering.

Import GoInt.

(** [dag.Node] and [dag.DAG] are declared in package [dag], which is not
    among the sources: a node is what the orderers read of it, and a graph
    is its accessors. *)
Record Node : Type :=
  mkDagNode {
    ID : string;
    EffectiveID : string
  }.

Record DAG : Type :=
  mkDAG {
    RowIDs : list Z;
    NodesInRow : Z → list Node;
    ChildrenInRow : string → Z → list string;
    ParentsInRow : string → Z → list string;
    Parents : string → list string;
    Children : string → list string;
    NodeByID : string → option Node
  }.

(** A Go [map[int][]string]: [nil], or a map.  Reading a key that is absent
    gives the nil slice. *)
Inductive orderMap : Type :=
| nilOrders
| ordersOf (m : gmap Z (list string)).

Definition orderAt (orders : gmap Z (list string)) (r : Z) : list string :=
  default [] (orders !! r).

Definition nodesAt (rowNodes : gmap Z (list Node)) (r : Z) : list Node :=
  default [] (rowNodes !! r).

(** The functions of packages [dag] and [perm] that the orderers call and
    that are not among the sources, the [float64] arithmetic of
    [orderByMinParent], and [runtime.GOMAXPROCS(0)].  The workspace argument
    of [CountCrossingsIdx] is scratch memory and is left out. *)
Record Collaborators : Type :=
  mkCollaborators {
    float64 : Type;
    float_of_int : Z → float64;
    float_div : float64 → float64 → float64;
    float_compare : float64 → float64 → Z;
    CountCrossings : DAG → gmap Z (list string) → Z;
    CountCrossingsIdx : list (list Z) → list Z → list Z → Z;
    CountPairCrossingsWithPos : DAG → string → string → gmap string Z → bool → Z;
    PosMap : list string → gmap string Z;
    NodeIDs : list Node → list string;
    medianPosition : list Z → Z * bool;
    Seq : Z → list Z;
    Generate : Z → Z → list (list Z);
    GOMAXPROCS : Z
  }.

(** [cmp.Compare] on [int] and on [string]. *)
Definition compareInt (a b : Z) : Z :=
  if a <? b then -1 else if b <? a then 1 else 0.

Definition compareString (a b : string) : Z :=
  match String.compare a b with
  | Lt => -1
  | Eq => 0
  | Gt => 1
  end.

(** [slices.SortStableFunc] and [slices.Sort]: the elements in ascending
    order, equal elements in their original order. *)
Fixpoint insertSorted {A : Type} (less : A → A → bool) (x : A) (sorted : list A)
  : list A :=
  match sorted with
  | [] => [x]
  | y :: rest =>
      if less x y then x :: y :: rest else y :: insertSorted less x rest
  end.

Definition sortStableFunc {A : Type} (cmp : A → A → Z) (s : list A) : list A :=
  foldl (λ sorted x, insertSorted (λ a b, cmp a b <? 0) x sorted) [] s.

Definition sortStrings (s : list string) : list string :=
  sortStableFunc compareString s.

Definition maxCandidatesBase : Z := 10000.

Definition defaultPasses : Z := 24.

(** [calcCandidateLimit]; [/] on [int] truncates. *)
Definition calcCandidateLimit (numRows : Z) : Z :=
  if numRows <=? 3 then maxCandidatesBase
  else
    let limit := maxCandidatesBase ÷ numRows in
    Z.max 100 (Z.min 1000 limit).

(** The limit in the words of the spec. *)
Definition clamp (x lo hi : Z) : Z :=
  if x <? lo then lo else if hi <? x then hi else x.

Definition candidateLimitSpec (numRows : Z) : Z :=
  if numRows <=? 3 then 10000 else clamp (10000 `div` numRows) 100 1000.

Record nodeEntry : Type :=
  mkNodeEntry {
    entry_id : string;
    median : Z;
    hasMedian : bool;
    currentPos : Z
  }.

Definition sortKey (e : nodeEntry) : Z :=
  if hasMedian e then median e else currentPos e.

Definition compareEntries (a b : nodeEntry) : Z :=
  let c := compareInt (sortKey a) (sortKey b) in
  if negb (c =? 0) then c
  else if hasMedian a && negb (hasMedian b) then -1
  else if negb (hasMedian a) && hasMedian b then 1
  else compareInt (currentPos a) (currentPos b).

Section Barycentric.

Context (E : Collaborators).

(** [rowNodes], as both [OrderRows] build it. *)
Definition rowNodesOf (g : DAG) (rows : list Z) : gmap Z (list Node) :=
  foldl (λ rowNodes r, <[r := NodesInRow g r]> rowNodes) ∅ rows.

(** [weightedMedian]. *)
Definition weightedMedian (neighbors : list string) (positions : gmap string Z)
  : Z * bool :=
  medianPosition E (omap (λ n, positions !! n) neighbors).

(** [wmedian]. *)
Definition wmedian (g : DAG) (nodes : list Node) (current fixed : list string)
    (useParents : bool) : list string :=
  if len nodes <=? 1 then NodeIDs E nodes
  else
    let fixedPos := PosMap E fixed in
    let currentPos := PosMap E current in
    let entries :=
      (λ n,
         let neighbors :=
           if useParents then Parents g (ID n) else Children g (ID n) in
         let pos := default (len current) (currentPos !! ID n) in
         let '(medianPos, hasMedian) := weightedMedian neighbors fixedPos in
         mkNodeEntry (ID n) medianPos hasMedian pos) <$> nodes in
    entry_id <$> sortStableFunc compareEntries entries.

(** The test of [transpose] on an adjacent pair: not the same effective
    identity, and fewer crossings when swapped. *)
Definition sameEffectiveID (g : DAG) (leftID rightID : string) : bool :=
  match NodeByID g leftID, NodeByID g rightID with
  | Some leftNode, Some rightNode =>
      bool_decide (EffectiveID leftNode = EffectiveID rightNode)
  | _, _ => false
  end.

Definition swapsPair (g : DAG) (adjPos : gmap string Z) (useParents : bool)
    (leftID rightID : string) : bool :=
  negb (sameEffectiveID g leftID rightID)
  && (CountPairCrossingsWithPos E g rightID leftID adjPos useParents
      <? CountPairCrossingsWithPos E g leftID rightID adjPos useParents).

(** One scan [for i := 0; i < len(order)-1; i++] of [transpose], entered
    with [order[i] = leftID]; the result is the order and [swapped]. *)
Fixpoint transposeScan (swaps : string → string → bool) (leftID : string)
    (rest : list string) : list string * bool :=
  match rest with
  | [] => ([leftID], false)
  | rightID :: rest' =>
      if swaps leftID rightID then
        let '(order, _) := transposeScan swaps leftID rest' in
        (rightID :: order, true)
      else
        let '(order, swapped) := transposeScan swaps rightID rest' in
        (leftID :: order, swapped)
  end.

(** The outer [for] of [transpose], bounded by [fuel]. *)
Fixpoint transposeLoop (fuel : nat) (swaps : string → string → bool)
    (order : list string) : option (list string) :=
  match fuel with
  | O => None
  | S fuel' =>
      match order with
      | [] => Some []
      | leftID :: rest =>
          let '(order', swapped) := transposeScan swaps leftID rest in
          if swapped then transposeLoop fuel' swaps order' else Some order'
      end
  end.

Definition transposeFuel (n : nat) : nat := S (n * n).

(** [transpose]: the order of [row] is rewritten in place. *)
Definition transpose (g : DAG) (orders : gmap Z (list string)) (row adjRow : Z)
    (useParents : bool) : option (gmap Z (list string)) :=
  let order := orderAt orders row in
  if len order <? 2 then Some orders
  else
    let adjPos := PosMap E (orderAt orders adjRow) in
    order' ← transposeLoop (transposeFuel (length order))
                (swapsPair g adjPos useParents) order;
    Some (<[row := order']> orders).

(** The two sweeps of [runPasses]. *)
Definition sweepRow (g : DAG) (rowNodes : gmap Z (list Node)) (adj : Z)
    (useParents : bool) (orders : option (gmap Z (list string))) (r : Z)
  : option (gmap Z (list string)) :=
  orders ← orders;
  let orders :=
    <[r := wmedian g (nodesAt rowNodes r) (orderAt orders r)
             (orderAt orders (r + adj)) useParents]> orders in
  transpose g orders r (r + adj) useParents.

Definition sweepDown (g : DAG) (rows : list Z) (rowNodes : gmap Z (list Node))
    (orders : gmap Z (list string)) : option (gmap Z (list string)) :=
  foldl (sweepRow g rowNodes (-1) true) (Some orders) (drop 1 rows).

Definition sweepUp (g : DAG) (rows : list Z) (rowNodes : gmap Z (list Node))
    (orders : gmap Z (list string)) : option (gmap Z (list string)) :=
  foldl (sweepRow g rowNodes 1 false) (Some orders)
    (rev (take (length rows - 1) rows)).

(** The loop of [runPasses] from pass number [pass], with [count] passes
    left before [pass < passes] fails. *)
Fixpoint passLoop (g : DAG) (rows : list Z) (rowNodes : gmap Z (list Node))
    (count : nat) (pass : Z) (orders best : gmap Z (list string))
    (bestScore staleCount : Z) : option (gmap Z (list string) * Z) :=
  match count with
  | O => Some (best, bestScore)
  | S count' =>
      if bestScore >? 0 then
        let prevScore := bestScore in
        orders ← (if pass `rem` 2 =? 0 then sweepDown g rows rowNodes orders
                  else sweepUp g rows rowNodes orders);
        let score := CountCrossings E g orders in
        let '(best, bestScore, staleCount) :=
          if score <? bestScore then (orders, score, 0)
          else (best, bestScore, staleCount + 1) in
        if (staleCount >=? 4) && (score =? prevScore) then Some (best, bestScore)
        else passLoop g rows rowNodes count' (pass + 1) orders best bestScore
               staleCount
      else Some (best, bestScore)
  end.

(** [runPasses]; [copyOrders] copies the map and its slices, which is the
    identity on values. *)
Definition runPasses (g : DAG) (rows : list Z) (rowNodes : gmap Z (list Node))
    (init : gmap Z (list string)) (passes : Z)
  : option (gmap Z (list string) * Z) :=
  passLoop g rows rowNodes (Z.to_nat passes) 0 init init
    (CountCrossings E g init) 0.

(** [reverseOrders]. *)
Definition reverseOrders (orders : gmap Z (list string)) (rows : list Z)
  : gmap Z (list string) :=
  foldl (λ rev_ r, <[r := rev (orderAt orders r)]> rev_) ∅ rows.

Record minParentEntry : Type :=
  mkMinParentEntry {
    mp_id : string;
    minPos : Z;
    avgPos : float64 E
  }.

Definition compareMinParent (a b : minParentEntry) : Z :=
  let c := compareInt (minPos a) (minPos b) in
  if negb (c =? 0) then c
  else
    let c := float_compare E (avgPos a) (avgPos b) in
    if negb (c =? 0) then c
    else compareString (mp_id a) (mp_id b).

(** [orderByMinParent]. *)
Definition orderByMinParent (g : DAG) (nodes : list Node)
    (parentOrder : list string) : list string :=
  let parentPos := PosMap E parentOrder in
  let entries :=
    (λ n,
       let '(minPos, sumPos, count) :=
         foldl (λ '(minPos, sumPos, count) parent,
                  match parentPos !! parent with
                  | Some pos =>
                      (if pos <? minPos then pos else minPos, sumPos + pos,
                       count + 1)
                  | None => (minPos, sumPos, count)
                  end)
               (len parentOrder, 0, 0) (Parents g (ID n)) in
       let avgPos :=
         if count >? 0
         then float_div E (float_of_int E sumPos) (float_of_int E count)
         else float_of_int E minPos in
       mkMinParentEntry (ID n) minPos avgPos) <$> nodes in
  mp_id <$> sortStableFunc compareMinParent entries.

(** [initOrders]. *)
Definition initOrders (g : DAG) (rows : list Z) (rowNodes : gmap Z (list Node))
  : gmap Z (list string) :=
  match rows with
  | [] => ∅
  | row0 :: rest =>
      foldl (λ orders r,
               match nodesAt rowNodes r with
               | [] => orders
               | nodes =>
                   <[r := orderByMinParent g nodes (orderAt orders (r - 1))]> orders
               end)
            (<[row0 := sortStrings (NodeIDs E (nodesAt rowNodes row0))]> ∅)
            rest
  end.

(** [Barycentric.OrderRows]: [None] when [transpose] does not return. *)
Definition BarycentricOrderRows (Passes : Z) (g : DAG) : option orderMap :=
  let rows := RowIDs g in
  if len rows =? 0 then Some nilOrders
  else
    let passes := if Passes <=? 0 then defaultPasses else Passes in
    let rowNodes := rowNodesOf g rows in
    let best := initOrders g rows rowNodes in
    let bestScore := CountCrossings E g best in
    if bestScore =? 0 then Some (ordersOf best)
    else
      '(orders1, score1) ← runPasses g rows rowNodes best passes;
      let improved := score1 <? bestScore in
      let best := if improved then orders1 else best in
      let bestScore := if improved then score1 else bestScore in
      if improved && (bestScore =? 0) then Some (ordersOf best)
      else
        '(orders2, score2) ←
          runPasses g rows rowNodes (reverseOrders best rows) passes;
        if score2 <? bestScore then Some (ordersOf orders2)
        else Some (ordersOf best).

End Barycentric.

(** *** The optimal search *)

(** [path [][]int]: a row is a slice of row-local indices, or nil. *)
Abbreviation searchPath := (list (option (list Z))).

Definition rowOf (path : searchPath) (depth : Z) : list Z :=
  default [] (mjoin (Perm.index path depth)).

(** [buildNodeIndex], also written out in [toIndexPath] and
    [newFastGraph]. *)
Definition buildNodeIndex (nodes : list Node) : gmap string Z :=
  (foldl (λ '(idx, i) n, (<[ID n := i]> idx, i + 1)) (∅, 0) nodes).1.

(** [idsToIndices]. *)
Definition idsToIndices (ids : list string) (idx : gmap string Z) : list Z :=
  omap (λ id, idx !! id) ids.

(** The inner loop of [toIndexPath]: [indices] starts as [len(nodes)]
    zeros and [indices[j] = nodeIdx[id]] panics once [j] reaches
    [len(nodes)]. *)
Definition indicesOf (nodes : list Node) (ids : list string) : option (list Z) :=
  let nodeIdx := buildNodeIndex nodes in
  if len nodes <? len ids then None
  else Some (((λ id, default 0 (nodeIdx !! id)) <$> ids)
             ++ replicate (length nodes - length ids) 0).

(** [toIndexPath]. *)
Definition toIndexPath (g : DAG) (rows : list Z) (order : gmap Z (list string))
  : option searchPath :=
  mapM (λ r, Some <$> indicesOf (NodesInRow g r) (orderAt order r)) rows.

(** [toStringOrder], from row number [i] on; [path] is what is left of the
    path from index [i]. *)
Fixpoint toStringOrderFrom (rowNodes : gmap Z (list Node)) (rows : list Z)
    (path : searchPath) (result : gmap Z (list string))
  : option (gmap Z (list string)) :=
  match rows, path with
  | [], _ => Some result
  | _ :: _, [] => Some result
  | _ :: rows', None :: path' => toStringOrderFrom rowNodes rows' path' result
  | r :: rows', Some indices :: path' =>
      ids ← mapM (λ idx, ID <$> Perm.index (nodesAt rowNodes r) idx) indices;
      toStringOrderFrom rowNodes rows' path' (<[r := ids]> result)
  end.

Definition toStringOrder (rowNodes : gmap Z (list Node)) (rows : list Z)
    (path : searchPath) : option (gmap Z (list string)) :=
  toStringOrderFrom rowNodes rows path ∅.

(** [add] on [int], as the running score is summed. *)
Definition addInt (a b : Z) : Z := wrap (a + b).

Section Optimal.

Context (E : Collaborators).

(** [newFastGraph]: the table [edges]; [maxRowWidth] only sizes the
    workspaces. *)
Definition fastEdges (g : DAG) (rows : list Z) : list (list (list Z)) :=
  (λ '(upperRow, lowerRow),
     let lowerIdx := buildNodeIndex (NodesInRow g lowerRow) in
     (λ node,
        sortStableFunc compareInt
          (idsToIndices (ChildrenInRow g (ID node) lowerRow) lowerIdx))
     <$> NodesInRow g upperRow)
  <$> zip rows (drop 1 rows).

(** The parts of [solver] that [search] only reads. *)
Record solver : Type :=
  mkSolver {
    sg : DAG;
    edges : list (list (list Z));
    rows : list Z;
    rowNodes : gmap Z (list Node);
    candLimit : Z
  }.

Definition newSolver (g : DAG) : solver :=
  mkSolver g (fastEdges g (RowIDs g)) (RowIDs g)
    (rowNodesOf g (RowIDs g)) (calcCandidateLimit (len (RowIDs g))).

(** The loop shared by [applyParentConstraints] and
    [applyChildConstraints]: reduce by each constraint of two or more
    indices, stop at the first failure. *)
Fixpoint reduceByAll (tree : Perm.PQTree) (constraints : list (list Z))
  : option (bool * Perm.PQTree) :=
  match constraints with
  | [] => Some (true, tree)
  | constraint :: rest =>
      if len constraint >=? 2 then
        match Perm.Reduce tree constraint with
        | None => None
        | Some (true, tree') => reduceByAll tree' rest
        | Some (false, tree') => Some (false, tree')
        end
      else reduceByAll tree rest
  end.

(** [applyParentConstraints]. *)
Definition applyParentConstraints (s : solver) (tree : Perm.PQTree)
    (nodeIdx : gmap string Z) (depth : Z) (prevOrder : list Z)
    (prevNodes : list Node) : option (bool * Perm.PQTree) :=
  row ← Perm.index (rows s) depth;
  constraints ←
    mapM (λ idx,
            prevNode ← Perm.index prevNodes idx;
            Some (idsToIndices (ChildrenInRow (sg s) (ID prevNode) row) nodeIdx))
         prevOrder;
  reduceByAll tree constraints.

(** [applyChildConstraints]. *)
Definition applyChildConstraints (s : solver) (tree : Perm.PQTree)
    (nodeIdx : gmap string Z) (depth : Z) : option (bool * Perm.PQTree) :=
  if depth >=? len (rows s) - 1 then Some (true, tree)
  else
    row ← Perm.index (rows s) depth;
    next ← Perm.index (rows s) (depth + 1);
    reduceByAll tree
      ((λ child, idsToIndices (ParentsInRow (sg s) (ID child) row) nodeIdx)
       <$> nodesAt (rowNodes s) next).

(** [fallbackPermutations]. *)
Definition fallbackPermutations (s : solver) (n : Z) : list (list Z) :=
  if n <=? 8 then Generate E n (-1) else Generate E n (candLimit s).

(** [generateC1PCandidates]. *)
Definition generateC1PCandidates (s : solver) (depth : Z) (nodes : list Node)
    (prevOrder : list Z) (prevNodes : list Node) : option (list (list Z)) :=
  let n := len nodes in
  if n <=? 1 then Some [Seq E n]
  else
    let nodeIdx := buildNodeIndex nodes in
    tree ← Perm.NewPQTree n;
    '(ok, tree) ← applyParentConstraints s tree nodeIdx depth prevOrder prevNodes;
    if negb ok then Some (fallbackPermutations s n)
    else
      '(ok, tree) ← applyChildConstraints s tree nodeIdx depth;
      if negb ok then Some (fallbackPermutations s n)
      else
        let limit := if n <=? 8 then Perm.ValidCount tree else candLimit s in
        perms ← Perm.Enumerate tree limit;
        if len perms =? 0 then Some (fallbackPermutations s n)
        else Some perms.

(** [findParallelRow]. *)
Fixpoint findParallelRowFrom (s : solver) (i : Z) (rs : list Z) : Z :=
  match rs with
  | [] => 0
  | r :: rs' =>
      if len (nodesAt (rowNodes s) r) >? 1 then i
      else findParallelRowFrom s (i + 1) rs'
  end.

Definition findParallelRow (s : solver) : Z := findParallelRowFrom s 0 (rows s).

(** [buildPrefix]: the loop over [depth < parallelRow], at [depth] with
    [count] rounds to go. *)
Fixpoint buildPrefixFrom (s : solver) (count : nat) (depth : Z)
    (prefix : searchPath) (score : Z) : option (searchPath * Z) :=
  match count with
  | O => Some (prefix, score)
  | S count' =>
      match Perm.index (rows s) depth with
      | None => None
      | Some r =>
          let order := Seq E (len (nodesAt (rowNodes s) r)) in
          let prefix := <[Z.to_nat depth := Some order]> prefix in
          if depth >? 0 then
            match Perm.index (edges s) (depth - 1) with
            | None => None
            | Some e =>
                buildPrefixFrom s count' (depth + 1) prefix
                  (addInt score
                     (CountCrossingsIdx E e (rowOf prefix (depth - 1)) order))
            end
          else buildPrefixFrom s count' (depth + 1) prefix score
      end
  end.

Definition buildPrefix (s : solver) (parallelRow : Z) : option (searchPath * Z) :=
  buildPrefixFrom s (Z.to_nat parallelRow) 0 (replicate (length (rows s)) None) 0.

(** [generateStartPermutations], before [sortByBarycenter] reorders the
    result. *)
Definition generateStartPermutations (s : solver) (parallelRow : Z)
    (prefix : searchPath) (workerLimit : Z) : option (list (list Z)) :=
  r ← Perm.index (rows s) parallelRow;
  let parallelNodes := nodesAt (rowNodes s) r in
  let n := len parallelNodes in
  if parallelRow =? 0 then
    if n <=? 8 then Some (Generate E n (-1)) else Some (Generate E n workerLimit)
  else
    prev ← Perm.index (rows s) (parallelRow - 1);
    let prevNodes := nodesAt (rowNodes s) prev in
    starts ← generateC1PCandidates s parallelRow parallelNodes
                (rowOf prefix (parallelRow - 1)) prevNodes;
    Some (if len starts >? workerLimit then take (Z.to_nat workerLimit) starts
          else starts).

(** [dfs]: [dfsReaches s depth score path leafPath leafScore] when the call
    [dfs(depth, score, path, ws)] can reach [updateBest(leafPath,
    leafScore)].  The tests on the context and on [bestScore] read state
    that other tasks and the clock write, so each of them can go either way;
    [sortByBarycenter] only fixes the order in which the candidates are
    tried.  [dfs] writes its row of the task's [path] in place; what an
    earlier candidate left in the rows below is overwritten before the
    next call of [updateBest], so each call is given its path here. *)
Inductive dfsReaches (s : solver) :
    Z → Z → searchPath → searchPath → Z → Prop :=
| dfs_leaf (depth score : Z) (path : searchPath) :
    depth = len (rows s) →
    dfsReaches s depth score path path score
| dfs_empty_row (depth score : Z) (path : searchPath) (rowID : Z)
    (leafPath : searchPath) (leafScore : Z) :
    depth ≠ len (rows s) →
    Perm.index (rows s) depth = Some rowID →
    nodesAt (rowNodes s) rowID = [] →
    dfsReaches s (depth + 1) score (<[Z.to_nat depth := None]> path)
      leafPath leafScore →
    dfsReaches s depth score path leafPath leafScore
| dfs_candidate (depth score : Z) (path : searchPath) (rowID prevID : Z)
    (prevRow : option (list Z)) (e : list (list Z))
    (candidates : list (list Z)) (candidate : list Z)
    (leafPath : searchPath) (leafScore : Z) :
    depth ≠ len (rows s) →
    Perm.index (rows s) depth = Some rowID →
    nodesAt (rowNodes s) rowID ≠ [] →
    Perm.index path (depth - 1) = Some prevRow →
    Perm.index (rows s) (depth - 1) = Some prevID →
    generateC1PCandidates s depth (nodesAt (rowNodes s) rowID)
      (default [] prevRow) (nodesAt (rowNodes s) prevID) = Some candidates →
    candidate ∈ candidates →
    Perm.index (edges s) (depth - 1) = Some e →
    dfsReaches s (depth + 1)
      (addInt score (CountCrossingsIdx E e (default [] prevRow) candidate))
      (<[Z.to_nat depth := Some candidate]> path) leafPath leafScore →
    dfsReaches s depth score path leafPath leafScore.

(** A task of [search]: [searchReaches s leafPath leafScore] when some task
    can reach [updateBest(leafPath, leafScore)]. *)
Inductive searchReaches (s : solver) : searchPath → Z → Prop :=
| search_task (prefix : searchPath) (prefixScore : Z)
    (starts : list (list Z)) (start : list Z) (score : Z)
    (leafPath : searchPath) (leafScore : Z) :
    let parallelRow := findParallelRow s in
    buildPrefix s parallelRow = Some (prefix, prefixScore) →
    generateStartPermutations s parallelRow prefix (GOMAXPROCS E * 100)
      = Some starts →
    start ∈ starts →
    (if parallelRow >? 0 then
       ∃ e, Perm.index (edges s) (parallelRow - 1) = Some e
            ∧ score = addInt prefixScore
                        (CountCrossingsIdx E e (rowOf prefix (parallelRow - 1))
                           start)
     else score = prefixScore) →
    dfsReaches s (parallelRow + 1) score
      (<[Z.to_nat parallelRow := Some start]> prefix) leafPath leafScore →
    searchReaches s leafPath leafScore.

End Optimal.

(** *** The shared best solution *)

(** The atomics of [solver] that decide the result; [pruned] and
    [maxDepth] are only reported. *)
Record shared : Type :=
  mkShared {
    bestScore : Z;
    bestPath : searchPath;
    explored : Z;
    cancelled : bool
  }.

(** Where a call of [updateBest] stands between two atomic operations. *)
Inductive updatePC : Type :=
| atEntry
| atLoad
| loaded (current : Z)
| atStore
| atCancel
| returned.

(** The atomic steps of [updateBest(path, score)] on the shared state. *)
Inductive updateBestStep (path : searchPath) (score : Z) :
    updatePC * shared → updatePC * shared → Prop :=
| ub_explored (sh : shared) :
    updateBestStep path score
      (atEntry, sh)
      (atLoad, mkShared (bestScore sh) (bestPath sh)
                 (wrap (explored sh + 1)) (cancelled sh))
| ub_load (sh : shared) :
    updateBestStep path score (atLoad, sh) (loaded (bestScore sh), sh)
| ub_not_better (current : Z) (sh : shared) :
    score >= current →
    updateBestStep path score (loaded current, sh) (returned, sh)
| ub_cas_won (current : Z) (sh : shared) :
    score < current → bestScore sh = current →
    updateBestStep path score
      (loaded current, sh)
      (atStore, mkShared score (bestPath sh) (explored sh) (cancelled sh))
| ub_cas_lost (current : Z) (sh : shared) :
    score < current → bestScore sh ≠ current →
    updateBestStep path score (loaded current, sh) (atLoad, sh)
| ub_store (sh : shared) :
    updateBestStep path score
      (atStore, sh)
      (if score =? 0 then atCancel else returned,
       mkShared (bestScore sh) path (explored sh) (cancelled sh))
| ub_cancel (sh : shared) :
    updateBestStep path score
      (atCancel, sh)
      (returned, mkShared (bestScore sh) (bestPath sh) (explored sh) true).

(** A call of [updateBest] in flight. *)
Record updateCall : Type :=
  mkCall {
    call_path : searchPath;
    call_score : Z;
    call_pc : updatePC
  }.

(** The solver while [search] runs: the shared state and the calls of
    [updateBest] made so far.  [calls] says which calls the tasks can
    make. *)
Inductive searchStep (calls : searchPath → Z → Prop) :
    shared * list updateCall → shared * list updateCall → Prop :=
| step_call (sh : shared) (cs : list updateCall) (path : searchPath) (score : Z) :
    calls path score →
    searchStep calls (sh, cs) (sh, mkCall path score atEntry :: cs)
| step_update (sh sh' : shared) (before after : list updateCall)
    (path : searchPath) (score : Z) (pc pc' : updatePC) :
    updateBestStep path score (pc, sh) (pc', sh') →
    searchStep calls
      (sh, before ++ mkCall path score pc :: after)
      (sh', before ++ mkCall path score pc' :: after).

(** [search] has returned: every task is over ([wg.Wait()]). *)
Definition allReturned (cs : list updateCall) : Prop :=
  Forall (λ c, call_pc c = returned) cs.

Definition entriesOf (m : orderMap) : gmap Z (list string) :=
  match m with
  | nilOrders => ∅
  | ordersOf m => m
  end.

(** [OptimalSearch.OrderRows]: the maps it can return.  The callbacks
    [Progress] and [Debug] do not touch the result, and the timeout only
    decides how far the search gets. *)
Inductive OrderRowsReturns (E : Collaborators) (g : DAG) : orderMap → Prop :=
| returns_nil :
    len (RowIDs g) = 0 →
    OrderRowsReturns E g nilOrders
| returns_initial (initial : orderMap) :
    len (RowIDs g) ≠ 0 →
    BarycentricOrderRows E 0 g = Some initial →
    CountCrossings E g (entriesOf initial) = 0 →
    OrderRowsReturns E g initial
| returns_best (initial : orderMap) (path0 : searchPath) (final : shared)
    (cs : list updateCall) (result : gmap Z (list string)) :
    len (RowIDs g) ≠ 0 →
    BarycentricOrderRows E 0 g = Some initial →
    CountCrossings E g (entriesOf initial) ≠ 0 →
    toIndexPath g (RowIDs g) (entriesOf initial) = Some path0 →
    rtc (searchStep (searchReaches E (newSolver g)))
      (mkShared (CountCrossings E g (entriesOf initial)) path0 0 false, [])
      (final, cs) →
    allReturned cs →
    toStringOrder (rowNodes (newSolver g)) (rows (newSolver g)) (bestPath final)
      = Some result →
    OrderRowsReturns E g (ordersOf result).

(** *** What the claims speak about *)

(** Modelled from the spec: [dag.NodeIDs], [perm.Seq] and [perm.Generate]
    are not among the sources.  The spec: a single-node row has exactly one
    ordering, the fallback generates unconstrained permutations, and the
    result is a per-row ordering of node identifiers; so the identifiers of
    the nodes in order, the indices [0 .. n-1] in order, and arrangements
    of [0 .. n-1]. *)
Record soundCollaborators (E : Collaborators) : Prop :=
  mkSound {
    NodeIDs_sound : ∀ nodes, NodeIDs E nodes = ID <$> nodes;
    Seq_sound : ∀ n, Seq E n = seqZ 0 n;
    Generate_sound : ∀ n limit p, p ∈ Generate E n limit → p ≡ₚ seqZ 0 n
  }.

(** The nodes of a row have distinct identifiers. *)
Definition uniqueIDs (g : DAG) : Prop :=
  ∀ r, r ∈ RowIDs g → NoDup (ID <$> NodesInRow g r).

(** A row of a search path that orders the nodes of row [r]: nil for a row
    without nodes, else an arrangement of the row-local indices. *)
Definition rowValid (g : DAG) (r : Z) (row : option (list Z)) : Prop :=
  match row with
  | None => NodesInRow g r = []
  | Some indices => indices ≡ₚ seqZ 0 (len (NodesInRow g r))
  end.

(** A search path whose first [depth] rows order the rows of the graph. *)
Definition validUpTo (g : DAG) (depth : nat) (path : searchPath) : Prop :=
  length path = length (RowIDs g)
  ∧ ∀ i r row, (i < depth)%nat → RowIDs g !! i = Some r → path !! i = Some row →
               rowValid g r row.

Definition pathValid (g : DAG) (path : searchPath) : Prop :=
  validUpTo g (length (RowIDs g)) path.

(** The pairs of [order], first before second, that [transpose] would swap
    if they stood side by side. *)
Fixpoint pendingSwaps (swaps : string → string → bool) (order : list string)
  : nat :=
  match order with
  | [] => 0
  | x :: rest => (length (List.filter (swaps x) rest) + pendingSwaps swaps rest)%nat
  end.


(** The pair counts of a path: for every two neighbouring rows, what
    [CountCrossingsIdx] returns on the edge table between them. *)
Fixpoint pairCounts (E : Collaborators) (es : list (list (list Z)))
    (path : searchPath) : list Z :=
  match es, path with
  | e :: es', upper :: path' =>
      match path' with
      | lower :: _ =>
          CountCrossingsIdx E e (default [] upper) (default [] lower)
          :: pairCounts E es' path'
      | [] => []
      end
  | _, _ => []
  end.




(** Orders whose entries arrange the nodes of their rows. *)
Definition entriesValid (g : DAG) (orders : gmap Z (list string)) : Prop :=
  ∀ r ids, orders !! r = Some ids → ids ≡ₚ ID <$> NodesInRow g r.

(** The invariant of the passes of the barycentric orderer. *)
Definition ordersKeep (g : DAG) (rows : list Z) (orders : gmap Z (list string))
  : Prop :=
  entriesValid g orders
  ∧ (∀ r, r ∈ rows → NodesInRow g r ≠ [] → is_Some (orders !! r)).

(** The crossings between the first [d] rows of [leafPath]. *)
Definition scoreBefore (E : Collaborators) (g : DAG) (leafPath : searchPath)
    (d : nat) : Z :=
  foldr Z.add 0 (take (d - 1) (pairCounts E (fastEdges g (RowIDs g)) leafPath)).

(** Orders that arrange, in every row that has an entry, the identifiers of
    the nodes of that row, and that have an entry for every non-empty row
    of the graph. *)
Definition ordersValid (g : DAG) (orders : gmap Z (list string)) : Prop :=
  (∀ r ids, orders !! r = Some ids → ids ≡ₚ ID <$> NodesInRow g r)
  ∧ (∀ r, r ∈ RowIDs g → NodesInRow g r ≠ [] → is_Some (orders !! r)).

(** *** Reference collaborators and graphs *)

(** Position of [x] in [s], counted from [i]. *)
Fixpoint indexFrom {A : Type} `{EqDecision A} (x : A) (s : list A) (i : Z)
  : option Z :=
  match s with
  | [] => None
  | y :: s' => if decide (x = y) then Some i else indexFrom x s' (i + 1)
  end.

(** Number of pairs, one position from [ps] and one from a later group of
    [groups], that are out of order. *)
Fixpoint inversions (groups : list (list Z)) : Z :=
  match groups with
  | [] => 0
  | ps :: rest =>
      len (p ← ps; q ← mjoin rest; if q <? p then [()] else [])
      + inversions rest
  end.

(** Modelled from the spec: [dag.CountCrossingsIdx] is not among the
    sources.  The spec: the counter gets the per-source child-index table
    of rows (r, r+1) and an ordering of each row, and is equivalent to
    counting inversions in the sequence of child positions visited when the
    upper row is scanned left to right; a crossing is a pair of edges whose
    end points are interleaved. *)
Definition specCountCrossingsIdx (e : list (list Z)) (upper lower : list Z) : Z :=
  inversions
    ((λ u, omap (λ v, indexFrom v lower 0) (default [] (Perm.index e u)))
     <$> upper).

(** Modelled from the spec: [dag.CountCrossings] is not among the sources.
    The spec: the whole-graph sum, equal to the sum over adjacent row pairs
    of the pair count. *)
Definition specCountCrossings (g : DAG) (orders : gmap Z (list string)) : Z :=
  let indices r := idsToIndices (orderAt orders r) (buildNodeIndex (NodesInRow g r)) in
  foldr Z.add 0
    ((λ '(e, (upperRow, lowerRow)),
        specCountCrossingsIdx e (indices upperRow) (indices lowerRow))
     <$> zip (fastEdges g (RowIDs g)) (zip (RowIDs g) (drop 1 (RowIDs g)))).

(** Modelled from the spec: [dag.PosMap] is not among the sources; the
    position map of an order. *)
Definition specPosMap (order : list string) : gmap string Z :=
  (foldl (λ '(pos, i) id, (<[id := i]> pos, i + 1)) (∅, 0) order).1.

(** Modelled from the spec: [dag.CountPairCrossingsWithPos] is not among
    the sources.  The spec: how many crossings a specific adjacent pair of
    nodes contributes in the adjacent row. *)
Definition specCountPairCrossingsWithPos (g : DAG) (u v : string)
    (adjPos : gmap string Z) (useParents : bool) : Z :=
  let neighbors id := if useParents then Parents g id else Children g id in
  inversions [omap (λ n, adjPos !! n) (neighbors u);
              omap (λ n, adjPos !! n) (neighbors v)].

(** Modelled from the spec: [medianPosition] is not among the sources.  The
    spec: the median of the positions, for an even count the midpoint of
    the two central values; nodes without fixed neighbours have none. *)
Definition specMedianPosition (pos : list Z) : Z * bool :=
  let sorted := sortStableFunc compareInt pos in
  let n := len sorted in
  if n =? 0 then (0, false)
  else if n `rem` 2 =? 1 then (default 0 (Perm.index sorted (n ÷ 2)), true)
  else ((default 0 (Perm.index sorted (n ÷ 2 - 1))
         + default 0 (Perm.index sorted (n ÷ 2))) ÷ 2, true).

(** Modelled from the spec: [perm.Seq] and [perm.Generate] are not among
    the sources.  The spec: a single-node row has exactly one ordering; the
    fallback generates unconstrained permutations up to the limit, all of
    them when the limit is not positive. *)
Definition specSeq (n : Z) : list Z := seqZ 0 n.

Definition specGenerate (n limit : Z) : list (list Z) :=
  let all := permutations (seqZ 0 n) in
  if limit >? 0 then take (Z.to_nat limit) all else all.

Definition compareQ (a b : Q) : Z :=
  match Qcompare a b with
  | Lt => -1
  | Eq => 0
  | Gt => 1
  end.

(** The collaborators as the spec describes them, with exact rationals for
    [float64] and four processors. *)
Definition specCollaborators : Collaborators :=
  mkCollaborators Q inject_Z Qdiv compareQ
    specCountCrossings specCountCrossingsIdx specCountPairCrossingsWithPos
    specPosMap (fmap ID) specMedianPosition specSeq specGenerate 4.

(** A layered graph given by its rows and its edges. *)
Definition graphOf (layers : list (Z * list string))
    (arcs : list (string * string)) : DAG :=
  let rowNodes r := mjoin (omap (λ '(r', ids), if r' =? r then Some ids else None) layers) in
  let children id := omap (λ '(u, v), if decide (u = id) then Some v else None) arcs in
  let parents id := omap (λ '(u, v), if decide (v = id) then Some u else None) arcs in
  let inRow r id := bool_decide (id ∈ rowNodes r) in
  mkDAG (fst <$> layers)
    (λ r, (λ id, mkDagNode id id) <$> rowNodes r)
    (λ id r, List.filter (inRow r) (children id))
    (λ id r, List.filter (inRow r) (parents id))
    parents children
    (λ id, if bool_decide (id ∈ mjoin (snd <$> layers))
           then Some (mkDagNode id id) else None).

(** The graph without rows; the complete bipartite graph on two rows of two
    nodes, where every ordering has one crossing; three nodes above one. *)
Definition emptyGraph : DAG := graphOf [] [].

Definition k22 : DAG :=
  graphOf [(0, ["a"; "b"]); (1, ["c"; "d"])]
    [("a", "c"); ("a", "d"); ("b", "c"); ("b", "d")]%string.

Definition triangle : DAG :=
  graphOf [(0, ["a"; "b"; "c"]); (1, ["d"])]
    [("a", "d"); ("b", "d"); ("c", "d")]%string.

(** Two rows of three nodes that can be drawn without crossings, with [c]
    above both [d] and [f]. *)
Definition fork : DAG :=
  graphOf [(0, ["a"; "b"; "c"]); (1, ["d"; "e"; "f"])]
    [("a", "d"); ("b", "e"); ("c", "d"); ("c", "f")]%string.

(** *** What the further properties speak about *)

(** A list in ascending order. *)
Fixpoint ascending {A : Type} (le : A → A → Prop) (l : list A) : Prop :=
  match l with
  | [] => True
  | x :: rest => Forall (le x) rest ∧ ascending le rest
  end.


(** What a call of [updateBest] knows of [bestScore]: after its load, that
    [bestScore] is at most the value loaded; once it has passed the test or
    won the compare-and-swap, that [bestScore] is at most its score. *)
Definition callSettled (sh : shared) (c : updateCall) : Prop :=
  match call_pc c with
  | loaded current => bestScore sh <= current
  | atStore | atCancel | returned => bestScore sh <= call_score c
  | atEntry | atLoad => True
  end.

(** The state [updateBest(path, score)] leaves behind when no other call
    runs between its steps. *)
Definition updateBestAlone (path : searchPath) (score : Z) (sh : shared) : shared :=
  if score <? bestScore sh then
    mkShared score path (wrap (explored sh + 1)) (cancelled sh || (score =? 0))
  else
    mkShared (bestScore sh) (bestPath sh) (wrap (explored sh + 1)) (cancelled sh).


(** A graph whose nodes carry the effective identities [eff] gives. *)
Definition withEffectiveIDs (eff : string → string) (g : DAG) : DAG :=
  mkDAG (RowIDs g)
    (λ r, (λ n, mkDagNode (ID n) (eff (ID n))) <$> NodesInRow g r)
    (ChildrenInRow g) (ParentsInRow g) (Parents g) (Children g)
    (λ id, (λ n, mkDagNode (ID n) (eff (ID n))) <$> NodeByID g id).

(** Two nodes above the two halves [u1], [u2] of one subdivided node, with
    the edges crossed. *)
Definition twins : DAG :=
  withEffectiveIDs
    (λ id, if bool_decide (id = "u1" ∨ id = "u2") then "u" else id)%string
    (graphOf [(0, ["p"; "q"]); (1, ["u1"; "u2"])]
       [("p", "u2"); ("q", "u1")]%string).


End Ordering.

(** * Properties of the PQ-tree *)

Section PQTreeFacts.

Import GoInt Perm.

Lemma pqNode_nested_ind (P : pqNode → Prop) :
  (∀ k v cs m f p, Forall P cs → P (mkNode k v cs m f p)) →
  ∀ n, P n.
Proof.
  intros step. fix IH 1. intros [k v cs m f p]. apply step.
  induction cs as [|c cs IHcs]; constructor; [apply IH | apply IHcs].
Qed.

Lemma wrap_small (z : Z) : in_range z → wrap z = z.
Proof.
  unfold in_range, min_int, max_int, wrap. intros Hz.
  rewrite Z.mod_small; lia.
Qed.

Lemma fact_pos (n : nat) : 0 < fact n.
Proof. induction n as [|n IH]; simpl fact; lia. Qed.

Lemma fact_mono (n m : nat) : (n ≤ m)%nat → fact n <= fact m.
Proof.
  induction 1 as [|m _ IH]; [lia|].
  change (fact (S m)) with (Z.of_nat (S m) * fact m).
  pose proof (fact_pos m). nia.
Qed.

Lemma fact_20_in_range (n : nat) : (n ≤ 20)%nat → in_range (fact n).
Proof.
  intros Hn. pose proof (fact_pos n). pose proof (fact_mono n 20 Hn) as Hle.
  assert (fact 20 = 2432902008176640000) as E by (vm_compute; reflexivity).
  unfold in_range, min_int, max_int. lia.
Qed.

(** The product over leaves stays 1. *)
Lemma product_of_leaves (vs : list nat) (acc : Z) :
  fold_left (λ product child, mul product (countPerms child))
    ((λ i : nat, newLeaf (Z.of_nat i)) <$> vs) acc
  = Nat.iter (length vs) (λ a, mul a 1) acc.
Proof.
  revert acc. induction vs as [|v vs IH]; intros acc; [reflexivity|].
  cbn [fmap list_fmap fold_left length]. rewrite IH.
  change (countPerms (newLeaf (Z.of_nat v))) with 1.
  symmetry. exact (Nat.iter_succ_r (length vs) (λ a, mul a 1) acc).
Qed.

Lemma iter_mul_one (k : nat) : Nat.iter k (λ a, mul a 1) 1 = 1.
Proof.
  induction k as [|k IH]; [reflexivity|].
  change (mul (Nat.iter k (λ a, mul a 1) 1) 1 = 1). rewrite IH. reflexivity.
Qed.

(** The count of a fresh tree is [n!] as a Go [int]. *)
Lemma ValidCount_NewPQTree (n : Z) :
  0 <= n →
  ∃ t, NewPQTree n = Some t ∧ ValidCount t = wrap (fact (Z.to_nat n)).
Proof.
  intros Hn. unfold NewPQTree.
  destruct (n =? 0) eqn:E0.
  { apply Z.eqb_eq in E0. subst n. eexists; split; reflexivity. }
  destruct (n =? 1) eqn:E1.
  { apply Z.eqb_eq in E1. subst n. eexists; split; reflexivity. }
  destruct (n <? 0) eqn:E2; [apply Z.ltb_lt in E2; lia|].
  eexists; split; [reflexivity|].
  unfold ValidCount. cbn [root countPerms kind children].
  rewrite product_of_leaves, iter_mul_one.
  unfold Factorial, len. rewrite length_fmap, length_seq, Z2Nat.id by lia.
  unfold mul. rewrite Z.mul_1_r.
  assert (H : ∀ z, wrap (wrap z) = wrap z).
  { intros z. unfold wrap.
    replace ((z + 2 ^ 63) mod 2 ^ 64 - 2 ^ 63 + 2 ^ 63) with ((z + 2 ^ 63) mod 2 ^ 64) by lia.
    rewrite Z.mod_mod by lia. reflexivity. }
  apply H.
Qed.

(** ** C4 *)

(** C4, as stated, fails: 21! does not fit Go's 64-bit [int], and the
    count of the fresh tree over 21 leaves is the wrapped product. *)
Lemma C4_count_overflows_at_21 :
  ∃ t, NewPQTree 21 = Some t
       ∧ ValidCount t = -4249290049419214848
       ∧ ValidCount t ≠ fact 21.
Proof.
  eexists. split; [reflexivity|]. split; vm_compute; [reflexivity | discriminate].
Qed.

(** C4 (amended): for every [n] with [0 <= n <= 20], [NewPQTree n] returns
    a tree whose [ValidCount] is [n!], which is 1 when [n <= 1]. *)
Theorem C4_ValidCount_after_Construct (n : Z) :
  0 <= n <= 20 →
  ∃ t, NewPQTree n = Some t
       ∧ ValidCount t = fact (Z.to_nat n)
       ∧ (n <= 1 → ValidCount t = 1).
Proof.
  intros Hn. destruct (ValidCount_NewPQTree n) as (t & Ht & Hc); [lia|].
  exists t. split; [exact Ht|].
  rewrite wrap_small in Hc by (apply fact_20_in_range; lia).
  split; [exact Hc|]. intros H1. rewrite Hc.
  assert (n = 0 ∨ n = 1) as [-> | ->] by lia; reflexivity.
Qed.

Lemma C4_ValidCount_after_Construct_witness :
  ∃ t, NewPQTree 5 = Some t ∧ ValidCount t = 120 ∧ (5 <= 1 → ValidCount t = 1).
Proof. apply (C4_ValidCount_after_Construct 5). lia. Defined.

(** ** C5 *)

(** C5: a constraint with at most one element, or with as many elements as
    the tree has leaves, makes [Reduce] return true at once; the tree is
    the same afterwards, and so is [ValidCount]. *)
Theorem C5_trivial_Reduce_is_noop (t : PQTree) (S : list Z) :
  len S <= 1 ∨ len S = Z.of_nat (leaves t) →
  ∃ t', Reduce t S = Some (true, t') ∧ t' = t ∧ ValidCount t' = ValidCount t.
Proof.
  intros HS. exists t. split; [|split; reflexivity].
  unfold Reduce. destruct (root t) as [r|]; [|reflexivity].
  destruct HS as [HS | HS].
  - apply Z.leb_le in HS. rewrite HS. reflexivity.
  - apply Z.eqb_eq in HS. rewrite HS, orb_true_r. reflexivity.
Qed.

Lemma C5_trivial_Reduce_is_noop_witness :
  ∃ t', Reduce (mkTree (Some (mkNode pNode 0 [newLeaf 0; newLeaf 1; newLeaf 2]
                                unmarked 0 0)) 3) [2; 0; 1]
        = Some (true, t')
        ∧ t' = mkTree (Some (mkNode pNode 0 [newLeaf 0; newLeaf 1; newLeaf 2]
                               unmarked 0 0)) 3
        ∧ ValidCount t'
          = ValidCount (mkTree (Some (mkNode pNode 0
                                        [newLeaf 0; newLeaf 1; newLeaf 2]
                                        unmarked 0 0)) 3).
Proof.
  apply (C5_trivial_Reduce_is_noop
           (mkTree (Some (mkNode pNode 0 [newLeaf 0; newLeaf 1; newLeaf 2]
                            unmarked 0 0)) 3) [2; 0; 1]).
  right. reflexivity.
Defined.

(** ** C1 and C6: the run that breaks them *)

Lemma reduceAll_reachable (cs : list (list Z)) :
  ∀ t bs t', reachable t → reduceAll t cs = Some (bs, t') → reachable t'.
Proof.
  induction cs as [|c cs IH]; intros t bs t' Ht Hrun; cbn in Hrun.
  - by simplify_eq.
  - destruct (Reduce t c) as [[b t1]|] eqn:E; [|done]. cbn in Hrun.
    destruct (reduceAll t1 cs) as [[bs' t2]|] eqn:E'; [|done]. cbn in Hrun.
    simplify_eq. eapply IH; [|exact E']. eapply reach_reduce; eauto.
Qed.

Lemma reduceAll_reducedTo (cs : list (list Z)) :
  ∀ t done bs t',
    reducedTo t done → reduceAll t cs = Some (bs, t') → Forall (eq true) bs →
    reducedTo t' (rev cs ++ done).
Proof.
  induction cs as [|c cs IH]; intros t done bs t' Ht Hrun Hbs; cbn in Hrun.
  - by simplify_eq.
  - destruct (Reduce t c) as [[b t1]|] eqn:E; [|done]. cbn in Hrun.
    destruct (reduceAll t1 cs) as [[bs' t2]|] eqn:E'; [|done]. cbn in Hrun.
    simplify_eq. apply Forall_cons in Hbs as [<- Hbs].
    cbn [rev]. rewrite <- app_assoc. cbn [app].
    eapply IH; [|exact E'|exact Hbs]. eapply reduced_step; eauto.
Qed.

(** C1 fails on the code: [Reduce] of {0,1,2}, {0,1} and {1,3} on the
    fresh tree over 4 leaves returns true three times, the tree becomes
    the Q-node over [P{0,1}; 2; 3], and [Enumerate] yields 0 1 2 3, in
    which 2 stands between 1 and 3. *)
Theorem C1_Reduce_true_yet_not_contiguous :
  ∃ t, brokenRun = Some ([true; true; true], t)
       ∧ reducedTo t [[1; 3]; [0; 1]; [0; 1; 2]]
       ∧ Enumerate t 0
         = Some [[0; 1; 2; 3]; [1; 0; 2; 3]; [3; 2; 0; 1]; [3; 2; 1; 0]]
       ∧ ¬ contiguous [1; 3] [0; 1; 2; 3].
Proof.
  eexists. split; [vm_compute; reflexivity|].
  split.
  { destruct (NewPQTree 4) as [t0|] eqn:E0; [|discriminate].
    apply (reduceAll_reducedTo [[0; 1; 2]; [0; 1]; [1; 3]] t0 []
             [true; true; true]).
    - by apply (reduced_new 4).
    - vm_compute in E0. injection E0 as <-. vm_compute. reflexivity.
    - repeat constructor. }
  split; [vm_compute; reflexivity|].
  intros Hc. assert (Hin : (2 : Z) ∈ [1; 3]).
  { apply (Hc 1%nat 2%nat 3%nat 1 2 3);
      [lia | reflexivity | reflexivity | reflexivity | |].
    - apply list_elem_of_here.
    - apply list_elem_of_further, list_elem_of_here. }
  apply elem_of_cons in Hin as [Hin | Hin]; [lia|].
  apply elem_of_cons in Hin as [Hin | Hin]; [lia|].
  by apply elem_of_nil in Hin.
Qed.

(** C6 fails on the code: on the tree reached by [Reduce] of {0,1,2} and
    {0,1}, the first [Reduce] of {1,3} returns true and the second one
    returns false. *)
Theorem C6_second_Reduce_returns_false :
  ∃ t t' t'',
    brokenStart = Some ([true; true], t)
    ∧ Reduce t [1; 3] = Some (true, t')
    ∧ Reduce t' [1; 3] = Some (false, t'')
    ∧ reachable t.
Proof.
  eexists _, _, _. split; [vm_compute; reflexivity|].
  split; [vm_compute; reflexivity|].
  split; [vm_compute; reflexivity|].
  destruct (NewPQTree 4) as [t0|] eqn:E0; [|discriminate].
  apply (reduceAll_reachable [[0; 1; 2]; [0; 1]] t0 [true; true]).
  - by apply (reach_new 4).
  - vm_compute in E0. injection E0 as <-. vm_compute. reflexivity.
Qed.

(** ** Invariants of the rewriting *)

Lemma proper_inv (n : pqNode) :
  proper n ↔
  (kind n = leafNode ∧ children n = [] ∧ mark n ≠ partial)
  ∨ (kind n ≠ leafNode ∧ children n ≠ [] ∧ Forall proper (children n)).
Proof.
  split.
  - destruct 1; cbn; auto.
  - destruct n as [k v cs m f p]; cbn. intros [(-> & -> & Hm) | (Hk & Hcs & Hall)].
    + by constructor.
    + by constructor.
Qed.

Lemma proper_inner_children (n : pqNode) :
  proper n → kind n ≠ leafNode → children n ≠ [] ∧ Forall proper (children n).
Proof. intros [(? & _) | (_ & ? & ?)]%proper_inv ?; [done | auto]. Qed.

Lemma proper_set_children (n : pqNode) (cs : list pqNode) :
  kind n ≠ leafNode → cs ≠ [] → Forall proper cs → proper (set_children n cs).
Proof. intros. apply proper_inv. right. cbn. auto. Qed.

Lemma leafValues_inner (n : pqNode) :
  kind n ≠ leafNode → leafValues n = children n ≫= leafValues.
Proof. destruct n as [[] v cs m f p]; cbn; [done | reflexivity..]. Qed.

Lemma nodeKind_eqb_eq (a b : nodeKind) : nodeKind_eqb a b = true ↔ a = b.
Proof. destruct a, b; cbn; split; (done || discriminate). Qed.

Lemma markKind_eqb_eq (a b : markKind) : markKind_eqb a b = true ↔ a = b.
Proof. destruct a, b; cbn; split; (done || discriminate). Qed.

Lemma hasMark_true (m : markKind) (n : pqNode) : hasMark m n = true ↔ mark n = m.
Proof. apply markKind_eqb_eq. Qed.

Lemma pqNode_eqb_eq (a : pqNode) : ∀ b, pqNode_eqb a b = true ↔ a = b.
Proof.
  induction a as [k v cs m f p IH] using pqNode_nested_ind.
  intros [k' v' cs' m' f' p']. cbn [pqNode_eqb kind value children mark fullCount partialCount].
  rewrite !andb_true_iff, nodeKind_eqb_eq, markKind_eqb_eq, !Z.eqb_eq.
  assert (Hcs : ∀ ys,
    (fix all2 (xs ys : list pqNode) {struct xs} : bool :=
       match xs, ys with
       | [], [] => true
       | x :: xs', y :: ys' => pqNode_eqb x y && all2 xs' ys'
       | _, _ => false
       end) cs ys = true ↔ cs = ys).
  { induction IH as [|c cs Hc _ IHcs]; intros [|y ys]; try (split; (done || discriminate)).
    rewrite andb_true_iff, Hc, IHcs. split; [intros [-> ->]; done | intros [= -> ->]; done]. }
  rewrite Hcs. split; [intros [[[[[-> ->] ->] ->] ->] ->]; done | intros [= -> -> -> -> -> ->]; done].
Qed.

Lemma inNodeSet_true (set : list pqNode) (c : pqNode) :
  inNodeSet set c = true ↔ c ∈ set.
Proof.
  unfold inNodeSet. rewrite existsb_exists. split.
  - intros (x & Hx & ->%pqNode_eqb_eq). by apply list_elem_of_In.
  - intros Hc. exists c. split; [by apply list_elem_of_In | by apply pqNode_eqb_eq].
Qed.

Lemma elem_of_List_filter {A : Type} (f : A → bool) (l : list A) (x : A) :
  x ∈ List.filter f l ↔ x ∈ l ∧ f x = true.
Proof. rewrite !list_elem_of_In. apply filter_In. Qed.

Lemma List_filter_partition {A : Type} (f : A → bool) (l : list A) :
  l ≡ₚ List.filter f l ++ List.filter (λ x, negb (f x)) l.
Proof.
  induction l as [|x l IH]; [done|]. cbn. destruct (f x); cbn.
  - by rewrite <- IH.
  - by rewrite <- Permutation_middle, <- IH.
Qed.

(** The result of the splicing loop, by the selector that the node set
    stands for. *)
Lemma spliceOnce_leaves (set : list pqNode) (sel : pqNode → bool)
    (node : pqNode) (cs : list pqNode) (inserted : bool) :
  (∀ c, c ∈ cs → inNodeSet set c = sel c) →
  spliceOnce set node inserted cs ≫= leafValues
  ≡ₚ (if negb inserted && existsb sel cs then leafValues node else [])
     ++ (List.filter (λ c, negb (sel c)) cs ≫= leafValues).
Proof.
  revert inserted. induction cs as [|c cs IH]; intros inserted Hsel.
  - cbn. by rewrite andb_false_r.
  - cbn [spliceOnce existsb List.filter].
    rewrite (Hsel c) by apply list_elem_of_here.
    assert (Hsel' : ∀ c', c' ∈ cs → inNodeSet set c' = sel c')
      by (intros; apply Hsel; by apply list_elem_of_further).
    destruct (sel c) eqn:Ec; cbn [negb orb].
    + destruct inserted; cbn [negb andb].
      * by rewrite IH.
      * rewrite bind_cons, IH by done. done.
    + rewrite !bind_cons, IH by done.
      destruct (negb inserted && existsb sel cs); cbn [app].
      * rewrite !app_assoc. apply Permutation_app_tail, Permutation_app_comm.
      * done.
Qed.

Lemma spliceOnce_Forall (P : pqNode → Prop) (set : list pqNode)
    (node : pqNode) (cs : list pqNode) (inserted : bool) :
  P node → Forall P cs → Forall P (spliceOnce set node inserted cs).
Proof.
  intros Hn Hcs. revert inserted.
  induction Hcs as [|c cs Hc _ IH]; intros inserted; cbn; [constructor|].
  destruct (inNodeSet set c); [destruct inserted|]; auto.
Qed.

Lemma spliceOnce_nonempty (set : list pqNode) (node : pqNode) (cs : list pqNode) :
  cs ≠ [] → spliceOnce set node false cs ≠ [].
Proof. destruct cs as [|c cs]; [done|]. cbn. by destruct (inNodeSet set c). Qed.

Lemma inNodeSet_filter (m : markKind) (cs : list pqNode) (c : pqNode) :
  c ∈ cs → inNodeSet (List.filter (hasMark m) cs) c = hasMark m c.
Proof.
  intros Hc. apply eq_true_iff_eq.
  rewrite inNodeSet_true, elem_of_List_filter. split; [by intros [_ ?] | by split].
Qed.

Lemma bind_single {A B : Type} (f : A → list B) (x : A) : [x] ≫= f = f x.
Proof. cbn. apply app_nil_r. Qed.

Lemma Forall_List_filter {A : Type} (P : A → Prop) (f : A → bool) (l : list A) :
  Forall P l → Forall P (List.filter f l).
Proof.
  rewrite !Forall_forall. intros H x [Hx _]%elem_of_List_filter. auto.
Qed.

Lemma existsb_true_elem {A : Type} (f : A → bool) (l : list A) (x : A) :
  x ∈ l → f x = true → existsb f l = true.
Proof. intros Hx%list_elem_of_In Hf. apply existsb_exists. eauto. Qed.

Lemma keeps_refl (n : pqNode) : proper n → keeps n n.
Proof. by split. Qed.

Lemma keeps_trans (a b c : pqNode) : keeps a b → keeps b c → keeps a c.
Proof. intros [_ Hab] [Hc Hbc]. split; [done | by rewrite Hbc]. Qed.

Lemma groupChildren_keeps (parent : pqNode) (k : nodeKind) :
  proper parent → kind parent ≠ leafNode → k ≠ leafNode →
  keeps parent
    (groupChildren parent (List.filter (hasMark full) (children parent)) k).
Proof.
  intros Hp Hk Hk'. destruct (proper_inner_children _ Hp Hk) as [Hne Hall].
  unfold groupChildren.
  destruct (List.filter (hasMark full) (children parent)) as [|g0 [|g1 group]] eqn:Eg;
    [by apply keeps_refl..|].
  rewrite <- Eg. set (grp := List.filter (hasMark full) (children parent)).
  set (node := mkNode k 0 grp (mark g0) 0 0).
  assert (Hg0 : g0 ∈ grp) by (unfold grp; rewrite Eg; apply list_elem_of_here).
  assert (Hnode : proper node).
  { apply proper_inv. right. cbn. split; [done|]. split.
    - unfold grp. by rewrite Eg.
    - by apply Forall_List_filter. }
  split.
  - apply proper_set_children; [done|by apply spliceOnce_nonempty|].
    by apply spliceOnce_Forall.
  - rewrite (leafValues_inner parent) by done.
    rewrite (leafValues_inner (set_children _ _)) by done. cbn [children set_children].
    rewrite (spliceOnce_leaves grp (hasMark full))
      by (intros; by apply inNodeSet_filter).
    apply elem_of_List_filter in Hg0 as [Hg0 Hfull].
    rewrite (existsb_true_elem _ _ g0) by done. cbn [negb andb].
    rewrite (leafValues_inner node) by done. cbn [children node].
    rewrite <- bind_app. apply bind_Permutation. symmetry.
    apply List_filter_partition.
Qed.

Lemma List_filter_disjoint_or {A : Type} (f g : A → bool) (l : list A) :
  (∀ x, f x = true → g x = true → False) →
  List.filter (λ x, f x || g x) l ≡ₚ List.filter f l ++ List.filter g l.
Proof.
  intros Hfg. induction l as [|x l IH]; [done|]. cbn.
  destruct (f x) eqn:Ef, (g x) eqn:Eg; cbn.
  - by destruct (Hfg x).
  - by rewrite IH.
  - by rewrite <- Permutation_middle, IH.
  - done.
Qed.

Lemma extendPartialChild_keeps (isRoot : bool) (parent p0 : pqNode) :
  proper parent → kind parent ≠ leafNode →
  List.filter (hasMark partial) (children parent) = [p0] →
  keeps parent
    (extendPartialChild isRoot parent p0
       (List.filter (hasMark full) (children parent))).2.
Proof.
  intros Hp Hk Hp0. destruct (proper_inner_children _ Hp Hk) as [Hne Hall].
  unfold extendPartialChild.
  set (fullSiblings := List.filter (hasMark full) (children parent)).
  destruct (len fullSiblings =? 0) eqn:Elen; [by apply keeps_refl|].
  assert (Hfs : fullSiblings ≠ []).
  { intros E. rewrite E in Elen. done. }
  assert (Hin0 : p0 ∈ children parent ∧ hasMark partial p0 = true).
  { apply elem_of_List_filter. rewrite Hp0. apply list_elem_of_here. }
  destruct Hin0 as [Hin0 Hm0].
  assert (Hp0p : proper p0) by (rewrite Forall_forall in Hall; auto).
  assert (Hk0 : kind p0 ≠ leafNode).
  { apply hasMark_true in Hm0.
    apply proper_inv in Hp0p as [(_ & _ & ?) | (? & _)]; done. }
  destruct (proper_inner_children _ Hp0p Hk0) as [_ Hall0].
  set (cs := List.filter (λ c, negb (hasMark full c)) (children p0)
             ++ List.filter (hasMark full) (children p0) ++ fullSiblings).
  set (qnode := mkNode qNode 0 cs partial 0 0).
  set (sel := λ c, hasMark partial c || hasMark full c).
  assert (Hq : proper qnode).
  { apply proper_inv. right. cbn. split; [done|]. split.
    - unfold cs. intros E. apply app_eq_nil in E as [_ E].
      apply app_eq_nil in E as [_ E]. done.
    - unfold cs. rewrite !Forall_app. split_and!; by apply Forall_List_filter. }
  assert (Hsel : ∀ c, c ∈ children parent →
            inNodeSet (p0 :: fullSiblings) c = sel c).
  { intros c Hc. apply eq_true_iff_eq. unfold sel.
    rewrite inNodeSet_true, elem_of_cons, orb_true_iff.
    unfold fullSiblings. rewrite elem_of_List_filter. split.
    - intros [-> | [_ ?]]; auto.
    - intros [Hpc | Hfc]; [left | right; done].
      assert (c ∈ [p0]) as Hc0 by (rewrite <- Hp0; by apply elem_of_List_filter).
      by apply list_elem_of_singleton in Hc0. }
  set (parent' := set_children parent
                    (spliceOnce (p0 :: fullSiblings) qnode false (children parent))).
  assert (Hkeep : keeps parent parent').
  { split.
    - apply proper_set_children; [done|by apply spliceOnce_nonempty|].
      by apply spliceOnce_Forall.
    - rewrite (leafValues_inner parent) by done.
      rewrite (leafValues_inner parent') by done. cbn [children parent' set_children].
      rewrite (spliceOnce_leaves _ sel) by done.
      rewrite (existsb_true_elem sel _ p0) by (done || (unfold sel; by rewrite Hm0)).
      cbn [negb andb].
      rewrite (List_filter_partition sel (children parent)) at 2.
      rewrite bind_app. apply Permutation_app_tail.
      unfold sel at 1. rewrite List_filter_disjoint_or.
      2:{ intros x H1%hasMark_true H2%hasMark_true. congruence. }
      rewrite Hp0. change (leafValues qnode) with (cs ≫= leafValues).
      unfold cs. rewrite !bind_app, bind_single, app_assoc.
      apply Permutation_app_tail.
      rewrite (leafValues_inner p0) by done.
      rewrite (List_filter_partition (hasMark full) (children p0)) at 3.
      rewrite bind_app. apply Permutation_app_comm. }
  destruct (children parent') as [|c [|c' rest]] eqn:Ech; [done | | done].
  destruct isRoot; [|done].
  destruct Hkeep as [Hpp Hlv]. cbn [snd].
  destruct (proper_inner_children _ Hpp Hk) as [_ Hall'].
  rewrite Ech in Hall'. apply Forall_cons in Hall' as [Hc _].
  split; [done|]. rewrite <- Hlv, (leafValues_inner parent') by done.
  by rewrite Ech, bind_single.
Qed.

Lemma index_Some {A : Type} (s : list A) (i : Z) :
  0 <= i < len s → ∃ x, index s i = Some x ∧ s !! Z.to_nat i = Some x.
Proof.
  unfold index, len. intros Hi.
  destruct (i <? 0) eqn:E; [apply Z.ltb_lt in E; lia|].
  destruct (lookup_lt_is_Some_2 s (Z.to_nat i)) as [x Hx]; [lia|]. eauto.
Qed.

Lemma mergeQNodes_keeps (parent : pqNode) (idx : Z) :
  proper parent → kind parent ≠ leafNode → 0 <= idx < len (children parent) →
  ∃ n', mergeQNodes parent idx = Some n' ∧ keeps parent n'
        ∧ kind n' = kind parent
        ∧ len (children parent) <= len (children n').
Proof.
  intros Hp Hk Hidx. destruct (proper_inner_children _ Hp Hk) as [Hne Hall].
  destruct (index_Some _ _ Hidx) as (child & Hi & Hl).
  unfold mergeQNodes. rewrite Hi.
  destruct (negb (nodeKind_eqb (kind child) qNode)) eqn:Ek.
  { exists parent. split_and!; [done|by apply keeps_refl|done|lia]. }
  apply negb_false_iff, nodeKind_eqb_eq in Ek.
  match goal with |- context [set_children parent (_ ++ ?g ++ _)] => set (grand := g) end.
  assert (Hchild : proper child).
  { rewrite Forall_forall in Hall. apply Hall. by eapply list_elem_of_lookup_2. }
  destruct (proper_inner_children _ Hchild) as [Hcne Hcall]; [congruence|].
  assert (Hgp : grand ≡ₚ children child).
  { unfold grand. match goal with |- context [if ?b then _ else _] => destruct b end;
      [|done]. rewrite <- (Permutation_rev (children child)). done. }
  assert (Hgne : grand ≠ []).
  { intros E. rewrite E in Hgp. by apply Permutation_nil_l in Hgp. }
  assert (Hsplit : children parent
                   = take (Z.to_nat idx) (children parent) ++ child
                     :: drop (Z.to_nat (idx + 1)) (children parent)).
  { replace (Z.to_nat (idx + 1)) with (S (Z.to_nat idx)) by lia.
    symmetry. by apply take_drop_middle. }
  eexists. split; [reflexivity|]. split_and!.
  - split.
    + apply proper_set_children; [done| |].
      * intros E. apply app_eq_nil in E as [_ E]. by apply app_eq_nil in E as [E _].
      * rewrite !Forall_app. split_and!;
          [by apply Forall_take | | by apply Forall_drop].
        by rewrite Hgp.
    + rewrite (leafValues_inner (set_children _ _)) by done.
      rewrite (leafValues_inner parent) by done. cbn [children set_children].
      rewrite Hsplit at 3. rewrite !bind_app, bind_cons.
      apply Permutation_app_head, Permutation_app_tail.
      rewrite (leafValues_inner child) by congruence. by rewrite Hgp.
  - done.
  - cbn [children set_children]. rewrite Hsplit at 1. unfold len.
    rewrite !length_app. cbn [length]. destruct grand; [done|]. cbn [length]. lia.
Qed.

Lemma mergeLoop_keeps (partialIdx : list Z) :
  ∀ n, proper n → kind n ≠ leafNode →
       Forall (λ idx, 0 <= idx < len (children n)) partialIdx →
       ∃ n', mergeLoop n partialIdx = Some n' ∧ keeps n n'.
Proof.
  induction partialIdx as [|idx rest IH]; intros n Hp Hk Hin.
  - exists n. split; [done | by apply keeps_refl].
  - apply Forall_cons in Hin as [Hidx Hrest].
    destruct (index_Some _ _ Hidx) as (c & Hi & _).
    cbn [mergeLoop]. rewrite Hi.
    destruct (nodeKind_eqb (kind c) qNode); [|by apply IH].
    destruct (mergeQNodes_keeps n idx Hp Hk Hidx) as (n1 & -> & Hkeep & Hkind & Hlen).
    destruct (IH n1) as (n2 & -> & Hkeep2).
    + apply Hkeep.
    + congruence.
    + eapply Forall_impl; [exact Hrest|]. cbn. intros; lia.
    + exists n2. split; [done|]. by eapply keeps_trans.
Qed.

Lemma scanQ_scanned (cs : list pqNode) :
  ∀ i st, 0 <= i → scanned i st → scanned (i + len cs) (scanQ i cs st).
Proof.
  induction cs as [|c cs IH]; intros i [[first last] partialIdx] Hi [Hfl Hp].
  - cbn [scanQ]. unfold len; cbn [length]. rewrite Z.add_0_r. by split.
  - cbn [scanQ]. replace (i + len (c :: cs)) with ((i + 1) + len cs)
      by (unfold len; cbn [length]; lia).
    apply IH; [lia|].
    assert (Hp' : Forall (λ idx, 0 <= idx < i + 1) partialIdx).
    { eapply Forall_impl; [exact Hp|]. cbn. intros; lia. }
    destruct (mark c); cbn.
    + split; [lia | done].
    + split; [lia | done].
    + split; [|done]. destruct (first <? 0) eqn:E; [|apply Z.ltb_ge in E]; lia.
    + split; [lia|]. rewrite Forall_app. split; [done|].
      constructor; [lia | constructor].
Qed.

Lemma noEmptyInRun_Some (cs : list pqNode) (steps : nat) :
  ∀ i, 0 <= i → i + Z.of_nat steps <= len cs →
       is_Some (noEmptyInRun cs i steps).
Proof.
  induction steps as [|steps IH]; intros i Hi Hlen; [by eexists|].
  cbn [noEmptyInRun].
  destruct (index_Some cs i) as (c & -> & _); [lia|].
  destruct (hasMark empty c); [by eexists|]. apply IH; lia.
Qed.

Section RewritingFacts.

Variable red : pqNode → option (bool * pqNode).

Lemma reduceEach_keeps (cs : list pqNode) :
  Forall (λ c, proper c → reduceKeeps c (red c)) cs →
  Forall proper cs →
  ∃ ok cs', reduceEach red cs = Some (ok, cs')
            ∧ Forall proper cs'
            ∧ cs' ≫= leafValues ≡ₚ cs ≫= leafValues
            ∧ length cs' = length cs.
Proof.
  induction 1 as [|c cs Hc _ IH]; intros Hall.
  - exists true, []. by split_and!.
  - apply Forall_cons in Hall as [Hpc Hall].
    destruct (IH Hall) as (ok & cs' & E & Hp' & Hl' & Hlen'). cbn [reduceEach].
    destruct (hasMark partial c).
    + destruct (Hc Hpc) as (okc & c' & -> & Hpc' & Hlc').
      destruct okc.
      * rewrite E. exists ok, (c' :: cs'). split_and!; [done|by constructor| |by cbn; f_equal].
        by rewrite !bind_cons, Hlc', Hl'.
      * exists false, (c' :: cs). split_and!; [done|by constructor| |done].
        by rewrite !bind_cons, Hlc'.
    + rewrite E. exists ok, (c :: cs'). split_and!; [done|by constructor| |by cbn; f_equal].
      by rewrite !bind_cons, Hl'.
Qed.

Lemma reducePartialChildren_keeps (n : pqNode) :
  Forall (λ c, proper c → reduceKeeps c (red c)) (children n) →
  proper n → kind n ≠ leafNode →
  ∃ ok n', reducePartialChildren red n = Some (ok, n')
           ∧ keeps n n' ∧ kind n' = kind n.
Proof.
  intros Hred Hp Hk. destruct (proper_inner_children _ Hp Hk) as [Hne Hall].
  destruct (reduceEach_keeps _ Hred Hall) as (ok & cs' & E & Hp' & Hl' & Hlen').
  assert (Hne' : cs' ≠ []).
  { intros ->. destruct (children n); done. }
  unfold reducePartialChildren. rewrite E.
  destruct ok; eexists _, _; (split; [reflexivity|]); (split; [|done]); split.
  - apply proper_inv. right. cbn. auto.
  - rewrite (leafValues_inner n) by done. rewrite leafValues_inner by done. done.
  - by apply proper_set_children.
  - rewrite (leafValues_inner n) by done. rewrite leafValues_inner by done. done.
Qed.

Lemma List_filter_single_len {A : Type} (l : list A) :
  (len l >? 1) = false → (len l =? 0) = false → ∃ x, l = [x].
Proof.
  unfold len. destruct l as [|x [|y l]]; cbn [length]; intros H1 H0.
  - done.
  - by exists x.
  - rewrite Z.gtb_ltb in H1. apply Z.ltb_ge in H1. lia.
Qed.

Lemma reducePNode_keeps (isRoot : bool) (n : pqNode) :
  Forall (λ c, proper c → reduceKeeps c (red c)) (children n) →
  proper n → kind n ≠ leafNode →
  reduceKeeps n (reducePNode red isRoot n).
Proof.
  intros Hred Hp Hk.
  destruct (reducePartialChildren_keeps n Hred Hp Hk) as (ok & n1 & E & Hkeep & Hk1).
  unfold reducePNode. rewrite E.
  destruct ok; [|by eexists _, _].
  assert (Hp1 : proper n1) by apply Hkeep.
  assert (Hkn1 : kind n1 ≠ leafNode) by congruence.
  destruct (len (List.filter (hasMark partial) (children n1)) >? 1) eqn:E1;
    [by eexists _, _|].
  destruct (len (List.filter (hasMark full) (children n1)) =? 0) eqn:E2;
    [by eexists _, _|].
  destruct (len (List.filter (hasMark partial) (children n1)) =? 0) eqn:E3.
  - destruct (_ && _); [|by eexists _, _].
    eexists _, _. split; [reflexivity|].
    eapply keeps_trans; [exact Hkeep|]. by apply groupChildren_keeps.
  - destruct (List_filter_single_len _ E1 E3) as [p0 Hp0]. rewrite Hp0.
    pose proof (extendPartialChild_keeps isRoot n1 p0 Hp1 Hkn1 Hp0) as Hext.
    destruct (extendPartialChild _ _ _ _) as [ok' n2]. cbn [snd] in Hext.
    eexists _, _. split; [reflexivity|]. by eapply keeps_trans.
Qed.

Lemma reduceQNode_keeps (n : pqNode) :
  Forall (λ c, proper c → reduceKeeps c (red c)) (children n) →
  proper n → kind n ≠ leafNode →
  reduceKeeps n (reduceQNode red n).
Proof.
  intros Hred Hp Hk.
  destruct (reducePartialChildren_keeps n Hred Hp Hk) as (ok & n1 & E & Hkeep & Hk1).
  unfold reduceQNode. rewrite E.
  destruct ok; [|by eexists _, _].
  assert (Hp1 : proper n1) by apply Hkeep.
  assert (Hkn1 : kind n1 ≠ leafNode) by congruence.
  pose proof (scanQ_scanned (children n1) 0 (-1, -1, [])) as Hscan.
  destruct (scanQ 0 (children n1) (-1, -1, [])) as [[first last] partialIdx].
  destruct Hscan as [Hfl Hidx]; [lia | split; [lia | constructor] |].
  rewrite Z.add_0_l in Hfl, Hidx.
  destruct (first <? 0) eqn:Ef; [by eexists _, _|]. apply Z.ltb_ge in Ef.
  destruct (noEmptyInRun_Some (children n1) (Z.to_nat (last - first + 1)) first)
    as [b Hb]; [lia | lia |]. rewrite Hb.
  destruct b; [|by eexists _, _].
  destruct (forallb _ partialIdx); [|by eexists _, _].
  destruct (mergeLoop_keeps partialIdx n1 Hp1 Hkn1 Hidx) as (n2 & -> & Hkeep2).
  eexists _, _. split; [reflexivity|]. by eapply keeps_trans.
Qed.

End RewritingFacts.

Lemma reduce_eq (isRoot : bool) (n : pqNode) :
  reduce isRoot n =
  if hasMark full n || hasMark empty n then Some (true, n)
  else
    match kind n with
    | leafNode => Some (true, n)
    | pNode => reducePNode (reduce false) isRoot n
    | qNode => reduceQNode (reduce false) n
    end.
Proof. by destruct n. Qed.

(** [reduce] never panics on a proper node; the node it leaves is proper
    and has the same leaves. *)
Lemma reduce_keeps (n : pqNode) :
  ∀ isRoot, proper n → reduceKeeps n (reduce isRoot n).
Proof.
  induction n as [k v cs m f p IH] using pqNode_nested_ind.
  intros isRoot Hp. rewrite reduce_eq.
  destruct (_ || _); [eexists _, _; split; [reflexivity | by apply keeps_refl]|].
  cbn [kind]. destruct k.
  - eexists _, _; split; [reflexivity | by apply keeps_refl].
  - apply reducePNode_keeps; [|done|done]. cbn [children].
    eapply Forall_impl; [exact IH|]. cbn. auto.
  - apply reduceQNode_keeps; [|done|done]. cbn [children].
    eapply Forall_impl; [exact IH|]. cbn. auto.
Qed.

(** ** The marking phase *)


Lemma bind_fmap_leafValues (f : pqNode → pqNode) (cs : list pqNode) :
  Forall (λ c, leafValues (f c) = leafValues c) cs →
  (f <$> cs) ≫= leafValues = cs ≫= leafValues.
Proof. induction 1 as [|c cs Hc _ IH]; [done|]. cbn. by rewrite Hc, IH. Qed.

Lemma marksOnly_keeps (f : pqNode → pqNode) (n : pqNode) :
  marksOnly f → proper n → proper (f n) ∧ leafValues (f n) = leafValues n.
Proof.
  intros Hf. induction n as [k v cs m c p IH] using pqNode_nested_ind.
  intros Hp. destruct (Hf (mkNode k v cs m c p)) as (Hk & Hv & Hin & Hlf).
  cbn [kind value children mark] in *.
  apply proper_inv in Hp as [(Ek & Ec & Em) | (Ek & Ec & Hall)];
    cbn [kind children mark] in *.
  - destruct (Hlf Ek Ec) as [Hch Hm]. split.
    + apply proper_inv. left. rewrite Hk, Hch. auto.
    + destruct (f _) as [k' v' cs' m' c' p']. cbn in *. by subst.
  - rewrite Forall_forall in IH, Hall.
    split.
    + apply proper_inv. right. rewrite Hk, (Hin Ek). split_and!; [done| |].
      * destruct cs; done.
      * apply Forall_fmap, Forall_forall. intros x Hx. by apply IH; auto.
    + rewrite (leafValues_inner (f _)) by congruence. rewrite (Hin Ek).
      rewrite leafValues_inner by done. cbn [children].
      apply bind_fmap_leafValues, Forall_forall. intros x Hx. by apply IH; auto.
Qed.

Lemma clearMarks_marksOnly : marksOnly clearMarks.
Proof. intros [k v cs m c p]. cbn. split_and!; try done. by intros -> ->. Qed.

Lemma markLeaf_marksOnly (elem : Z) : marksOnly (markLeaf elem).
Proof.
  intros [k v cs m c p]. destruct k; cbn; split_and!; try done.
  all: destruct (v =? elem); cbn; try done.
  all: by intros _ ->.
Qed.

Lemma bubbleUp_marksOnly : marksOnly bubbleUp.
Proof.
  intros [k v cs m c p]. destruct k; cbn; split_and!; try done.
  all: destruct m; cbn; try done.
  all: by intros _ ->.
Qed.

Lemma markConstraint_keeps (nleaves : nat) (constraint : list Z) :
  ∀ r, proper r →
       ∃ r', markConstraint nleaves constraint r = Some r'
             ∧ proper r' ∧ leafValues r' = leafValues r.
Proof.
  induction constraint as [|elem rest IH]; intros r Hr; cbn [markConstraint].
  - by exists r.
  - unfold writeLeafMark. rewrite Z.geb_leb.
    destruct ((0 <=? elem) && (elem <? Z.of_nat nleaves)); [|by apply IH].
    destruct (marksOnly_keeps _ r (markLeaf_marksOnly elem) Hr) as [Hp Hl].
    destruct (IH _ Hp) as (r' & -> & Hp' & Hl'). exists r'. split_and!; congruence.
Qed.

(** [Reduce] never panics on a well-formed tree and leaves a well-formed
    tree. *)
Lemma Reduce_wfTree (t : PQTree) (constraint : list Z) :
  wfTree t →
  ∃ ok t', Reduce t constraint = Some (ok, t') ∧ wfTree t' ∧ leaves t' = leaves t.
Proof.
  intros Hwf. unfold Reduce. unfold wfTree in Hwf.
  destruct (root t) as [r|] eqn:Er; [|exists true, t; unfold wfTree; by rewrite Er].
  destruct Hwf as [Hp Hl].
  destruct (_ || _); [exists true, t; unfold wfTree; by rewrite Er|].
  destruct (marksOnly_keeps _ r clearMarks_marksOnly Hp) as [Hp0 Hl0].
  destruct (markConstraint_keeps (leaves t) constraint _ Hp0) as (r1 & -> & Hp1 & Hl1).
  destruct (marksOnly_keeps _ r1 bubbleUp_marksOnly Hp1) as [Hp2 Hl2].
  destruct (hasMark empty (bubbleUp r1)).
  - eexists _, _. split; [reflexivity|]. split; [|done]. unfold wfTree. cbn.
    split; [done|]. by rewrite Hl2, Hl1, Hl0.
  - destruct (reduce_keeps (bubbleUp r1) true Hp2) as (ok & r3 & -> & Hp3 & Hl3).
    eexists _, _. split; [reflexivity|]. split; [|done]. unfold wfTree. cbn.
    split; [done|]. by rewrite Hl3, Hl2, Hl1, Hl0.
Qed.

Lemma NewPQTree_wfTree (n : Z) (t : PQTree) :
  NewPQTree n = Some t → wfTree t ∧ Z.of_nat (leaves t) = n.
Proof.
  unfold NewPQTree.
  destruct (n =? 0) eqn:E0; [apply Z.eqb_eq in E0; intros [= <-]; by subst|].
  destruct (n =? 1) eqn:E1.
  { apply Z.eqb_eq in E1; intros [= <-]. subst. split; [|done].
    split; [by constructor | done]. }
  destruct (n <? 0) eqn:E2; [done|]. apply Z.ltb_ge in E2. apply Z.eqb_neq in E0.
  intros [= <-]. cbn [leaves]. rewrite length_fmap, length_seq. split; [|lia].
  unfold wfTree. cbn [root leaves]. split.
  - constructor; [done| |].
    + destruct (Z.to_nat n) eqn:E; [lia | done].
    + apply Forall_fmap, Forall_forall. intros i _. by constructor.
  - cbn. generalize (seq 0 (Z.to_nat n)). intros l.
    induction l as [|i l IH]; [done|]. cbn. by rewrite IH.
Qed.

Lemma reachable_wfTree (t : PQTree) : reachable t → wfTree t.
Proof.
  induction 1 as [n t Hn | t t' c ok _ IH Hred].
  - by apply NewPQTree_wfTree in Hn as [? _].
  - destruct (Reduce_wfTree t c IH) as (ok' & t'' & E & Hwf & _). congruence.
Qed.

(** ** Enumeration *)

Lemma weight_app (l1 l2 : list Z) :
  ∀ j, weight j (l1 ++ l2) = weight j l1 + weight (j + length l1) l2.
Proof.
  induction l1 as [|d l1 IH]; intros j; cbn [weight app length].
  - by rewrite Nat.add_0_r.
  - rewrite IH. replace (S j + length l1)%nat with (j + S (length l1))%nat by lia. lia.
Qed.

Lemma weight_zeros (k : nat) : ∀ j, weight j (replicate k 0) = 0.
Proof. induction k as [|k IH]; intros j; cbn; [done|]. by rewrite IH. Qed.

Lemma fact_succ (n : nat) : fact (S n) = (Z.of_nat n + 1) * fact n.
Proof. cbn [fact]. lia. Qed.

(** Digits bounded by their position weigh less than the next factorial. *)
Lemma weight_bound (digits : list Z) :
  ∀ j, (∀ k d, digits !! k = Some d → 0 <= d <= Z.of_nat (j + k)) →
       0 <= weight j digits <= fact (j + length digits) - fact j.
Proof.
  induction digits as [|d rest IH]; intros j Hd; cbn [weight length].
  - rewrite Nat.add_0_r. lia.
  - destruct (IH (S j)) as [IH0 IH1].
    { intros k d' Hk. specialize (Hd (S k) d' Hk). lia. }
    specialize (Hd 0%nat d eq_refl). rewrite Nat.add_0_r in Hd.
    replace (j + S (length rest))%nat with (S j + length rest)%nat by lia.
    pose proof (fact_pos j). rewrite fact_succ in IH1. nia.
Qed.

Lemma factNat_fact (n : nat) : Z.of_nat (factNat n) = fact n.
Proof.
  induction n as [|n IH]; [done|].
  change (factNat (S n)) with (S n * factNat n)%nat.
  rewrite Nat2Z.inj_mul, IH, fact_succ. lia.
Qed.

Lemma index_nat {A : Type} (s : list A) (i : nat) :
  index s (Z.of_nat i) = s !! i.
Proof.
  unfold index. destruct (Z.of_nat i <? 0) eqn:E; [apply Z.ltb_lt in E; lia|].
  by rewrite Nat2Z.id.
Qed.

Lemma swap_Permutation {A : Type} (s : list A) (a b : nat) :
  (a < length s)%nat → (b < length s)%nat →
  ∃ s', swap s (Z.of_nat a) (Z.of_nat b) = Some s' ∧ s' ≡ₚ s.
Proof.
  intros Ha Hb. unfold swap. rewrite !index_nat, !Nat2Z.id.
  destruct (lookup_lt_is_Some_2 s a Ha) as [x Hx].
  destruct (lookup_lt_is_Some_2 s b Hb) as [y Hy].
  rewrite Hx, Hy. eexists. split; [done|]. by apply Permutation_insert_swap.
Qed.

Section EnumerationFacts.

Context {St : Type} (I : St → Prop).

(** The loop over the permutations of a P-node ends within its fuel, and
    hands only permutations of the children to the callback. *)
Lemma heapLoop_runs (fn : callback (list pqNode)) (cs : list pqNode) :
  runsOn I (λ p, p ≡ₚ cs) fn →
  ∀ (fuel i : nat) (rest : list Z) (perm : list pqNode) (st : St),
    perm ≡ₚ cs → (i ≤ length cs)%nat → length rest = (length cs - i)%nat →
    (∀ k d, rest !! k = Some d → 0 <= d <= Z.of_nat (i + k)) →
    (fact (length cs) - 1 - (fact i - 1 + weight i rest))
      * (Z.of_nat (length cs) + 1) + Z.of_nat (length cs - i) + 1
    <= Z.of_nat fuel →
    I st →
    ∃ b st',
      heapLoop fuel fn (Z.of_nat (length cs)) perm (replicate i 0 ++ rest)
        (Z.of_nat i) st = Some (b, st') ∧ I st'.
Proof.
  intros Hfn. set (n := length cs).
  induction fuel as [|fuel IH]; intros i rest perm st Hperm Hi Hlen Hdig Hfuel Hst.
  { exfalso. destruct (weight_bound rest i Hdig) as [_ Hw].
    rewrite Hlen in Hw. replace (i + (n - i))%nat with n in Hw by lia.
    fold n in Hfuel. nia. }
  cbn [heapLoop].
  destruct (Z.of_nat i <? Z.of_nat n) eqn:Ei;
    [apply Z.ltb_lt in Ei | by exists true, st].
  destruct rest as [|si rest']; [cbn in Hlen; lia|].
  rewrite index_nat, lookup_app_r, length_replicate, Nat.sub_diag by
    (rewrite length_replicate; lia). cbn [lookup list_lookup].
  assert (Hsi : 0 <= si <= Z.of_nat i).
  { specialize (Hdig 0%nat si eq_refl). by rewrite Nat.add_0_r in Hdig. }
  assert (Hpl : length perm = n) by (by rewrite Hperm).
  assert (Hins : ∀ x, <[Z.to_nat (Z.of_nat i) := x]> (replicate i 0 ++ si :: rest')
                      = replicate i 0 ++ x :: rest').
  { intros x. rewrite Nat2Z.id, insert_app_r_alt, length_replicate, Nat.sub_diag
      by (rewrite length_replicate; lia). done. }
  cbn [length] in Hlen. cbn [weight] in Hfuel.
  destruct (si <? Z.of_nat i) eqn:Esi;
    [apply Z.ltb_lt in Esi | apply Z.ltb_ge in Esi].
  - assert (∃ perm', (if Z.land (Z.of_nat i) 1 =? 0 then swap perm 0 (Z.of_nat i)
                      else swap perm si (Z.of_nat i)) = Some perm'
                     ∧ perm' ≡ₚ perm) as (perm' & -> & Hperm').
    { destruct (_ =? 0).
      - apply (swap_Permutation perm 0 i); lia.
      - rewrite <- (Z2Nat.id si) by lia. apply swap_Permutation; lia. }
    destruct (Hfn perm' st) as (b & st1 & -> & Hst1); [by rewrite Hperm' | done |].
    destruct b; [|by eexists _, _].
    rewrite Hins.
    apply (IH 0%nat (replicate i 0 ++ (si + 1) :: rest')); try done.
    + by rewrite Hperm'.
    + lia.
    + rewrite length_app, length_replicate. cbn [length]. lia.
    + intros k d Hk. cbn [Nat.add].
      destruct (decide (k < i)%nat) as [Hki | Hki].
      * rewrite lookup_app_l in Hk by (rewrite length_replicate; lia).
        apply lookup_replicate in Hk as [-> _]. lia.
      * rewrite lookup_app_r in Hk by (rewrite length_replicate; lia).
        rewrite length_replicate in Hk.
        destruct (k - i)%nat as [|k'] eqn:Ek; cbn in Hk.
        -- simplify_eq. lia.
        -- specialize (Hdig (S k') d Hk). lia.
    + rewrite weight_app, weight_zeros, length_replicate. cbn [weight Nat.add fact].
      fold n. fold n in Hfuel. nia.
  - assert (si = Z.of_nat i) as -> by lia.
    rewrite Hins. replace (replicate i 0 ++ 0 :: rest') with (replicate (S i) 0 ++ rest')
      by (rewrite replicate_S_end, <- app_assoc; done).
    replace (Z.of_nat i + 1) with (Z.of_nat (S i)) by lia.
    apply IH; try done.
    + lia.
    + lia.
    + intros k d Hk. specialize (Hdig (S k) d Hk). lia.
    + fold n. fold n in Hfuel. rewrite fact_succ. nia.
Qed.

Lemma forEachChildPerm_runs (node : pqNode) (fn : callback (list pqNode)) :
  runsOn I (λ p, p ≡ₚ children node) fn →
  runsOn I (λ _ : unit, True) (λ _, forEachChildPerm node fn).
Proof.
  intros Hfn [] st _ Hst. unfold forEachChildPerm.
  destruct (nodeKind_eqb (kind node) qNode).
  - destruct (Hfn (children node) st) as (b & st1 & -> & Hst1); [done..|].
    destruct b; [|by eexists _, _].
    destruct (len (children node) <=? 1); [by eexists _, _|].
    apply Hfn; [|done]. symmetry. apply Permutation_rev.
  - destruct (len (children node) =? 0) eqn:E0.
    { apply Hfn; [|done]. apply Z.eqb_eq in E0. unfold len in E0.
      destruct (children node); [done | cbn in E0; lia]. }
    destruct (len (children node) =? 1); [by apply Hfn|].
    destruct (Hfn (children node) st) as (b & st1 & -> & Hst1); [done..|].
    destruct b; [|by eexists _, _].
    pose proof (heapLoop_runs fn (children node) Hfn
                  (heapFuel (length (children node))) 0%nat
                  (replicate (length (children node)) 0) (children node) st1)
      as Hloop.
    cbn [replicate app] in Hloop. apply Hloop; try done.
    + lia.
    + rewrite length_replicate. lia.
    + intros k d [-> _]%lookup_replicate. lia.
    + rewrite weight_zeros. unfold heapFuel. cbn [fact].
      rewrite Nat2Z.inj_succ, Nat2Z.inj_mul, factNat_fact, Nat2Z.inj_succ.
      pose proof (fact_pos (length (children node))). nia.
Qed.

Lemma enumerateLazy_eq (depth : nat) (node : pqNode) (prefix : list Z)
    (emit : callback (list Z)) (st : St) :
  enumerateLazy (S depth) node prefix emit st =
  if nodeKind_eqb (kind node) leafNode then emit (prefix ++ [value node]) st
  else forEachChildPerm node
         (λ cs, enumerateChildrenLazy depth cs prefix emit) st.
Proof. reflexivity. Qed.

Lemma height_children (node : pqNode) (c : pqNode) :
  c ∈ children node → (height c < height node)%nat.
Proof.
  destruct node as [k v cs m f p]. cbn [children height].
  induction cs as [|c' cs IH]; intros Hc; [by apply elem_of_nil in Hc|].
  cbn [foldr]. apply elem_of_cons in Hc as [-> | Hc]; [lia|].
  specialize (IH Hc). lia.
Qed.

(** [enumerateLazy] ends within its bounds and hands only arrangements of
    the leaves below the node, after [prefix], to [emit]. *)
Lemma enumerateLazy_runs (depth : nat) :
  ∀ (node : pqNode) (prefix : list Z) (emit : callback (list Z)),
    proper node → (height node ≤ depth)%nat →
    runsOn I (λ p, ∃ q, p = prefix ++ q ∧ q ≡ₚ leafValues node) emit →
    runsOn I (λ _ : unit, True) (λ _, enumerateLazy depth node prefix emit).
Proof.
  induction depth as [|depth IH]; intros node prefix emit Hp Hh Hemit [] st _ Hst.
  { destruct node; cbn in Hh; lia. }
  rewrite enumerateLazy_eq.
  destruct (nodeKind_eqb (kind node) leafNode) eqn:Ek.
  { apply nodeKind_eqb_eq in Ek. apply Hemit; [|done].
    exists [value node]. split; [done|]. destruct node; cbn in *. by subst. }
  assert (Hk : kind node ≠ leafNode) by (intros Hk; by rewrite Hk in Ek).
  destruct (proper_inner_children _ Hp Hk) as [_ Hall].
  apply (forEachChildPerm_runs node _) with (x := ()); [|done..].
  intros cs st0 Hcs Hst0.
  assert (Hcs' : Forall (λ c, proper c ∧ (height c ≤ depth)%nat) cs).
  { apply Forall_forall. intros c Hc. rewrite Hcs in Hc. split.
    - rewrite Forall_forall in Hall. auto.
    - pose proof (height_children node c Hc). lia. }
  assert (Hlv : cs ≫= leafValues ≡ₚ leafValues node).
  { rewrite (leafValues_inner node) by done. by rewrite Hcs. }
  clear Hcs Hall Hp Hh Hk Ek st Hst.
  revert prefix emit Hemit st0 Hst0 Hlv. generalize (leafValues node) as target.
  induction Hcs' as [|c cs [Hpc Hhc] _ IHcs]; intros target prefix emit Hemit st Hst Hlv.
  - cbn. apply Hemit; [|done].
    exists []. by rewrite app_nil_r.
  - unfold enumerateChildrenLazy. cbn [enumerateChildrenWith].
    apply (IH c [] _ Hpc Hhc) with (x := ()); [|done..].
    intros p st1 (q & -> & Hq) Hst1. cbn [app].
    apply (IHcs (cs ≫= leafValues)); [|done..].
    intros p' st2 (q' & -> & Hq') Hst2. apply Hemit; [|done].
    exists (q ++ q'). split; [by rewrite app_assoc|].
    rewrite <- Hlv, bind_cons. by rewrite Hq, Hq'.
Qed.

End EnumerationFacts.

(** [Enumerate] returns on every well-formed tree, and what it returns are
    arrangements of the leaves [0 .. n-1]. *)
Lemma Enumerate_wfTree (t : PQTree) (limit : Z) :
  wfTree t →
  ∃ perms, Enumerate t limit = Some perms
           ∧ Forall (λ p, p ≡ₚ Z.of_nat <$> seq 0 (leaves t)) perms.
Proof.
  unfold wfTree, Enumerate. destruct (root t) as [r|].
  - intros [Hp Hl].
    set (emit := λ (perm : list Z) (results : list (list Z)),
           Some ((limit <=? 0) || (len (results ++ [perm]) <? limit),
                 results ++ [perm])).
    destruct (enumerateLazy_runs
                (Forall (λ p, p ≡ₚ Z.of_nat <$> seq 0 (leaves t)))
                (height r) r [] emit Hp (le_n _)) with (x := ()) (st := @nil (list Z))
      as (b & perms & -> & Hperms); [|done|done|by exists perms].
    intros p st (q & -> & Hq) Hst. eexists _, _. split; [reflexivity|].
    apply Forall_app. split; [done|]. constructor; [|done].
    cbn [app]. by rewrite Hq.
  - intros ->. eexists. split; [done|]. by constructor.
Qed.

(** ** The marking loop of [Reduce] *)

Lemma markConstraint_inRange (nleaves : nat) (constraint : list Z) :
  ∀ r, markConstraint nleaves constraint r
       = Some (foldl (λ r elem, markLeaf elem r) r
                 (List.filter (inRange nleaves) constraint)).
Proof.
  induction constraint as [|elem rest IH]; intros r; [done|].
  cbn [markConstraint List.filter]. unfold writeLeafMark, inRange.
  rewrite Z.geb_leb. destruct ((0 <=? elem) && (elem <? Z.of_nat nleaves)).
  - cbn [foldl]. apply IH.
  - apply IH.
Qed.







End PQTreeFacts.

(** * Properties of the orderers *)

Section OrderingFacts.

Import GoInt Ordering.

(** ** C7 *)

(** C7: [calcCandidateLimit] is the limit the spec words: 10000 up to three
    rows, else 10000/numRows clamped to [100, 1000]. *)
Theorem C7_calcCandidateLimit (numRows : Z) :
  calcCandidateLimit numRows = candidateLimitSpec numRows.
Proof.
  unfold calcCandidateLimit, candidateLimitSpec, maxCandidatesBase, clamp.
  destruct (numRows <=? 3) eqn:E3; [done|]. apply Z.leb_gt in E3.
  rewrite Z.quot_div_nonneg by lia.
  destruct (10000 `div` numRows <? 100) eqn:E1;
    [apply Z.ltb_lt in E1 | apply Z.ltb_ge in E1].
  - lia.
  - destruct (1000 <? 10000 `div` numRows) eqn:E2;
      [apply Z.ltb_lt in E2 | apply Z.ltb_ge in E2]; lia.
Qed.

(** ** C9 *)

Lemma updateBestStep_decreases (path : searchPath) (score : Z)
    (pc pc' : updatePC) (sh sh' : shared) :
  updateBestStep path score (pc, sh) (pc', sh') →
  bestScore sh' = bestScore sh
  ∨ (pc = loaded (bestScore sh) ∧ pc' = atStore
     ∧ bestScore sh' = score ∧ score < bestScore sh).
Proof.
  inversion 1; subst; cbn; auto.
Qed.

(** C9: while [search] runs, every step of every call of [updateBest]
    leaves [bestScore] as it is or, at the compare-and-swap of that call,
    replaces it by the call's score, which is then strictly smaller than
    the value replaced; so over any run of the tasks, in particular from
    before a call to after it, [bestScore] does not grow. *)
Theorem C9_bestScore_writes_decrease (calls : searchPath → Z → Prop) :
  (∀ st st', searchStep calls st st' →
     bestScore st'.1 = bestScore st.1
     ∨ ∃ c, c ∈ st'.2 ∧ call_pc c = atStore
            ∧ bestScore st'.1 = call_score c
            ∧ call_score c < bestScore st.1)
  ∧ (∀ st st', rtc (searchStep calls) st st' →
       bestScore st'.1 <= bestScore st.1).
Proof.
  assert (Hstep : ∀ st st', searchStep calls st st' →
     bestScore st'.1 = bestScore st.1
     ∨ ∃ c, c ∈ st'.2 ∧ call_pc c = atStore
            ∧ bestScore st'.1 = call_score c
            ∧ call_score c < bestScore st.1).
  { intros st st' Hst. destruct Hst as [sh cs path score Hc
      | sh sh' before after path score pc pc' Hub]; cbn [fst snd]; [by left|].
    destruct (updateBestStep_decreases _ _ _ _ _ _ Hub)
      as [Heq | (-> & -> & Hnew & Hlt)]; [by left|].
    right. exists (mkCall path score atStore). split_and!; [|done..].
    apply elem_of_app. right. apply list_elem_of_here. }
  split; [exact Hstep|].
  induction 1 as [st | st st' st'' Hst _ IH]; [lia|].
  destruct (Hstep _ _ Hst) as [Heq | (c & _ & _ & Heq & Hlt)]; lia.
Qed.

(** ** C8 *)

(** What [Barycentric.OrderRows] returns on a graph with rows has every
    property [Q] that the initial orders have and that a run of passes and
    the reversal keep. *)
Lemma BarycentricOrderRows_returns (E : Collaborators) (Passes : Z) (g : DAG)
    (m : orderMap) (Q : gmap Z (list string) → Prop) :
  let rows := RowIDs g in
  let rowNodes := rowNodesOf g rows in
  BarycentricOrderRows E Passes g = Some m →
  len rows ≠ 0 →
  Q (initOrders E g rows rowNodes) →
  (∀ init passes orders score,
     Q init → runPasses E g rows rowNodes init passes = Some (orders, score) →
     Q orders) →
  (∀ orders, Q orders → Q (reverseOrders orders rows)) →
  ∃ orders, m = ordersOf orders ∧ Q orders.
Proof.
  intros rows rowNodes Hret Hrows Hinit Hrun Hrev.
  unfold BarycentricOrderRows in Hret. fold rows rowNodes in Hret.
  destruct (len rows =? 0) eqn:E0; [apply Z.eqb_eq in E0; done|].
  set (init := initOrders E g rows rowNodes) in *.
  set (passes := if Passes <=? 0 then defaultPasses else Passes) in *.
  destruct (CountCrossings E g init =? 0); [simplify_eq; eauto|].
  destruct (runPasses E g rows rowNodes init passes) as [[orders1 score1]|] eqn:E1;
    [|done]. cbn in Hret.
  assert (Q1 : Q orders1) by eauto.
  set (best := if score1 <? CountCrossings E g init then orders1 else init) in *.
  assert (Qb : Q best) by (unfold best; by destruct (_ <? _)).
  destruct (_ && _); [simplify_eq; eauto|].
  destruct (runPasses E g rows rowNodes (reverseOrders best rows) passes)
    as [[orders2 score2]|] eqn:E2; [|done]. cbn in Hret.
  assert (Q2 : Q orders2) by eauto.
  repeat case_match; simplify_eq; eauto.
Qed.

Lemma BarycentricOrderRows_not_nil (E : Collaborators) (Passes : Z) (g : DAG)
    (m : orderMap) :
  len (RowIDs g) ≠ 0 → BarycentricOrderRows E Passes g = Some m → m ≠ nilOrders.
Proof.
  intros Hrows Hret.
  destruct (BarycentricOrderRows_returns E Passes g m (λ _, True) Hret Hrows)
    as (orders & -> & _); done.
Qed.

(** C8, as stated, fails: on the graph without rows [OrderRows] returns the
    nil map, not an empty map. *)
Lemma C8_zero_rows_returns_nil :
  RowIDs emptyGraph = []
  ∧ OrderRowsReturns specCollaborators emptyGraph nilOrders
  ∧ ¬ OrderRowsReturns specCollaborators emptyGraph (ordersOf ∅).
Proof.
  split; [done|]. split; [by constructor|].
  inversion 1; by subst.
Qed.

(** C8 (amended): on a graph with zero rows [OrderRows] returns the nil
    map, and on a graph with at least one row whatever it returns is not
    nil. *)
Theorem C8_OrderRows_nil_iff_no_rows (E : Collaborators) (g : DAG) (m : orderMap) :
  OrderRowsReturns E g m →
  (len (RowIDs g) = 0 → m = nilOrders)
  ∧ (len (RowIDs g) ≠ 0 → m ≠ nilOrders).
Proof.
  destruct 1 as [H0 | initial Hrows Hbary _ | initial path0 final cs result Hrows];
    split; try done.
  intros _. by eapply BarycentricOrderRows_not_nil.
Qed.

Lemma C8_OrderRows_nil_iff_no_rows_witness :
  (len (RowIDs triangle) = 0 →
   ordersOf {[0 := ["a"; "b"; "c"]; 1 := ["d"]]}%string = nilOrders)
  ∧ (len (RowIDs triangle) ≠ 0 →
     ordersOf {[0 := ["a"; "b"; "c"]; 1 := ["d"]]}%string ≠ nilOrders).
Proof.
  apply (C8_OrderRows_nil_iff_no_rows specCollaborators triangle).
  apply returns_initial; [done | by vm_compute | by vm_compute].
Defined.

(** ** The candidates of a row *)

Lemma seqZ_of_nat (n : nat) : Z.of_nat <$> seq 0 n = seqZ 0 (Z.of_nat n).
Proof.
  unfold seqZ. rewrite Nat2Z.id. apply list_fmap_ext. intros _ i _. lia.
Qed.

Lemma reduceByAll_wfTree (constraints : list (list Z)) :
  ∀ tree, Perm.wfTree tree →
    ∃ ok tree', reduceByAll tree constraints = Some (ok, tree')
                ∧ Perm.wfTree tree' ∧ Perm.leaves tree' = Perm.leaves tree.
Proof.
  induction constraints as [|c rest IH]; intros tree Hwf; cbn [reduceByAll].
  - by eexists _, _.
  - destruct (len c >=? 2); [|by apply IH].
    destruct (Reduce_wfTree tree c Hwf) as (ok & tree1 & -> & Hwf1 & Hl1).
    destruct ok; [|by eexists _, _].
    destruct (IH tree1 Hwf1) as (ok & tree2 & -> & Hwf2 & Hl2).
    eexists _, _. split_and!; [done..|congruence].
Qed.

Section CandidateFacts.

Context (E : Collaborators) (Hsound : soundCollaborators E).

Lemma fallbackPermutations_valid (s : solver) (n : Z) :
  Forall (λ p, p ≡ₚ seqZ 0 n) (fallbackPermutations E s n).
Proof.
  apply Forall_forall. intros p. unfold fallbackPermutations.
  destruct (n <=? 8); apply (Generate_sound E Hsound).
Qed.

Lemma applyParentConstraints_wfTree (s : solver) (tree tree' : Perm.PQTree)
    (nodeIdx : gmap string Z) (depth : Z) (prevOrder : list Z)
    (prevNodes : list Node) (ok : bool) :
  Perm.wfTree tree →
  applyParentConstraints s tree nodeIdx depth prevOrder prevNodes = Some (ok, tree') →
  Perm.wfTree tree' ∧ Perm.leaves tree' = Perm.leaves tree.
Proof.
  intros Hwf. unfold applyParentConstraints.
  destruct (Perm.index (rows s) depth) as [row|]; [|done]. cbn.
  destruct (mapM _ prevOrder) as [constraints|]; [|done]. cbn.
  destruct (reduceByAll_wfTree constraints tree Hwf) as (ok1 & tree1 & -> & Hwf1 & Hl1).
  by intros [= <- <-].
Qed.

Lemma applyChildConstraints_wfTree (s : solver) (tree tree' : Perm.PQTree)
    (nodeIdx : gmap string Z) (depth : Z) (ok : bool) :
  Perm.wfTree tree →
  applyChildConstraints s tree nodeIdx depth = Some (ok, tree') →
  Perm.wfTree tree' ∧ Perm.leaves tree' = Perm.leaves tree.
Proof.
  intros Hwf. unfold applyChildConstraints.
  destruct (_ >=? _); [by intros [= <- <-]|].
  destruct (Perm.index (rows s) depth) as [row|]; [|done]. cbn.
  destruct (Perm.index (rows s) (depth + 1)) as [next|]; [|done]. cbn.
  match goal with |- reduceByAll tree ?cs = _ → _ =>
    destruct (reduceByAll_wfTree cs tree Hwf) as (ok1 & tree1 & -> & Hwf1 & Hl1) end.
  by intros [= <- <-].
Qed.

(** Every candidate of a row arranges the row-local indices. *)
Lemma generateC1PCandidates_valid (s : solver) (depth : Z) (nodes : list Node)
    (prevOrder : list Z) (prevNodes : list Node) (candidates : list (list Z)) :
  generateC1PCandidates E s depth nodes prevOrder prevNodes = Some candidates →
  Forall (λ p, p ≡ₚ seqZ 0 (len nodes)) candidates.
Proof.
  unfold generateC1PCandidates. destruct (len nodes <=? 1).
  { intros [= <-]. constructor; [|done]. by rewrite (Seq_sound E Hsound). }
  destruct (Perm.NewPQTree (len nodes)) as [tree|] eqn:Enew; [|done]. cbn.
  apply NewPQTree_wfTree in Enew as [Hwf Hl].
  destruct (applyParentConstraints _ _ _ _ _ _) as [[ok tree1]|] eqn:E1; [|done].
  apply applyParentConstraints_wfTree in E1 as [Hwf1 Hl1]; [|done]. cbn.
  destruct ok; cbn [negb]; [|intros [= <-]; apply fallbackPermutations_valid].
  destruct (applyChildConstraints _ _ _ _) as [[ok tree2]|] eqn:E2; [|done].
  apply applyChildConstraints_wfTree in E2 as [Hwf2 Hl2]; [|done]. cbn.
  destruct ok; cbn [negb]; [|intros [= <-]; apply fallbackPermutations_valid].
  match goal with |- context [Perm.Enumerate tree2 ?limit] =>
    destruct (Enumerate_wfTree tree2 limit Hwf2) as (perms & -> & Hperms) end.
  cbn. destruct (_ =? 0); intros [= <-]; [apply fallbackPermutations_valid|].
  rewrite Hl2, Hl1, seqZ_of_nat, Hl in Hperms. done.
Qed.

Lemma nodesAt_rowNodesOf (g : DAG) (rows : list Z) (r : Z) :
  r ∈ rows → nodesAt (rowNodesOf g rows) r = NodesInRow g r.
Proof.
  unfold rowNodesOf, nodesAt.
  assert (H : ∀ m : gmap Z (list Node),
            r ∈ rows ∨ m !! r = Some (NodesInRow g r) →
            foldl (λ rowNodes r0, <[r0 := NodesInRow g r0]> rowNodes) m rows !! r
            = Some (NodesInRow g r)).
  { induction rows as [|r0 rows IH]; intros m [Hin | Hm]; cbn [foldl].
    - by apply elem_of_nil in Hin.
    - done.
    - apply IH. apply elem_of_cons in Hin as [-> | Hin]; [right|by left].
      apply lookup_insert_eq.
    - apply IH. right. destruct (decide (r0 = r)) as [-> | Hne].
      + apply lookup_insert_eq.
      + by rewrite lookup_insert_ne. }
  intros Hin. by rewrite H by auto.
Qed.

Lemma index_lookup {A : Type} (l : list A) (i : Z) (x : A) :
  Perm.index l i = Some x → 0 <= i ∧ l !! Z.to_nat i = Some x.
Proof.
  unfold Perm.index. destruct (i <? 0) eqn:Ei; [done|].
  apply Z.ltb_ge in Ei. done.
Qed.

Lemma validUpTo_insert (g : DAG) (d : nat) (path : searchPath) (r : Z)
    (row : option (list Z)) :
  validUpTo g d path → RowIDs g !! d = Some r → rowValid g r row →
  validUpTo g (S d) (<[d := row]> path).
Proof.
  intros [Hlen Hv] Hr Hrow. split; [by rewrite length_insert|].
  intros i r' row' Hi Hr' Hrow'. destruct (decide (i = d)) as [-> | Hne].
  - rewrite list_lookup_insert_eq in Hrow' by
      (rewrite Hlen; by eapply lookup_lt_Some). by simplify_eq.
  - rewrite list_lookup_insert_ne in Hrow' by done. eapply Hv; [|done..]. lia.
Qed.

Lemma dfsReaches_valid (g : DAG) (depth score : Z) (path leafPath : searchPath)
    (leafScore : Z) :
  dfsReaches E (newSolver g) depth score path leafPath leafScore →
  ∀ d : nat, depth = Z.of_nat d → validUpTo g d path → pathValid g leafPath.
Proof.
  induction 1 as [depth score path Hd
    | depth score path rowID leafPath leafScore Hd Hrow Hnodes _ IH
    | depth score path rowID prevID prevRow e candidates candidate leafPath
        leafScore Hd Hrow Hnodes Hprev HprevID Hgen Hcand He _ IH];
    intros d -> Hvalid; cbn [rows newSolver rowNodes] in *.
  - unfold pathValid. unfold len in Hd. apply Nat2Z.inj in Hd. by subst.
  - apply index_lookup in Hrow as [_ Hrow]. rewrite Nat2Z.id in *.
    apply (IH (S d)); [lia|]. apply (validUpTo_insert g d path rowID); [done..|].
    cbn. rewrite <- Hnodes. symmetry. apply nodesAt_rowNodesOf.
    by eapply list_elem_of_lookup_2.
  - apply index_lookup in Hrow as [_ Hrow]. rewrite Nat2Z.id in *.
    apply (IH (S d)); [lia|]. apply (validUpTo_insert g d path rowID); [done..|].
    cbn. apply generateC1PCandidates_valid in Hgen.
    rewrite Forall_forall in Hgen. rewrite <- (nodesAt_rowNodesOf g (RowIDs g)).
    + by apply Hgen.
    + by eapply list_elem_of_lookup_2.
Qed.

Lemma buildPrefixFrom_valid (g : DAG) (count : nat) :
  ∀ (d : nat) (prefix prefix' : searchPath) (score score' : Z),
    buildPrefixFrom E (newSolver g) count (Z.of_nat d) prefix score
    = Some (prefix', score') →
    validUpTo g d prefix → validUpTo g (d + count) prefix'.
Proof.
  induction count as [|count IH]; intros d prefix prefix' score score' Hb Hv;
    cbn [buildPrefixFrom] in Hb.
  { simplify_eq. by rewrite Nat.add_0_r. }
  cbn [rows newSolver rowNodes edges] in Hb.
  destruct (Perm.index (RowIDs g) (Z.of_nat d)) as [r|] eqn:Hr; [|done].
  apply index_lookup in Hr as [_ Hr]. rewrite Nat2Z.id in *.
  replace (d + S count)%nat with (S d + count)%nat by lia.
  assert (Hv' : validUpTo g (S d)
                  (<[d := Some (Seq E (len (nodesAt (rowNodesOf g (RowIDs g)) r)))]>
                     prefix)).
  { apply (validUpTo_insert g d prefix r); [done..|]. cbn.
    rewrite (Seq_sound E Hsound), nodesAt_rowNodesOf; [done|].
    by eapply list_elem_of_lookup_2. }
  replace (Z.of_nat d + 1) with (Z.of_nat (S d)) in Hb by lia.
  destruct (Z.of_nat d >? 0).
  - destruct (Perm.index _ _); [|done]. by eapply IH.
  - by eapply IH.
Qed.

Lemma findParallelRowFrom_nonneg (s : solver) (rs : list Z) :
  ∀ i, 0 <= i → 0 <= findParallelRowFrom s i rs.
Proof.
  induction rs as [|r rs IH]; intros i Hi; cbn; [done|].
  destruct (_ >? 1); [done|]. apply IH. lia.
Qed.

Lemma generateStartPermutations_valid (g : DAG) (parallelRow : Z)
    (prefix : searchPath) (workerLimit : Z) (starts : list (list Z)) :
  generateStartPermutations E (newSolver g) parallelRow prefix workerLimit
  = Some starts →
  ∃ r, Perm.index (RowIDs g) parallelRow = Some r
       ∧ Forall (λ p, p ≡ₚ seqZ 0 (len (NodesInRow g r))) starts.
Proof.
  unfold generateStartPermutations. cbn [rows newSolver rowNodes].
  destruct (Perm.index (RowIDs g) parallelRow) as [r|] eqn:Hr; [|done]. cbn.
  intros Hs. exists r. split; [done|].
  apply index_lookup in Hr as [_ Hr].
  rewrite nodesAt_rowNodesOf in Hs by (by eapply list_elem_of_lookup_2).
  destruct (parallelRow =? 0).
  - apply Forall_forall. intros p Hp.
    destruct (_ <=? 8); simplify_eq; by apply (Generate_sound E Hsound) in Hp.
  - destruct (Perm.index (RowIDs g) (parallelRow - 1)) as [prev|]; [|done]. cbn in Hs.
    destruct (generateC1PCandidates _ _ _ _ _ _) as [cands|] eqn:Hc; [|done].
    cbn in Hs. apply generateC1PCandidates_valid in Hc.
    destruct (_ >? _); simplify_eq; [by apply Forall_take | done].
Qed.

(** Every path that a task of [search] can hand to [updateBest] orders
    all rows of the graph. *)
Lemma searchReaches_valid (g : DAG) (leafPath : searchPath) (leafScore : Z) :
  searchReaches E (newSolver g) leafPath leafScore → pathValid g leafPath.
Proof.
  destruct 1 as [prefix prefixScore starts start score leafPath leafScore
                   parallelRow Hprefix Hstarts Hstart _ Hdfs].
  assert (Hpr : 0 <= parallelRow) by (by apply findParallelRowFrom_nonneg).
  unfold buildPrefix in Hprefix.
  apply (buildPrefixFrom_valid g _ 0%nat) in Hprefix.
  2:{ split; [by rewrite length_replicate | intros; lia]. }
  cbn [Nat.add] in Hprefix.
  apply generateStartPermutations_valid in Hstarts as (r & Hr & Hall).
  apply index_lookup in Hr as [_ Hr]. rewrite Forall_forall in Hall.
  apply (dfsReaches_valid g _ _ _ _ _ Hdfs (S (Z.to_nat parallelRow))); [lia|].
  apply (validUpTo_insert g _ prefix r); [done..|]. cbn. by apply Hall.
Qed.

End CandidateFacts.

(** ** The shared best path *)

(** While [search] runs, [bestPath] and the paths of all calls of
    [updateBest] have a property that the first path and every path the
    tasks can call with have. *)
Lemma searchStep_paths (calls : searchPath → Z → Prop) (P : searchPath → Prop) :
  (∀ path score, calls path score → P path) →
  ∀ st st', rtc (searchStep calls) st st' →
    P (bestPath st.1) → Forall (λ c, P (call_path c)) st.2 →
    P (bestPath st'.1) ∧ Forall (λ c, P (call_path c)) st'.2.
Proof.
  intros Hcalls. induction 1 as [st | st st' st'' Hst _ IH]; intros Hb Hcs; [done|].
  apply IH; destruct Hst as [sh cs path score Hc
    | sh sh' before after path score pc pc' Hub]; cbn [fst snd] in *.
  - done.
  - apply Forall_app in Hcs as [_ [Hp _]%Forall_cons]. cbn in Hp.
    inversion Hub; subst; cbn; done.
  - constructor; [by eapply Hcalls | done].
  - apply Forall_app in Hcs as [Hbefore [Hp Hafter]%Forall_cons].
    apply Forall_app. split; [done|]. by constructor.
Qed.

(** ** From paths to orders and back *)

Lemma rowValid_in_range (g : DAG) (r : Z) (indices : list Z) :
  rowValid g r (Some indices) →
  Forall (λ idx, 0 <= idx < len (NodesInRow g r)) indices.
Proof.
  cbn. intros Hp. apply Forall_forall. intros idx Hidx.
  rewrite Hp in Hidx. apply elem_of_seqZ in Hidx. lia.
Qed.

Lemma indices_to_ids (nodes : list Node) (indices : list Z) :
  indices ≡ₚ seqZ 0 (len nodes) →
  ∃ ids, mapM (λ idx, ID <$> Perm.index nodes idx) indices = Some ids
         ∧ ids ≡ₚ ID <$> nodes.
Proof.
  intros Hp.
  set (f := λ idx : Z, default ""%string (ID <$> Perm.index nodes idx)).
  assert (Hf : ∀ idx, 0 <= idx < len nodes →
                      ID <$> Perm.index nodes idx = Some (f idx)).
  { intros idx Hidx. unfold f.
    destruct (index_Some nodes idx Hidx) as (x & -> & _). done. }
  exists (f <$> indices). split.
  - apply mapM_Some, Forall2_fmap_r, Forall_Forall2_diag, Forall_forall.
    intros idx Hidx. apply Hf. rewrite Hp in Hidx.
    apply elem_of_seqZ in Hidx. lia.
  - rewrite Hp. apply eq_subrelation; [apply _|].
    apply list_eq. intros i. rewrite !list_lookup_fmap. unfold f.
    destruct (decide (i < length nodes)%nat) as [Hi | Hi].
    + rewrite lookup_seqZ_lt by (unfold len; lia). cbn.
      rewrite Z.add_0_l, index_nat.
      destruct (lookup_lt_is_Some_2 nodes i Hi) as [x ->]. done.
    + rewrite lookup_seqZ_ge by (unfold len; lia).
      rewrite (lookup_ge_None_2 nodes) by lia. done.
Qed.

(** [toStringOrder] on a path that orders all rows: no panic, and every
    non-empty row of the graph gets an arrangement of the identifiers of its
    nodes. *)
Lemma toStringOrderFrom_valid (g : DAG) (rows : list Z) :
  ∀ (path : searchPath) (result : gmap Z (list string)),
    (∀ r, r ∈ rows → r ∈ RowIDs g) →
    Forall2 (rowValid g) rows path →
    (∀ r ids, result !! r = Some ids → ids ≡ₚ ID <$> NodesInRow g r) →
    ∃ result',
      toStringOrderFrom (rowNodesOf g (RowIDs g)) rows path result = Some result'
      ∧ (∀ r ids, result' !! r = Some ids → ids ≡ₚ ID <$> NodesInRow g r)
      ∧ (∀ r, (r ∈ rows ∧ NodesInRow g r ≠ []) ∨ is_Some (result !! r) →
              is_Some (result' !! r)).
Proof.
  induction rows as [|r rows IH]; intros path result Hin Hvalid Hres.
  - exists result. split_and!; [done..|].
    intros r [[Hr _] | Hr]; [by apply elem_of_nil in Hr | done].
  - apply Forall2_cons_inv_l in Hvalid as (row & path' & Hrow & Hvalid & ->).
    assert (Hin' : ∀ r', r' ∈ rows → r' ∈ RowIDs g)
      by (intros; apply Hin; by apply list_elem_of_further).
    destruct row as [indices|]; cbn [toStringOrderFrom].
    + rewrite nodesAt_rowNodesOf by (apply Hin, list_elem_of_here).
      destruct (indices_to_ids (NodesInRow g r) indices Hrow) as (ids & -> & Hids).
      cbn. destruct (IH path' (<[r := ids]> result) Hin' Hvalid)
        as (result' & -> & Hres' & Hsome).
      { intros r' ids' Hr'. destruct (decide (r = r')) as [<- | Hne].
        - rewrite lookup_insert_eq in Hr'. by simplify_eq.
        - rewrite lookup_insert_ne in Hr' by done. eauto. }
      exists result'. split_and!; [done..|].
      intros r' [[Hr' Hne] | Hr'].
      * apply elem_of_cons in Hr' as [-> | Hr'].
        -- apply Hsome. right. rewrite lookup_insert_eq. by eexists.
        -- apply Hsome. by left.
      * apply Hsome. right. destruct (decide (r = r')) as [<- | Hne].
        -- rewrite lookup_insert_eq. by eexists.
        -- by rewrite lookup_insert_ne.
    + destruct (IH path' result Hin' Hvalid Hres) as (result' & -> & Hres' & Hsome).
      exists result'. split_and!; [done..|].
      intros r' [[Hr' Hne] | Hr'].
      * apply elem_of_cons in Hr' as [-> | Hr']; [by cbn in Hrow|].
        apply Hsome. by left.
      * apply Hsome. by right.
Qed.

Lemma pathValid_Forall2 (g : DAG) (path : searchPath) :
  pathValid g path → Forall2 (rowValid g) (RowIDs g) path.
Proof.
  intros [Hlen Hv]. apply Forall2_same_length_lookup. split; [done|].
  intros i r row Hr Hrow. eapply Hv; [|done..]. by eapply lookup_lt_Some.
Qed.

Lemma toStringOrder_valid (g : DAG) (path : searchPath) :
  pathValid g path →
  ∃ result, toStringOrder (rowNodesOf g (RowIDs g)) (RowIDs g) path = Some result
            ∧ ordersValid g result.
Proof.
  intros Hv%pathValid_Forall2.
  destruct (toStringOrderFrom_valid g (RowIDs g) path ∅) as (result & E & H1 & H2);
    [done | done | by intros r ids Hr; rewrite lookup_empty in Hr |].
  exists result. split; [done|]. split; [done|].
  intros r Hr Hne. apply H2. by left.
Qed.

(** ** The barycentric orderer *)

Lemma insertSorted_Permutation {A : Type} (less : A → A → bool) (x : A)
    (sorted : list A) :
  insertSorted less x sorted ≡ₚ x :: sorted.
Proof.
  induction sorted as [|y sorted IH]; cbn; [done|].
  destruct (less x y); [done|]. by rewrite IH, Permutation_swap.
Qed.

Lemma sortStableFunc_Permutation {A : Type} (cmp : A → A → Z) (s : list A) :
  sortStableFunc cmp s ≡ₚ s.
Proof.
  unfold sortStableFunc.
  assert (H : ∀ acc, foldl (λ sorted x, insertSorted (λ a b, cmp a b <? 0) x sorted)
                       acc s ≡ₚ acc ++ s).
  { induction s as [|x s IH]; intros acc; cbn [foldl]; [by rewrite app_nil_r|].
    rewrite IH, insertSorted_Permutation. cbn [app]. apply Permutation_middle. }
  by rewrite H.
Qed.

Lemma List_filter_length_Permutation {A : Type} (f : A → bool) (l k : list A) :
  l ≡ₚ k → length (List.filter f l) = length (List.filter f k).
Proof.
  induction 1 as [|x l k _ IH|x y l|l k m _ IH1 _ IH2]; cbn; try done.
  - destruct (f x); cbn; by rewrite IH.
  - destruct (f x), (f y); cbn; done.
  - congruence.
Qed.

Lemma transposeScan_Permutation (swaps : string → string → bool) (rest : list string) :
  ∀ x, (transposeScan swaps x rest).1 ≡ₚ x :: rest.
Proof.
  induction rest as [|y rest IH]; intros x; cbn [transposeScan]; [done|].
  destruct (swaps x y).
  - specialize (IH x). destruct (transposeScan swaps x rest) as [order sw]. cbn in *.
    by rewrite IH, Permutation_swap.
  - specialize (IH y). destruct (transposeScan swaps y rest) as [order sw]. cbn in *.
    by rewrite IH.
Qed.

(** A scan that swaps something takes a pending swap away, and no scan adds
    one, when no pair is swapped both ways. *)
Lemma transposeScan_pending (swaps : string → string → bool) :
  (∀ a b, swaps a b = true → swaps b a = false) →
  ∀ rest x,
    let '(order, swapped) := transposeScan swaps x rest in
    (pendingSwaps swaps order + (if swapped then 1 else 0)
     ≤ pendingSwaps swaps (x :: rest))%nat.
Proof.
  intros Hasym. induction rest as [|y rest IH]; intros x; cbn [transposeScan].
  { cbn. lia. }
  destruct (swaps x y) eqn:Exy.
  - specialize (IH x). pose proof (transposeScan_Permutation swaps rest x) as Hp.
    destruct (transposeScan swaps x rest) as [order sw]. cbn [fst] in Hp.
    cbn [pendingSwaps] in *.
    rewrite (List_filter_length_Permutation _ _ _ Hp). cbn [List.filter].
    rewrite (Hasym _ _ Exy), Exy. cbn [length]. destruct sw; lia.
  - specialize (IH y). pose proof (transposeScan_Permutation swaps rest y) as Hp.
    destruct (transposeScan swaps y rest) as [order sw]. cbn [fst] in Hp.
    cbn [pendingSwaps] in *.
    rewrite (List_filter_length_Permutation _ _ _ Hp). cbn [List.filter].
    rewrite Exy. cbn [pendingSwaps] in IH. lia.
Qed.

Lemma pendingSwaps_bound (swaps : string → string → bool) (order : list string) :
  (pendingSwaps swaps order ≤ length order * length order)%nat.
Proof.
  induction order as [|x order IH]; cbn [pendingSwaps length]; [lia|].
  pose proof (filter_length_le (swaps x) order). lia.
Qed.

(** The loop of [transpose] ends within its fuel, on an arrangement of the
    order it started from. *)
Lemma transposeLoop_returns (swaps : string → string → bool) :
  (∀ a b, swaps a b = true → swaps b a = false) →
  ∀ fuel order,
    (pendingSwaps swaps order < fuel)%nat →
    ∃ order', transposeLoop fuel swaps order = Some order' ∧ order' ≡ₚ order.
Proof.
  intros Hasym. induction fuel as [|fuel IH]; intros order Hfuel; [lia|].
  cbn [transposeLoop]. destruct order as [|x rest]; [by exists []|].
  pose proof (transposeScan_pending swaps Hasym rest x) as Hpend.
  pose proof (transposeScan_Permutation swaps rest x) as Hperm.
  destruct (transposeScan swaps x rest) as [order' swapped]. cbn [fst] in Hperm.
  destruct swapped; [|by exists order'].
  destruct (IH order') as (order'' & -> & Hp''); [lia|].
  exists order''. split; [done|]. by rewrite Hp''.
Qed.

Section BarycentricFacts.

Context (E : Collaborators) (Hsound : soundCollaborators E) (g : DAG).

Lemma wmedian_Permutation (nodes : list Node) (current fixed : list string)
    (useParents : bool) :
  wmedian E g nodes current fixed useParents ≡ₚ ID <$> nodes.
Proof.
  unfold wmedian. destruct (len nodes <=? 1).
  { by rewrite (NodeIDs_sound E Hsound). }
  rewrite sortStableFunc_Permutation, <- list_fmap_compose.
  apply eq_subrelation; [apply _|]. apply list_fmap_ext. intros _ n _. cbn.
  by destruct (weightedMedian E _ _).
Qed.

Lemma orderByMinParent_Permutation (nodes : list Node) (parentOrder : list string) :
  orderByMinParent E g nodes parentOrder ≡ₚ ID <$> nodes.
Proof.
  unfold orderByMinParent.
  rewrite sortStableFunc_Permutation, <- list_fmap_compose.
  apply eq_subrelation; [apply _|]. apply list_fmap_ext. intros _ n _. cbn.
  by destruct (foldl _ _ _) as [[? ?] ?].
Qed.

Lemma swapsPair_asym (adjPos : gmap string Z) (useParents : bool) (a b : string) :
  swapsPair E g adjPos useParents a b = true →
  swapsPair E g adjPos useParents b a = false.
Proof.
  unfold swapsPair. intros [_ Hlt%Z.ltb_lt]%andb_true_iff.
  apply andb_false_iff. right. apply Z.ltb_ge. lia.
Qed.

Lemma entriesValid_insert (orders : gmap Z (list string)) (r : Z)
    (ids : list string) :
  entriesValid g orders → ids ≡ₚ ID <$> NodesInRow g r →
  entriesValid g (<[r := ids]> orders).
Proof.
  intros Hv Hids r' ids' Hr'. destruct (decide (r = r')) as [<- | Hne].
  - rewrite lookup_insert_eq in Hr'. by simplify_eq.
  - rewrite lookup_insert_ne in Hr' by done. eauto.
Qed.

Lemma transpose_returns (orders : gmap Z (list string)) (row adjRow : Z)
    (useParents : bool) :
  entriesValid g orders →
  ∃ orders', transpose E g orders row adjRow useParents = Some orders'
             ∧ entriesValid g orders'
             ∧ (∀ r, is_Some (orders !! r) → is_Some (orders' !! r)).
Proof.
  intros Hv. unfold transpose.
  destruct (len (orderAt orders row) <? 2) eqn:Elen; [by exists orders|].
  destruct (transposeLoop_returns _ (swapsPair_asym (PosMap E (orderAt orders adjRow))
                                       useParents)
              (transposeFuel (length (orderAt orders row))) (orderAt orders row))
    as (order' & -> & Hp).
  { unfold transposeFuel. pose proof (pendingSwaps_bound
      (swapsPair E g (PosMap E (orderAt orders adjRow)) useParents)
      (orderAt orders row)). lia. }
  cbn. eexists. split; [done|].
  unfold orderAt in *. destruct (orders !! row) as [ids|] eqn:Hrow; [|done]. cbn in *.
  split.
  - apply entriesValid_insert; [done|]. rewrite Hp. by eapply Hv.
  - intros r Hr. destruct (decide (row = r)) as [<- | Hne].
    + rewrite lookup_insert_eq. by eexists.
    + by rewrite lookup_insert_ne.
Qed.

Lemma sweepRow_returns (rows : list Z) (adj : Z) (useParents : bool)
    (orders : gmap Z (list string)) (r : Z) :
  entriesValid g orders → r ∈ rows →
  ∃ orders', sweepRow E g (rowNodesOf g rows) adj useParents (Some orders) r
             = Some orders'
             ∧ entriesValid g orders'
             ∧ (∀ r', is_Some (orders !! r') → is_Some (orders' !! r')).
Proof.
  intros Hv Hr. unfold sweepRow. cbn [mbind option_bind].
  match goal with |- context [transpose E g ?o r _ _] =>
    destruct (transpose_returns o r (r + adj) useParents)
      as (orders' & -> & Hv' & Hk') end.
  { apply entriesValid_insert; [done|].
    rewrite wmedian_Permutation. by rewrite nodesAt_rowNodesOf. }
  exists orders'. split_and!; [done..|].
  intros r' Hr'. apply Hk'. destruct (decide (r = r')) as [<- | Hne].
  - rewrite lookup_insert_eq. by eexists.
  - by rewrite lookup_insert_ne.
Qed.

Lemma sweep_returns (rows : list Z) (adj : Z) (useParents : bool)
    (swept : list Z) :
  (∀ r, r ∈ swept → r ∈ rows) →
  ∀ orders, entriesValid g orders →
    ∃ orders',
      foldl (sweepRow E g (rowNodesOf g rows) adj useParents) (Some orders) swept
      = Some orders'
      ∧ entriesValid g orders'
      ∧ (∀ r', is_Some (orders !! r') → is_Some (orders' !! r')).
Proof.
  induction swept as [|r swept IH]; intros Hin orders Hv; cbn [foldl].
  - by exists orders.
  - destruct (sweepRow_returns rows adj useParents orders r Hv)
      as (orders1 & -> & Hv1 & Hk1); [apply Hin, list_elem_of_here|].
    destruct (IH (λ r' Hr', Hin r' (list_elem_of_further _ _ _ Hr')) orders1 Hv1)
      as (orders2 & -> & Hv2 & Hk2).
    exists orders2. split_and!; [done..|]. auto.
Qed.

Lemma passLoop_returns (rows : list Z) (count : nat) :
  ∀ (pass : Z) (orders best : gmap Z (list string)) (bestScore staleCount : Z),
    ordersKeep g rows orders → ordersKeep g rows best →
    ∃ best' score',
      passLoop E g rows (rowNodesOf g rows) count pass orders best
        bestScore staleCount = Some (best', score')
      ∧ ordersKeep g rows best'.
Proof.
  induction count as [|count IH]; intros pass orders best bestScore staleCount
    Ho Hb; cbn [passLoop]; [by eexists _, _|].
  destruct (bestScore >? 0); [|by eexists _, _].
  assert (∃ orders',
            (if pass `rem` 2 =? 0 then sweepDown E g rows (rowNodesOf g rows) orders
             else sweepUp E g rows (rowNodesOf g rows) orders) = Some orders'
            ∧ ordersKeep g rows orders') as (orders' & -> & Ho').
  { destruct Ho as [Hv Hk]. destruct (_ =? 0); unfold sweepDown, sweepUp.
    - destruct (sweep_returns rows (-1) true (drop 1 rows)) with (orders := orders)
        as (orders' & -> & Hv' & Hk'); [|done|].
      + intros r Hr. by apply (subseteq_drop 1 rows).
      + exists orders'. split; [done|]. split; [done|]. auto.
    - destruct (sweep_returns rows 1 false (rev (take (length rows - 1) rows)))
        with (orders := orders) as (orders' & -> & Hv' & Hk'); [|done|].
      + intros r Hr. apply list_elem_of_In, in_rev, list_elem_of_In in Hr.
        by apply (subseteq_take (length rows - 1) rows).
      + exists orders'. split; [done|]. split; [done|]. auto. }
  cbn [mbind option_bind].
  destruct (CountCrossings E g orders' <? bestScore).
  - destruct (_ && _); [by eexists _, _|]. by apply IH.
  - destruct (_ && _); [by eexists _, _|]. by apply IH.
Qed.

Lemma runPasses_returns (rows : list Z) (init : gmap Z (list string)) (passes : Z) :
  ordersKeep g rows init →
  ∃ orders score,
    runPasses E g rows (rowNodesOf g rows) init passes = Some (orders, score)
    ∧ ordersKeep g rows orders.
Proof. intros Hi. by apply passLoop_returns. Qed.

Lemma reverseOrders_keep (rows : list Z) (orders : gmap Z (list string)) :
  ordersKeep g rows orders → ordersKeep g rows (reverseOrders orders rows).
Proof.
  intros [Hv Hk]. unfold reverseOrders.
  assert (Hrow : ∀ r, r ∈ rows → rev (orderAt orders r) ≡ₚ ID <$> NodesInRow g r).
  { intros r Hr. rewrite <- Permutation_rev. unfold orderAt.
    destruct (orders !! r) as [ids|] eqn:Hor; cbn; [by eapply Hv|].
    destruct (NodesInRow g r) as [|n ns] eqn:Hn; [done|].
    destruct (Hk r Hr) as [ids Hids]; [by rewrite Hn | congruence]. }
  assert (H : ∀ (done : list Z) (acc : gmap Z (list string)),
            (∀ r, r ∈ done → r ∈ rows) → entriesValid g acc →
            let result := foldl (λ rev_ r, <[r := rev (orderAt orders r)]> rev_)
                            acc done in
            entriesValid g result
            ∧ ∀ r, r ∈ done ∨ is_Some (acc !! r) → is_Some (result !! r)).
  { induction done as [|r done IH]; intros acc Hin Hacc; cbn [foldl].
    - split; [done|]. intros r [Hr | Hr]; [by apply elem_of_nil in Hr | done].
    - destruct (IH (<[r := rev (orderAt orders r)]> acc)) as [Hv' Hk'].
      + intros; apply Hin; by apply list_elem_of_further.
      + apply entriesValid_insert; [done|]. apply Hrow, Hin, list_elem_of_here.
      + split; [done|]. intros r' Hr'. apply Hk'.
        destruct (decide (r = r')) as [<- | Hne].
        * right. rewrite lookup_insert_eq. by eexists.
        * rewrite lookup_insert_ne by done.
          destruct Hr' as [[-> | Hr']%elem_of_cons | Hr']; [done | by left | by right]. }
  destruct (H rows ∅) as [Hv' Hk']; [done | by intros r ids Hr; rewrite lookup_empty in Hr|].
  split; [done|]. intros r Hr _. apply Hk'. by left.
Qed.

Lemma initOrders_keep : ordersKeep g (RowIDs g) (initOrders E g (RowIDs g)
                                                (rowNodesOf g (RowIDs g))).
Proof.
  unfold initOrders. set (rowNodes := rowNodesOf g (RowIDs g)).
  assert (Hn : ∀ r, r ∈ RowIDs g → nodesAt rowNodes r = NodesInRow g r)
    by (intros; by apply nodesAt_rowNodesOf).
  revert Hn. generalize (RowIDs g) as rows. intros [|row0 rest] Hn.
  { split; [by intros r ids Hr; rewrite lookup_empty in Hr|].
    intros r Hr. by apply elem_of_nil in Hr. }
  assert (H : ∀ (done : list Z) (acc : gmap Z (list string)),
            (∀ r, r ∈ done → nodesAt rowNodes r = NodesInRow g r) →
            entriesValid g acc →
            let result :=
              foldl (λ orders r,
                       match nodesAt rowNodes r with
                       | [] => orders
                       | nodes =>
                           <[r := orderByMinParent E g nodes (orderAt orders (r - 1))]>
                             orders
                       end) acc done in
            entriesValid g result
            ∧ ∀ r, (r ∈ done ∧ NodesInRow g r ≠ []) ∨ is_Some (acc !! r) →
                   is_Some (result !! r)).
  { induction done as [|r done IH]; intros acc Hin Hacc; cbn [foldl].
    - split; [done|]. intros r [[Hr _] | Hr]; [by apply elem_of_nil in Hr | done].
    - assert (Hinr : nodesAt rowNodes r = NodesInRow g r)
        by apply Hin, list_elem_of_here.
      assert (Hin' : ∀ r', r' ∈ done → nodesAt rowNodes r' = NodesInRow g r')
        by (intros; apply Hin; by apply list_elem_of_further).
      destruct (nodesAt rowNodes r) as [|n ns] eqn:Hnodes.
      + destruct (IH acc Hin' Hacc) as [Hv' Hk']. split; [done|].
        intros r' [[[-> | Hr']%elem_of_cons Hne] | Hr'].
        * by rewrite <- Hinr in Hne.
        * apply Hk'. by left.
        * apply Hk'. by right.
      + destruct (IH (<[r := orderByMinParent E g (n :: ns) (orderAt acc (r - 1))]> acc)
                    Hin') as [Hv' Hk'].
        { apply entriesValid_insert; [done|].
          rewrite orderByMinParent_Permutation. by rewrite Hinr. }
        split; [done|]. intros r' Hr'. apply Hk'.
        destruct Hr' as [[[-> | Hr']%elem_of_cons Hne'] | Hr'].
        * right. rewrite lookup_insert_eq. by eexists.
        * by left.
        * right. destruct (decide (r = r')) as [<- | Hne].
          -- rewrite lookup_insert_eq. by eexists.
          -- by rewrite lookup_insert_ne. }
  destruct (H rest (<[row0 := sortStrings (NodeIDs E (nodesAt rowNodes row0))]> ∅))
    as [Hv Hk].
  - intros r Hr. apply Hn. by apply list_elem_of_further.
  - apply entriesValid_insert; [by intros r ids Hr; rewrite lookup_empty in Hr|].
    unfold sortStrings. rewrite sortStableFunc_Permutation, (NodeIDs_sound E Hsound).
    by rewrite Hn by apply list_elem_of_here.
  - split; [done|]. intros r [-> | Hr]%elem_of_cons Hne; apply Hk.
    + right. rewrite lookup_insert_eq. by eexists.
    + by left.
Qed.

(** [Barycentric.OrderRows] returns on every graph, and on a graph with
    rows its orders arrange the nodes of every row. *)
Lemma BarycentricOrderRows_valid (Passes : Z) :
  ∃ m, BarycentricOrderRows E Passes g = Some m
       ∧ (len (RowIDs g) ≠ 0 →
          ∃ orders, m = ordersOf orders ∧ ordersKeep g (RowIDs g) orders).
Proof.
  assert (Hsome : ∃ m, BarycentricOrderRows E Passes g = Some m).
  { unfold BarycentricOrderRows. destruct (_ =? 0); [by eexists|].
    destruct (_ =? 0); [by eexists|].
    match goal with |- context [runPasses E g ?rows _ ?init ?passes] =>
      destruct (runPasses_returns rows init passes initOrders_keep)
        as (orders1 & score1 & -> & Hk1) end.
    cbn. destruct (_ && _); [by eexists|].
    match goal with |- context [runPasses E g ?rows _ (reverseOrders ?best _) ?passes] =>
      destruct (runPasses_returns rows (reverseOrders best rows) passes)
        as (orders2 & score2 & -> & Hk2) end.
    { apply reverseOrders_keep. destruct (_ <? _); [done | apply initOrders_keep]. }
    cbn. destruct (_ <? _); by eexists. }
  destruct Hsome as [m Hm]. exists m. split; [done|]. intros Hrows.
  apply (BarycentricOrderRows_returns E Passes g m (ordersKeep g (RowIDs g)) Hm Hrows).
  - apply initOrders_keep.
  - intros init passes orders score Hi Hrun.
    destruct (runPasses_returns (RowIDs g) init passes Hi) as (o & sc & Ho & Hk).
    congruence.
  - apply reverseOrders_keep.
Qed.

Lemma buildNodeIndex_lookup (nodes : list Node) (i : nat) (n : Node) :
  NoDup (ID <$> nodes) → nodes !! i = Some n →
  buildNodeIndex nodes !! ID n = Some (Z.of_nat i).
Proof.
  unfold buildNodeIndex.
  assert (Hkeep : ∀ (ns : list Node) (acc : gmap string Z) (i0 : Z) (key : string),
            key ∉ ID <$> ns →
            (foldl (λ '(idx, i) n, (<[ID n := i]> idx, i + 1)) (acc, i0) ns).1 !! key
            = acc !! key).
  { induction ns as [|n0 ns IH]; intros acc i0 key Hkey; cbn [foldl]; [done|].
    cbn in Hkey. apply not_elem_of_cons in Hkey as [Hne Hkey].
    rewrite IH by done. by rewrite lookup_insert_ne. }
  assert (H : ∀ (ns : list Node) (acc : gmap string Z) (i0 : Z) (k : nat),
            NoDup (ID <$> ns) → ns !! k = Some n →
            (foldl (λ '(idx, i) n, (<[ID n := i]> idx, i + 1)) (acc, i0) ns).1
              !! ID n = Some (i0 + Z.of_nat k)).
  { induction ns as [|n0 ns IH]; intros acc i0 k Hnd Hk; [done|].
    cbn in Hnd. apply NoDup_cons in Hnd as [Hn0 Hnd]. cbn [foldl].
    destruct k as [|k]; cbn in Hk.
    - simplify_eq. rewrite Hkeep by done. rewrite lookup_insert_eq. f_equal. lia.
    - rewrite (IH _ _ k) by done. f_equal. lia. }
  intros Hnd Hi. by rewrite (H nodes ∅ 0 i).
Qed.

Lemma indicesOf_valid (nodes : list Node) (ids : list string) :
  NoDup (ID <$> nodes) → ids ≡ₚ ID <$> nodes →
  ∃ p, indicesOf nodes ids = Some p ∧ p ≡ₚ seqZ 0 (len nodes).
Proof.
  intros Hnd Hids. unfold indicesOf.
  assert (Hlen : length ids = length nodes) by (by rewrite Hids, length_fmap).
  replace (len nodes <? len ids) with false
    by (symmetry; apply Z.ltb_ge; unfold len; lia).
  eexists. split; [done|].
  rewrite Hlen, Nat.sub_diag. cbn [replicate]. rewrite app_nil_r, Hids.
  rewrite <- list_fmap_compose. apply eq_subrelation; [apply _|].
  apply list_eq. intros i. rewrite list_lookup_fmap.
  destruct (decide (i < length nodes)%nat) as [Hi | Hi].
  - rewrite lookup_seqZ_lt by (unfold len; lia).
    destruct (lookup_lt_is_Some_2 nodes i Hi) as [n Hn]. rewrite Hn. cbn.
    rewrite (buildNodeIndex_lookup nodes i n) by done. done.
  - rewrite lookup_seqZ_ge by (unfold len; lia).
    by rewrite (lookup_ge_None_2 nodes) by lia.
Qed.

(** [toIndexPath] on the orders of the barycentric orderer: no panic, and a
    path that orders all rows. *)
Lemma toIndexPath_valid (orders : gmap Z (list string)) :
  uniqueIDs g → ordersKeep g (RowIDs g) orders →
  ∃ path0, toIndexPath g (RowIDs g) orders = Some path0 ∧ pathValid g path0.
Proof.
  intros Huniq [Hv Hk].
  assert (Hrow : ∀ r, r ∈ RowIDs g →
            ∃ row, Some <$> indicesOf (NodesInRow g r) (orderAt orders r) = Some row
                   ∧ rowValid g r row).
  { intros r Hr.
    destruct (indicesOf_valid (NodesInRow g r) (orderAt orders r)) as (p & -> & Hp).
    - by apply Huniq.
    - unfold orderAt. destruct (orders !! r) as [ids|] eqn:Hor; cbn; [by eapply Hv|].
      destruct (NodesInRow g r) as [|n ns] eqn:Hn; [done|].
      destruct (Hk r Hr) as [ids Hids]; [by rewrite Hn | congruence].
    - by exists (Some p). }
  unfold toIndexPath.
  assert (H : ∀ rs, (∀ r, r ∈ rs → r ∈ RowIDs g) →
            ∃ path,
              mapM (λ r, Some <$> indicesOf (NodesInRow g r) (orderAt orders r)) rs
              = Some path ∧ Forall2 (rowValid g) rs path).
  { induction rs as [|r rs IH]; intros Hin; [by exists []|].
    destruct (Hrow r) as (row & Hrow1 & Hrow2); [apply Hin, list_elem_of_here|].
    destruct IH as (path & Hpath & Hvalid);
      [intros; apply Hin; by apply list_elem_of_further|].
    exists (row :: path). split; [|by constructor].
    apply mapM_Some_2. constructor; [done|]. by apply mapM_Some_1. }
  destruct (H (RowIDs g)) as (path0 & -> & Hvalid); [done|].
  exists path0. split; [done|]. split; [symmetry; by eapply Forall2_length|].
  intros i r row _ Hr Hrow'. by eapply Forall2_lookup_lr.
Qed.

End BarycentricFacts.

(** ** Orders and the paths they denote *)

Section DenotesFacts.

Context (g : DAG).






End DenotesFacts.

(** ** The score of a path *)

Lemma foldr_add_app (l k : list Z) :
  foldr Z.add 0 (l ++ k) = foldr Z.add 0 l + foldr Z.add 0 k.
Proof. induction l as [|x l IH]; cbn; [done|]. rewrite IH. lia. Qed.

Lemma foldr_add_nonneg (l : list Z) :
  Forall (λ c, 0 <= c) l → 0 <= foldr Z.add 0 l.
Proof. induction 1; cbn; lia. Qed.

Lemma pairCounts_lookup (E : Collaborators) (es : list (list (list Z))) :
  ∀ (path : searchPath) (i : nat) e upper lower,
    es !! i = Some e → path !! i = Some upper → path !! S i = Some lower →
    pairCounts E es path !! i
    = Some (CountCrossingsIdx E e (default [] upper) (default [] lower)).
Proof.
  induction es as [|e0 es IH]; intros path i e upper lower He Hu Hl; [done|].
  destruct path as [|row0 [|row1 path]]; [done | by destruct i |].
  destruct i as [|i]; cbn in *; [by simplify_eq|]. by apply IH.
Qed.

Lemma pairCounts_length (E : Collaborators) (es : list (list (list Z))) :
  ∀ path : searchPath,
    (length (pairCounts E es path) ≤ length path - 1)%nat
    ∧ (length (pairCounts E es path) ≤ length es)%nat.
Proof.
  induction es as [|e0 es IH]; intros path; [cbn; lia|].
  destruct path as [|row0 [|row1 path]]; [cbn; lia..|].
  destruct (IH (row1 :: path)) as [IH1 IH2].
  change (pairCounts E (e0 :: es) (row0 :: row1 :: path))
    with (CountCrossingsIdx E e0 (default [] row0) (default [] row1)
          :: pairCounts E es (row1 :: path)).
  cbn [length] in *. lia.
Qed.

Lemma pairCounts_nonneg (E : Collaborators) (es : list (list (list Z))) :
  (∀ e upper lower, 0 <= CountCrossingsIdx E e upper lower) →
  ∀ path : searchPath, Forall (λ c, 0 <= c) (pairCounts E es path).
Proof.
  intros Hnonneg. induction es as [|e0 es IH]; intros path; [constructor|].
  destruct path as [|row0 [|row1 path]]; [constructor..|].
  change (pairCounts E (e0 :: es) (row0 :: row1 :: path))
    with (CountCrossingsIdx E e0 (default [] row0) (default [] row1)
          :: pairCounts E es (row1 :: path)).
  constructor; [apply Hnonneg | apply IH].
Qed.

Lemma rowOf_lookup (path : searchPath) (i : nat) (row : option (list Z)) :
  path !! i = Some row → rowOf path (Z.of_nat i) = default [] row.
Proof. intros Hrow. unfold rowOf. by rewrite index_nat, Hrow. Qed.

Section ScoreFacts.

Context (E : Collaborators) (g : DAG) (leafPath : searchPath).

Let counts : list Z := pairCounts E (fastEdges g (RowIDs g)) leafPath.

Context (Hnonneg : ∀ e upper lower, 0 <= CountCrossingsIdx E e upper lower)
        (Hempty : ∀ e upper, CountCrossingsIdx E e upper [] = 0)
        (Htotal : foldr Z.add 0 counts <= max_int).

Lemma counts_nonneg : Forall (λ c, 0 <= c) counts.
Proof. apply pairCounts_nonneg, Hnonneg. Qed.

Lemma scoreBefore_range (d : nat) : 0 <= scoreBefore E g leafPath d <= max_int.
Proof.
  unfold scoreBefore. fold counts. pose proof counts_nonneg as Hc.
  rewrite <- (take_drop (d - 1)%nat counts), foldr_add_app in Htotal.
  pose proof (foldr_add_nonneg _ (Forall_take _ (d - 1)%nat _ Hc)).
  pose proof (foldr_add_nonneg _ (Forall_drop _ (d - 1)%nat _ Hc)). lia.
Qed.

Lemma scoreBefore_step (d : nat) (c : Z) :
  (1 ≤ d)%nat → counts !! (d - 1)%nat = Some c →
  scoreBefore E g leafPath (S d) = scoreBefore E g leafPath d + c.
Proof.
  intros Hd Hc. unfold scoreBefore. fold counts.
  replace (S d - 1)%nat with (S (d - 1)) by lia.
  rewrite (take_S_r _ _ c Hc), foldr_add_app. cbn. lia.
Qed.

Lemma scoreBefore_end (d : nat) :
  (length counts ≤ d - 1)%nat → scoreBefore E g leafPath d = foldr Z.add 0 counts.
Proof. intros Hd. unfold scoreBefore. fold counts. by rewrite take_ge. Qed.

(** Adding the count between rows [d-1] and [d] to the score so far. *)
Lemma score_add_pair (d : nat) (e : list (list Z)) (upper lower : option (list Z)) :
  (1 ≤ d)%nat →
  fastEdges g (RowIDs g) !! (d - 1)%nat = Some e →
  leafPath !! (d - 1)%nat = Some upper → leafPath !! d = Some lower →
  addInt (scoreBefore E g leafPath d)
    (CountCrossingsIdx E e (default [] upper) (default [] lower))
  = scoreBefore E g leafPath (S d).
Proof.
  intros Hd He Hu Hl.
  assert (Hc : counts !! (d - 1)%nat
               = Some (CountCrossingsIdx E e (default [] upper) (default [] lower))).
  { apply pairCounts_lookup; [done..|]. by replace (S (d - 1)) with d by lia. }
  rewrite (scoreBefore_step d _ Hd Hc). unfold addInt.
  apply wrap_small. rewrite <- (scoreBefore_step d _ Hd Hc).
  pose proof (scoreBefore_range (S d)). unfold in_range, min_int, max_int in *. lia.
Qed.

(** A row without nodes adds nothing. *)
Lemma score_skip_empty (d : nat) (upper : option (list Z)) :
  (1 ≤ d)%nat →
  leafPath !! (d - 1)%nat = Some upper → leafPath !! d = Some None →
  scoreBefore E g leafPath (S d) = scoreBefore E g leafPath d.
Proof.
  intros Hd Hu Hl.
  destruct (fastEdges g (RowIDs g) !! (d - 1)%nat) as [e|] eqn:He.
  - rewrite <- (score_add_pair d e upper None) by done. cbn [default].
    rewrite Hempty. unfold addInt. rewrite Z.add_0_r. apply wrap_small.
    pose proof (scoreBefore_range d). unfold in_range, min_int, max_int in *. lia.
  - unfold scoreBefore. fold counts. rewrite !take_ge; [done|..].
    all: destruct (pairCounts_length E (fastEdges g (RowIDs g)) leafPath) as [_ Hl2].
    all: apply lookup_ge_None in He; fold counts in Hl2; lia.
Qed.

End ScoreFacts.

(** [dfs] leaves the rows above [depth] as they are. *)
Lemma dfsReaches_agrees (E : Collaborators) (s : solver) (depth score : Z)
    (path leafPath : searchPath) (leafScore : Z) :
  dfsReaches E s depth score path leafPath leafScore →
  ∀ d : nat, depth = Z.of_nat d →
    length leafPath = length path
    ∧ ∀ i, (i < d)%nat → leafPath !! i = path !! i.
Proof.
  induction 1 as [depth score path Hd
    | depth score path rowID leafPath leafScore Hd Hrow Hnodes _ IH
    | depth score path rowID prevID prevRow e candidates candidate leafPath
        leafScore Hd Hrow Hnodes Hprev HprevID Hgen Hcand He _ IH];
    intros d ->; [done|..].
  all: destruct (IH (S d)) as [Hlen Hsame]; [lia|].
  all: rewrite length_insert in Hlen; split; [done|].
  all: intros i Hi; rewrite Hsame by lia.
  all: rewrite Nat2Z.id; apply list_lookup_insert_ne; lia.
Qed.

(** [dfs] hands to [updateBest] the score of the path it hands over, when
    it was called with the score of the rows above [depth]. *)
Lemma dfsReaches_score (E : Collaborators) (g : DAG)
    (depth score : Z) (path leafPath : searchPath) (leafScore : Z) :
  (∀ e upper lower, 0 <= CountCrossingsIdx E e upper lower) →
  (∀ e upper, CountCrossingsIdx E e upper [] = 0) →
  dfsReaches E (newSolver g) depth score path leafPath leafScore →
  foldr Z.add 0 (pairCounts E (fastEdges g (RowIDs g)) leafPath) <= max_int →
  ∀ d : nat, depth = Z.of_nat d → (1 ≤ d)%nat →
    length path = length (RowIDs g) →
    score = scoreBefore E g leafPath d →
    leafScore = foldr Z.add 0 (pairCounts E (fastEdges g (RowIDs g)) leafPath).
Proof.
  intros Hnonneg Hempty Hdfs. pose proof Hdfs as Hwhole. revert Hwhole.
  induction Hdfs as [depth score path Hd
    | depth score path rowID leafPath leafScore Hd Hrow Hnodes Hsub IH
    | depth score path rowID prevID prevRow e candidates candidate leafPath
        leafScore Hd Hrow Hnodes Hprev HprevID Hgen Hcand He Hsub IH];
    intros Hwhole Htotal d -> Hd1 Hlen Hscore; cbn [rows newSolver edges] in *.
  - subst score. apply scoreBefore_end.
    destruct (pairCounts_length E (fastEdges g (RowIDs g)) path) as [Hl _].
    unfold len in Hd. lia.
  - apply index_lookup in Hrow as [_ Hrow]. rewrite Nat2Z.id in *.
    apply lookup_lt_Some in Hrow.
    destruct (dfsReaches_agrees _ _ _ _ _ _ _ Hsub (S d)) as [Hl Hsame]; [lia|].
    rewrite length_insert in Hl.
    destruct (lookup_lt_is_Some_2 path (d - 1)) as [upper Hupper]; [lia|].
    apply (IH Hsub Htotal (S d)); [lia | lia | by rewrite length_insert |].
    rewrite Hscore. symmetry.
    apply (score_skip_empty E g leafPath Hnonneg Hempty Htotal d upper); [done|..].
    + rewrite Hsame by lia. rewrite list_lookup_insert_ne by lia. done.
    + rewrite Hsame by lia. apply list_lookup_insert_eq. lia.
  - apply index_lookup in Hrow as [_ Hrow]. rewrite Nat2Z.id in *.
    apply lookup_lt_Some in Hrow.
    apply index_lookup in Hprev as [_ Hprev]. apply index_lookup in He as [_ He].
    replace (Z.to_nat (Z.of_nat d - 1)) with (d - 1)%nat in * by lia.
    destruct (dfsReaches_agrees _ _ _ _ _ _ _ Hsub (S d)) as [Hl Hsame]; [lia|].
    rewrite length_insert in Hl.
    apply (IH Hsub Htotal (S d)); [lia | lia | by rewrite length_insert |].
    rewrite Hscore.
    apply (score_add_pair E g leafPath Hnonneg Htotal d e prevRow (Some candidate));
      [done | done |..].
    + rewrite Hsame by lia. rewrite list_lookup_insert_ne by lia. done.
    + rewrite Hsame by lia. apply list_lookup_insert_eq. lia.
Qed.

(** [buildPrefix] leaves the rows above [depth] as they are. *)
Lemma buildPrefixFrom_agrees (E : Collaborators) (s : solver) (count : nat) :
  ∀ (d : nat) (prefix prefix' : searchPath) (score score' : Z),
    buildPrefixFrom E s count (Z.of_nat d) prefix score = Some (prefix', score') →
    length prefix' = length prefix
    ∧ ∀ i, (i < d)%nat → prefix' !! i = prefix !! i.
Proof.
  induction count as [|count IH]; intros d prefix prefix' score score' Hb;
    cbn [buildPrefixFrom] in Hb; [by simplify_eq|].
  destruct (Perm.index (rows s) (Z.of_nat d)) as [r|]; [|done].
  rewrite Nat2Z.id in Hb.
  replace (Z.of_nat d + 1) with (Z.of_nat (S d)) in Hb by lia.
  assert (Hrec : ∃ score1,
    buildPrefixFrom E s count (Z.of_nat (S d))
      (<[d := Some (Seq E (len (nodesAt (rowNodes s) r)))]> prefix) score1
    = Some (prefix', score')).
  { destruct (Z.of_nat d >? 0); [|by eauto].
    destruct (Perm.index (edges s) _); [by eauto | done]. }
  destruct Hrec as [score1 Hrec]. apply IH in Hrec as [Hlen Hsame].
  rewrite length_insert in Hlen. split; [done|].
  intros i Hi. rewrite Hsame by lia. apply list_lookup_insert_ne. lia.
Qed.

(** [buildPrefix] returns the score of the rows it has filled. *)
Lemma buildPrefixFrom_score (E : Collaborators) (g : DAG) (leafPath : searchPath) :
  (∀ e upper lower, 0 <= CountCrossingsIdx E e upper lower) →
  foldr Z.add 0 (pairCounts E (fastEdges g (RowIDs g)) leafPath) <= max_int →
  ∀ (count d : nat) (prefix prefix' : searchPath) (score score' : Z),
    buildPrefixFrom E (newSolver g) count (Z.of_nat d) prefix score
    = Some (prefix', score') →
    length prefix = length (RowIDs g) →
    (∀ i, (i < d + count)%nat → leafPath !! i = prefix' !! i) →
    score = scoreBefore E g leafPath d →
    score' = scoreBefore E g leafPath (d + count).
Proof.
  intros Hnonneg Htotal.
  induction count as [|count IH];
    intros d prefix prefix' score score' Hb Hlen Hleaf Hscore;
    cbn [buildPrefixFrom] in Hb.
  { simplify_eq. by rewrite Nat.add_0_r. }
  cbn [rows newSolver rowNodes edges] in Hb.
  destruct (Perm.index (RowIDs g) (Z.of_nat d)) as [r|] eqn:Hr; [|done].
  apply index_lookup in Hr as [_ Hr]. rewrite Nat2Z.id in *.
  apply lookup_lt_Some in Hr.
  replace (d + S count)%nat with (S d + count)%nat in * by lia.
  replace (Z.of_nat d + 1) with (Z.of_nat (S d)) in Hb by lia.
  set (order := Seq E (len (nodesAt (rowNodesOf g (RowIDs g)) r))) in *.
  destruct (Z.of_nat d >? 0) eqn:Hd;
    [apply Z.gtb_lt in Hd | rewrite Z.gtb_ltb in Hd; apply Z.ltb_ge in Hd].
  - destruct (Perm.index _ _) as [e|] eqn:He; [|done].
    apply index_lookup in He as [_ He].
    replace (Z.of_nat d - 1) with (Z.of_nat (d - 1)) in * by lia.
    rewrite Nat2Z.id in He.
    destruct (buildPrefixFrom_agrees _ _ _ _ _ _ _ _ Hb) as [_ Hsame].
    destruct (lookup_lt_is_Some_2 prefix (d - 1)) as [upper Hupper]; [lia|].
    apply (IH _ _ _ _ _ Hb); [by rewrite length_insert | done |].
    rewrite (rowOf_lookup _ _ upper) by (by rewrite list_lookup_insert_ne by lia).
    rewrite Hscore.
    apply (score_add_pair E g leafPath Hnonneg Htotal d e upper (Some order));
      [lia | done |..].
    + rewrite Hleaf, Hsame by lia. by rewrite list_lookup_insert_ne by lia.
    + rewrite Hleaf, Hsame by lia. apply list_lookup_insert_eq. lia.
  - apply (IH _ _ _ _ _ Hb); [by rewrite length_insert | done |].
    rewrite Hscore. assert (d = 0%nat) as -> by lia. done.
Qed.

(** Every call of [updateBest] that a task of [search] can make carries the
    score of the path it carries. *)
Lemma searchReaches_score (E : Collaborators) (g : DAG) (leafPath : searchPath)
    (leafScore : Z) :
  (∀ e upper lower, 0 <= CountCrossingsIdx E e upper lower) →
  (∀ e upper, CountCrossingsIdx E e upper [] = 0) →
  searchReaches E (newSolver g) leafPath leafScore →
  foldr Z.add 0 (pairCounts E (fastEdges g (RowIDs g)) leafPath) <= max_int →
  leafScore = foldr Z.add 0 (pairCounts E (fastEdges g (RowIDs g)) leafPath).
Proof.
  intros Hnonneg Hempty Hreach Htotal.
  destruct Hreach as [prefix prefixScore starts start score leafPath leafScore
                        parallelRow Hprefix Hstarts Hstart Hscore Hdfs].
  assert (Hpr : 0 <= parallelRow) by (by apply findParallelRowFrom_nonneg).
  unfold generateStartPermutations in Hstarts. cbn [rows newSolver] in Hstarts.
  destruct (Perm.index (RowIDs g) parallelRow) as [r|] eqn:Hr; [|done].
  apply index_lookup in Hr as [_ Hr]. apply lookup_lt_Some in Hr. clear Hstarts.
  unfold buildPrefix in Hprefix. cbn [rows newSolver] in Hprefix.
  destruct (buildPrefixFrom_agrees _ _ _ 0%nat _ _ _ _ Hprefix) as [Hlen _].
  rewrite length_replicate in Hlen.
  destruct (dfsReaches_agrees _ _ _ _ _ _ _ Hdfs (S (Z.to_nat parallelRow)))
    as [Hl Hsame]; [lia|].
  rewrite length_insert in Hl.
  apply (buildPrefixFrom_score E g leafPath Hnonneg Htotal _ 0%nat) in Hprefix;
    [|by rewrite length_replicate | | done].
  2:{ intros i Hi. rewrite Hsame by lia. apply list_lookup_insert_ne. lia. }
  cbn [Nat.add] in Hprefix.
  apply (dfsReaches_score E g _ _ _ _ _ Hnonneg Hempty Hdfs Htotal
           (S (Z.to_nat parallelRow))); [lia | lia | by rewrite length_insert, Hlen |].
  destruct (parallelRow >? 0) eqn:Hp;
    [apply Z.gtb_lt in Hp | rewrite Z.gtb_ltb in Hp; apply Z.ltb_ge in Hp].
  - destruct Hscore as (e & He & ->). cbn [edges newSolver] in He.
    apply index_lookup in He as [_ He].
    destruct (lookup_lt_is_Some_2 prefix (Z.to_nat parallelRow - 1)) as [upper Hupper];
      [lia|].
    replace (parallelRow - 1) with (Z.of_nat (Z.to_nat parallelRow - 1)) in * by lia.
    rewrite Nat2Z.id in He. rewrite (rowOf_lookup _ _ upper Hupper), Hprefix.
    apply (score_add_pair E g leafPath Hnonneg Htotal _ e upper (Some start));
      [lia | done |..].
    + rewrite Hsame by lia. by rewrite list_lookup_insert_ne by lia.
    + rewrite Hsame by lia. apply list_lookup_insert_eq. lia.
  - subst score. rewrite Hprefix. assert (parallelRow = 0) as -> by lia. done.
Qed.


(** ** C2 *)

Lemma specCollaborators_sound : soundCollaborators specCollaborators.
Proof.
  split; cbn.
  - done.
  - done.
  - intros n limit p Hp. symmetry. apply permutations_Permutation.
    unfold specGenerate in Hp. destruct (limit >? 0); [|done].
    by apply (subseteq_take (Z.to_nat limit)).
Qed.

Lemma k22_uniqueIDs : uniqueIDs k22.
Proof.
  intros r Hr. cbn in Hr.
  apply elem_of_cons in Hr as [-> | Hr];
    [|apply elem_of_cons in Hr as [-> | Hr]; [|by apply elem_of_nil in Hr]].
  all: apply (bool_decide_unpack _); by vm_compute.
Qed.

(** C2: for every graph whose rows have nodes of distinct identifiers,
    [OptimalSearch.OrderRows] returns, and whatever map it returns gives
    every non-empty row an arrangement of exactly the identifiers of the
    nodes of that row, each once. *)
Theorem C2_OrderRows_arranges_every_row (E : Collaborators) (g : DAG) :
  soundCollaborators E → uniqueIDs g →
  (∃ m, OrderRowsReturns E g m)
  ∧ ∀ m, OrderRowsReturns E g m →
      ∀ r, r ∈ RowIDs g → NodesInRow g r ≠ [] →
        ∃ ids, entriesOf m !! r = Some ids
               ∧ ids ≡ₚ ID <$> NodesInRow g r
               ∧ NoDup ids.
Proof.
  intros Hsound Huniq.
  assert (Hfinish : ∀ orders r, ordersKeep g (RowIDs g) orders →
            r ∈ RowIDs g → NodesInRow g r ≠ [] →
            ∃ ids, orders !! r = Some ids ∧ ids ≡ₚ ID <$> NodesInRow g r ∧ NoDup ids).
  { intros orders r [Hv Hk] Hr Hne. destruct (Hk r Hr Hne) as [ids Hids].
    exists ids. split; [done|]. pose proof (Hv r ids Hids) as Hp.
    split; [done|]. rewrite Hp. by apply Huniq. }
  destruct (BarycentricOrderRows_valid E Hsound g 0) as (initial & Hbary & Hinit).
  split.
  - destruct (decide (len (RowIDs g) = 0)) as [H0 | H0];
      [exists nilOrders; by constructor|].
    destruct (Hinit H0) as (orders & -> & Hkeep).
    destruct (decide (CountCrossings E g orders = 0)) as [Hc | Hc].
    { exists (ordersOf orders). by apply returns_initial. }
    destruct (toIndexPath_valid g orders Huniq Hkeep) as (path0 & Hpath0 & Hvalid0).
    destruct (toStringOrder_valid g path0 Hvalid0) as (result & Hresult & _).
    exists (ordersOf result).
    apply (returns_best E g (ordersOf orders) path0
             (mkShared (CountCrossings E g orders) path0 0 false) []);
      [done | done | done | done | apply rtc_refl | by constructor | done].
  - intros m Hret r Hr Hne.
    destruct Hret as [H0 | initial' Hrows Hbary' _
      | initial' path0 final cs result Hrows Hbary' _ Hpath0 Hrun _ Hresult].
    + unfold len in H0. destruct (RowIDs g); [by apply elem_of_nil in Hr | done].
    + destruct (Hinit Hrows) as (orders & -> & Hkeep). simplify_eq. cbn. eauto.
    + destruct (Hinit Hrows) as (orders & -> & Hkeep). simplify_eq.
      cbn [entriesOf] in *.
      destruct (toIndexPath_valid g orders Huniq Hkeep) as (path0' & Hpath0' & Hvalid0).
      simplify_eq.
      destruct (searchStep_paths _ (pathValid g)
                  (λ path score, searchReaches_valid E Hsound g path score)
                  _ _ Hrun) as [Hbest _]; [done | done |]. cbn [fst] in Hbest.
      destruct (toStringOrder_valid g _ Hbest) as (result' & Hresult' & Hv & Hk).
      cbn [rowNodes rows newSolver] in Hresult. simplify_eq.
      apply Hfinish; [by split | done..].
Qed.

Lemma C2_OrderRows_arranges_every_row_witness :
  (∃ m, OrderRowsReturns specCollaborators k22 m)
  ∧ ∀ m, OrderRowsReturns specCollaborators k22 m →
      ∀ r, r ∈ RowIDs k22 → NodesInRow k22 r ≠ [] →
        ∃ ids, entriesOf m !! r = Some ids
               ∧ ids ≡ₚ ID <$> NodesInRow k22 r
               ∧ NoDup ids.
Proof.
  apply (C2_OrderRows_arranges_every_row specCollaborators k22).
  - exact specCollaborators_sound.
  - exact k22_uniqueIDs.
Defined.

(** ** C3 *)


(** The reference counters agree on the graph [fork]. *)
Lemma inversions_nonneg (groups : list (list Z)) : 0 <= inversions groups.
Proof. induction groups as [|ps rest IH]; cbn [inversions]; unfold len; lia. Qed.

Lemma specCountCrossingsIdx_empty (e : list (list Z)) (upper : list Z) :
  specCountCrossingsIdx e upper [] = 0.
Proof.
  unfold specCountCrossingsIdx.
  assert (Hnone : ∀ vs : list Z, omap (λ v, indexFrom v [] 0) vs = []).
  { induction vs as [|v vs IH]; [done | exact IH]. }
  induction upper as [|u upper IH]; [done|].
  cbn [fmap list_fmap inversions]. rewrite Hnone. cbn. exact IH.
Qed.





(** On [fork] a task of [search] can reach the drawing without crossings:
    [a c b] above [d f e]. *)
Lemma fork_searchReaches :
  searchReaches specCollaborators (newSolver fork)
    [Some [0; 2; 1]; Some [0; 2; 1]] 0.
Proof.
  apply (search_task specCollaborators (newSolver fork) [None; None] 0
           (permutations [0; 1; 2]) [0; 2; 1] 0).
  - by vm_compute.
  - by vm_compute.
  - cbn. repeat ((by apply list_elem_of_here) || apply list_elem_of_further).
  - by vm_compute.
  - apply (dfs_candidate specCollaborators (newSolver fork) 1 0
             [Some [0; 2; 1]; None] 1 0 (Some [0; 2; 1])
             [[0]; [1]; [0; 2]]
             [[0; 2; 1]; [2; 0; 1]; [1; 0; 2]; [1; 2; 0]]
             [0; 2; 1]);
      [by vm_compute | by vm_compute | by vm_compute | by vm_compute
      | by vm_compute | by vm_compute | apply list_elem_of_here | by vm_compute |].
    apply dfs_leaf. by vm_compute.
Qed.


End OrderingFacts.

(** * Further properties of the PQ-tree *)

Section PQTreeProperties.

Import GoInt Perm.

(** ** The enumeration as a list *)

Lemma runList_single {St A : Type} (x : A) (fn : callback A) (st : St) :
  runList [x] fn st = fn x st.
Proof. cbn. by destruct (fn x st) as [[[] st']|]. Qed.

Lemma runList_app {St A : Type} (xs ys : list A) (fn : callback A) :
  ∀ st : St,
    runList (xs ++ ys) fn st
    = match runList xs fn st with
      | Some (true, st') => runList ys fn st'
      | r => r
      end.
Proof.
  induction xs as [|x xs IH]; intros st; cbn; [done|].
  destruct (fn x st) as [[[] st']|]; [apply IH | done..].
Qed.

Lemma runList_ext {St A : Type} (xs : list A) (fn fn' : callback A) :
  (∀ x st, x ∈ xs → fn x st = fn' x st) →
  ∀ st : St, runList xs fn st = runList xs fn' st.
Proof.
  induction xs as [|x xs IH]; intros Hfn st; cbn; [done|].
  rewrite <- (Hfn x st) by apply list_elem_of_here.
  destruct (fn x st) as [[[] st']|]; [|done..].
  apply IH. intros y st0 Hy. apply Hfn. by apply list_elem_of_further.
Qed.

Lemma runList_bind {St A B : Type} (xs : list A) (f : A → list B)
    (fn : callback B) :
  ∀ st : St,
    runList xs (λ x, runList (f x) fn) st = runList (xs ≫= f) fn st.
Proof.
  induction xs as [|x xs IH]; intros st; cbn; [done|].
  rewrite runList_app.
  destruct (runList (f x) fn st) as [[[] st']|]; [apply IH | done..].
Qed.

Lemma runList_fmap {St A B : Type} (xs : list A) (f : A → B) (fn : callback B) :
  ∀ st : St, runList (f <$> xs) fn st = runList xs (λ x, fn (f x)) st.
Proof.
  induction xs as [|x xs IH]; intros st; cbn; [done|].
  destruct (fn (f x) st) as [[[] st']|]; [apply IH | done..].
Qed.

(** The loop over the permutations of a P-node is a run of the callback
    over [heapPerms], which are permutations of the children, one for every
    step the counter [state] is short of its last value. *)
Lemma heapLoop_trace {St : Type} (cs : list pqNode) :
  ∀ (fuel i : nat) (rest : list Z) (perm : list pqNode),
    perm ≡ₚ cs → (i ≤ length cs)%nat → length rest = (length cs - i)%nat →
    (∀ k d, rest !! k = Some d → 0 <= d <= Z.of_nat (i + k)) →
    (fact (length cs) - 1 - (fact i - 1 + weight i rest))
      * (Z.of_nat (length cs) + 1) + Z.of_nat (length cs - i) + 1
    <= Z.of_nat fuel →
    let xs := heapPerms fuel (Z.of_nat (length cs)) perm (replicate i 0 ++ rest)
                (Z.of_nat i) in
    (∀ (fn : callback (list pqNode)) (st : St),
       heapLoop fuel fn (Z.of_nat (length cs)) perm (replicate i 0 ++ rest)
         (Z.of_nat i) st = runList xs fn st)
    ∧ Forall (λ p, p ≡ₚ cs) xs
    ∧ Z.of_nat (length xs)
      = fact (length cs) - 1 - (fact i - 1 + weight i rest).
Proof.
  set (n := length cs).
  induction fuel as [|fuel IH]; intros i rest perm Hperm Hi Hlen Hdig Hfuel.
  { exfalso. destruct (weight_bound rest i Hdig) as [_ Hw].
    rewrite Hlen in Hw. replace (i + (n - i))%nat with n in Hw by lia.
    fold n in Hfuel. nia. }
  cbn [heapLoop heapPerms].
  destruct (Z.of_nat i <? Z.of_nat n) eqn:Ei;
    [apply Z.ltb_lt in Ei | apply Z.ltb_ge in Ei].
  2:{ cbn. split_and!; [done | done |].
      assert (i = n) as -> by lia. fold n in Hlen.
      destruct rest; [cbn; lia | cbn in Hlen; lia]. }
  destruct rest as [|si rest']; [cbn in Hlen; lia|].
  rewrite index_nat, lookup_app_r, length_replicate, Nat.sub_diag by
    (rewrite length_replicate; lia). cbn [lookup list_lookup].
  assert (Hsi : 0 <= si <= Z.of_nat i).
  { specialize (Hdig 0%nat si eq_refl). by rewrite Nat.add_0_r in Hdig. }
  assert (Hpl : length perm = n) by (by rewrite Hperm).
  assert (Hins : ∀ x, <[Z.to_nat (Z.of_nat i) := x]> (replicate i 0 ++ si :: rest')
                      = replicate i 0 ++ x :: rest').
  { intros x. rewrite Nat2Z.id, insert_app_r_alt, length_replicate, Nat.sub_diag
      by (rewrite length_replicate; lia). done. }
  cbn [length] in Hlen. cbn [weight] in Hfuel. cbn [weight].
  destruct (si <? Z.of_nat i) eqn:Esi;
    [apply Z.ltb_lt in Esi | apply Z.ltb_ge in Esi].
  - assert (∃ perm', (if Z.land (Z.of_nat i) 1 =? 0 then swap perm 0 (Z.of_nat i)
                      else swap perm si (Z.of_nat i)) = Some perm'
                     ∧ perm' ≡ₚ perm) as (perm' & -> & Hperm').
    { destruct (_ =? 0).
      - apply (swap_Permutation perm 0 i); lia.
      - rewrite <- (Z2Nat.id si) by lia. apply swap_Permutation; lia. }
    rewrite Hins.
    destruct (IH 0%nat (replicate i 0 ++ (si + 1) :: rest') perm')
      as (Hrun & Hall & Hcount).
    + by rewrite Hperm'.
    + lia.
    + rewrite length_app, length_replicate. cbn [length]. lia.
    + intros k d Hk. cbn [Nat.add].
      destruct (decide (k < i)%nat) as [Hki | Hki].
      * rewrite lookup_app_l in Hk by (rewrite length_replicate; lia).
        apply lookup_replicate in Hk as [-> _]. lia.
      * rewrite lookup_app_r in Hk by (rewrite length_replicate; lia).
        rewrite length_replicate in Hk.
        destruct (k - i)%nat as [|k'] eqn:Ek; cbn in Hk.
        -- simplify_eq. lia.
        -- specialize (Hdig (S k') d Hk). lia.
    + rewrite weight_app, weight_zeros, length_replicate. cbn [weight Nat.add fact].
      fold n. fold n in Hfuel. nia.
    + cbn [replicate app] in Hrun, Hall, Hcount.
      change (Z.of_nat 0) with 0 in Hrun, Hall, Hcount. split_and!.
      * intros fn st. cbn [runList].
        destruct (fn perm' st) as [[[] st']|]; [apply Hrun | done..].
      * constructor; [by rewrite Hperm' | done].
      * cbn [length]. rewrite Nat2Z.inj_succ, Hcount.
        rewrite weight_app, weight_zeros, length_replicate.
        cbn [weight Nat.add fact]. fold n. lia.
  - assert (si = Z.of_nat i) as -> by lia.
    rewrite Hins. replace (replicate i 0 ++ 0 :: rest') with (replicate (S i) 0 ++ rest')
      by (rewrite replicate_S_end, <- app_assoc; done).
    replace (Z.of_nat i + 1) with (Z.of_nat (S i)) by lia.
    destruct (IH (S i) rest' perm) as (Hrun & Hall & Hcount); try done.
    + lia.
    + lia.
    + intros k d Hk. specialize (Hdig (S k) d Hk). lia.
    + fold n. fold n in Hfuel. rewrite fact_succ. nia.
    + split_and!; [done | done |]. rewrite Hcount. fold n. rewrite fact_succ. lia.
Qed.

Lemma heapPerms_start (cs : list pqNode) :
  let xs := heapPerms (heapFuel (length cs)) (Z.of_nat (length cs)) cs
              (replicate (length cs) 0) 0 in
  (∀ (St : Type) (fn : callback (list pqNode)) (st : St),
     heapLoop (heapFuel (length cs)) fn (Z.of_nat (length cs)) cs
       (replicate (length cs) 0) 0 st = runList xs fn st)
  ∧ Forall (λ p, p ≡ₚ cs) xs
  ∧ Z.of_nat (length xs) = fact (length cs) - 1.
Proof.
  assert (Hpre : (0 ≤ length cs)%nat
                 ∧ length (replicate (length cs) 0) = (length cs - 0)%nat
                 ∧ (∀ k d, replicate (length cs) 0 !! k = Some d →
                           0 <= d <= Z.of_nat (0 + k))
                 ∧ (fact (length cs) - 1
                    - (fact 0 - 1 + weight 0 (replicate (length cs) 0)))
                   * (Z.of_nat (length cs) + 1) + Z.of_nat (length cs - 0) + 1
                   <= Z.of_nat (heapFuel (length cs))).
  { split_and!.
    - lia.
    - rewrite length_replicate. lia.
    - intros k d [-> _]%lookup_replicate. lia.
    - rewrite weight_zeros. unfold heapFuel. cbn [fact].
      rewrite Nat2Z.inj_succ, Nat2Z.inj_mul, factNat_fact, Nat2Z.inj_succ.
      pose proof (fact_pos (length cs)). nia. }
  destruct Hpre as (H1 & H2 & H3 & H4). cbn zeta. split_and!.
  - intros St fn st.
    destruct (heapLoop_trace (St := St) cs (heapFuel (length cs)) 0%nat
                (replicate (length cs) 0) cs) as (Hrun & _); [done..|].
    apply Hrun.
  - destruct (heapLoop_trace (St := unit) cs (heapFuel (length cs)) 0%nat
                (replicate (length cs) 0) cs) as (_ & Hall & _); [done..|].
    apply Hall.
  - destruct (heapLoop_trace (St := unit) cs (heapFuel (length cs)) 0%nat
                (replicate (length cs) 0) cs) as (_ & _ & Hcount); [done..|].
    cbn [replicate app] in Hcount. change (Z.of_nat 0) with 0 in Hcount.
    rewrite Hcount, weight_zeros. cbn [fact]. lia.
Qed.

(** [forEachChildPerm] is a run of its callback over [childPerms]. *)
Lemma forEachChildPerm_trace {St : Type} (node : pqNode)
    (fn : callback (list pqNode)) (st : St) :
  forEachChildPerm node fn st = runList (childPerms node) fn st.
Proof.
  unfold forEachChildPerm, childPerms.
  destruct (nodeKind_eqb (kind node) qNode).
  - destruct (len (children node) <=? 1); cbn [runList];
      destruct (fn (children node) st) as [[[] st']|]; try done.
    by destruct (fn (rev (children node)) st') as [[[] st'']|].
  - destruct (len (children node) =? 0) eqn:E0.
    { apply Z.eqb_eq in E0. unfold len in E0.
      destruct (children node); [|cbn in E0; lia].
      by rewrite runList_single. }
    destruct (len (children node) =? 1); [by rewrite runList_single|].
    cbn [runList]. destruct (fn (children node) st) as [[[] st']|]; [|done..].
    destruct (heapPerms_start (children node)) as (Hrun & _). unfold len. apply Hrun.
Qed.

(** What [forEachChildPerm] hands to its callback: first the children as
    they stand, and only permutations of them; two orders for a Q-node
    with more than one child, [n!] for a P-node with [n] children. *)
Lemma childPerms_spec (node : pqNode) :
  (∃ others, childPerms node = children node :: others)
  ∧ Forall (λ p, p ≡ₚ children node) (childPerms node)
  ∧ (kind node = qNode →
     ∀ p, p ∈ childPerms node → p = children node ∨ p = rev (children node))
  ∧ Z.of_nat (length (childPerms node))
    = if nodeKind_eqb (kind node) qNode
      then (if len (children node) <=? 1 then 1 else 2)
      else fact (length (children node)).
Proof.
  unfold childPerms. destruct (nodeKind_eqb (kind node) qNode) eqn:Ek.
  - destruct (len (children node) <=? 1); (split_and!; [by eexists | | | done]).
    + by repeat constructor.
    + intros _ p ->%list_elem_of_singleton. by left.
    + repeat constructor; [done | symmetry; apply Permutation_rev].
    + intros _ p [-> | ->%list_elem_of_singleton]%elem_of_cons; [by left | by right].
  - assert (Hk : kind node ≠ qNode).
    { intros Hk. rewrite Hk in Ek. done. }
    destruct (len (children node) =? 0) eqn:E0.
    { apply Z.eqb_eq in E0. unfold len in E0.
      destruct (children node); [|cbn in E0; lia].
      split_and!; [by eexists | by repeat constructor | done | done]. }
    destruct (len (children node) =? 1) eqn:E1.
    { apply Z.eqb_eq in E1. unfold len in E1.
      destruct (children node) as [|c [|c' cs]]; cbn in E1; try lia.
      split_and!; [by eexists | by repeat constructor | done | done]. }
    destruct (heapPerms_start (children node)) as (_ & Hall & Hcount).
    split_and!; [by eexists | by constructor | done |]. 
    cbn [length]. unfold len. rewrite Nat2Z.inj_succ, Hcount. lia.
Qed.

Lemma fmap_bind_list {A B C : Type} (f : B → C) (g : A → list B) (l : list A) :
  f <$> (l ≫= g) = l ≫= (λ x, f <$> g x).
Proof.
  induction l as [|x l IH]; [done|]. cbn. by rewrite fmap_app, IH.
Qed.

Lemma bind_ext_list {A B : Type} (g g' : A → list B) (l : list A) :
  (∀ x, x ∈ l → g x = g' x) → l ≫= g = l ≫= g'.
Proof.
  induction l as [|x l IH]; intros Hg; [done|]. cbn.
  rewrite (Hg x) by apply list_elem_of_here.
  rewrite IH; [done|]. intros y Hy. apply Hg. by apply list_elem_of_further.
Qed.

(** [enumerateChildrenLazy] and [enumerateLazy] are runs of [emit] over
    [childOrderings] and [orderings], each after the prefix. *)
Lemma enumerateChildren_trace {St : Type} (depth : nat) (cs : list pqNode) :
  Forall (λ c, ∀ prefix (emit : callback (list Z)) (st : St),
            enumerateLazy depth c prefix emit st
            = runList ((λ q, prefix ++ q) <$> orderings depth c) emit st) cs →
  ∀ prefix (emit : callback (list Z)) (st : St),
    enumerateChildrenWith (enumerateLazy depth) cs prefix emit st
    = runList ((λ q, prefix ++ q) <$> childOrderings (orderings depth) cs) emit st.
Proof.
  induction 1 as [|c cs Hc _ IH]; intros prefix emit st;
    cbn [enumerateChildrenWith childOrderings].
  { cbn. rewrite app_nil_r. by destruct (emit prefix st) as [[[] st']|]. }
  rewrite Hc. cbn [app]. rewrite list_fmap_id.
  rewrite (runList_ext _ _
             (λ p, runList ((λ q, (prefix ++ p) ++ q)
                            <$> childOrderings (orderings depth) cs) emit))
    by (intros p st0 _; apply IH).
  rewrite runList_bind, fmap_bind_list. f_equal.
  apply bind_ext_list. intros p _. rewrite <- list_fmap_compose.
  apply list_fmap_ext. intros _ q _. cbn. by rewrite app_assoc.
Qed.

Lemma enumerateLazy_trace {St : Type} (depth : nat) :
  ∀ node, proper node → (height node ≤ depth)%nat →
    ∀ prefix (emit : callback (list Z)) (st : St),
      enumerateLazy depth node prefix emit st
      = runList ((λ q, prefix ++ q) <$> orderings depth node) emit st.
Proof.
  induction depth as [|depth IH]; intros node Hp Hh prefix emit st.
  { destruct node; cbn in Hh; lia. }
  rewrite enumerateLazy_eq. cbn [orderings].
  destruct (nodeKind_eqb (kind node) leafNode) eqn:Ek.
  { cbn. by destruct (emit (prefix ++ [value node]) st) as [[[] st']|]. }
  assert (Hk : kind node ≠ leafNode) by (intros Hk; by rewrite Hk in Ek).
  destruct (proper_inner_children _ Hp Hk) as [_ Hall].
  rewrite forEachChildPerm_trace.
  destruct (childPerms_spec node) as (_ & Hperms & _).
  rewrite (runList_ext _ _
             (λ cs, runList ((λ q, prefix ++ q)
                             <$> childOrderings (orderings depth) cs) emit)).
  - by rewrite runList_bind, fmap_bind_list.
  - intros cs st0 Hcs. unfold enumerateChildrenLazy.
    apply enumerateChildren_trace. apply Forall_forall. intros c Hc.
    rewrite Forall_forall in Hperms. rewrite (Hperms cs Hcs) in Hc.
    apply IH.
    + rewrite Forall_forall in Hall. auto.
    + pose proof (height_children node c Hc). lia.
Qed.

Lemma kind_inner (node : pqNode) :
  nodeKind_eqb (kind node) leafNode = false → kind node = pNode ∨ kind node = qNode.
Proof. destruct (kind node); cbn; [done | by left | by right]. Qed.

Lemma childOrderings_head (ords : pqNode → list (list Z)) (cs : list pqNode) :
  Forall (λ c, ∃ others, ords c = leafValues c :: others) cs →
  ∃ others, childOrderings ords cs = (cs ≫= leafValues) :: others.
Proof.
  induction 1 as [|c cs [tl Hc] _ [tl' IH]]; cbn [childOrderings]; [by eexists|].
  rewrite Hc, IH. cbn. by eexists.
Qed.

Lemma childOrderings_admits (ords : pqNode → list (list Z)) (cs : list pqNode) :
  Forall (λ c, Forall (admits c) (ords c)) cs →
  Forall (λ o, ∃ parts, o = mjoin parts ∧ Forall2 admits cs parts)
    (childOrderings ords cs).
Proof.
  induction 1 as [|c cs Hc _ IH]; cbn [childOrderings].
  { constructor; [|done]. exists []. by split; [|constructor]. }
  apply Forall_forall. intros o Ho.
  apply list_elem_of_bind in Ho as (p & Ho & Hp).
  apply list_elem_of_fmap in Ho as (q & -> & Hq).
  rewrite Forall_forall in IH, Hc. destruct (IH q Hq) as (parts & -> & Hparts).
  exists (p :: parts). split; [done|]. constructor; [by apply Hc | done].
Qed.

(** The orderings a node hands to [emit]: first its leaves as they stand,
    and only orderings the node admits. *)
Lemma orderings_spec (depth : nat) :
  ∀ node, proper node → (height node ≤ depth)%nat →
    (∃ others, orderings depth node = leafValues node :: others)
    ∧ Forall (admits node) (orderings depth node).
Proof.
  induction depth as [|depth IH]; intros node Hp Hh.
  { destruct node; cbn in Hh; lia. }
  cbn [orderings]. destruct (nodeKind_eqb (kind node) leafNode) eqn:Ek.
  { apply nodeKind_eqb_eq in Ek. split.
    - exists []. destruct node; cbn in *. by subst.
    - constructor; [by constructor | done]. }
  assert (Hk : kind node ≠ leafNode) by (intros Hk; by rewrite Hk in Ek).
  destruct (proper_inner_children _ Hp Hk) as [_ Hall].
  assert (Hchild : ∀ c, c ∈ children node →
            (∃ others, orderings depth c = leafValues c :: others)
            ∧ Forall (admits c) (orderings depth c)).
  { intros c Hc. apply IH.
    - rewrite Forall_forall in Hall. auto.
    - pose proof (height_children node c Hc). lia. }
  destruct (childPerms_spec node) as ([others Hfirst] & Hperms & HQ & _). split.
  - rewrite Hfirst. cbn.
    destruct (childOrderings_head (orderings depth) (children node))
      as [tl ->].
    { apply Forall_forall. intros c Hc. by apply Hchild. }
    rewrite (leafValues_inner node) by done. by eexists.
  - apply Forall_forall. intros o Ho.
    apply list_elem_of_bind in Ho as (cs & Ho & Hcs).
    rewrite Forall_forall in Hperms. specialize (Hperms cs Hcs).
    assert (Hadm : Forall (λ o, ∃ parts, o = mjoin parts ∧ Forall2 admits cs parts)
                     (childOrderings (orderings depth) cs)).
    { apply childOrderings_admits, Forall_forall. intros c Hc.
      apply Hchild. by rewrite <- Hperms. }
    rewrite Forall_forall in Hadm. destruct (Hadm o Ho) as (parts & -> & Hparts).
    destruct (kind_inner node Ek) as [HP | HQ'].
    + by apply (admits_P node cs).
    + apply (admits_Q node cs); [done | by apply HQ | done].
Qed.

(** [Enumerate] collects the orderings of the root, all of them for a
    limit that is not positive and the first [limit] of them otherwise. *)
Lemma collect_upto (limit : Z) (ords : list (list Z)) :
  ∀ results : list (list Z),
    (limit <= 0 ∨ len results < limit) →
    ∃ b,
      runList ords
        (λ perm results,
           Some ((limit <=? 0) || (len (results ++ [perm]) <? limit),
                 results ++ [perm])) results
      = Some (b, results
                 ++ (if limit <=? 0 then ords
                     else take (Z.to_nat (limit - len results)) ords)).
Proof.
  destruct (limit <=? 0) eqn:E0; [apply Z.leb_le in E0 | apply Z.leb_gt in E0].
  - cbn [orb]. induction ords as [|x ords IH]; intros results Hlim; cbn [runList].
    { exists true. by rewrite app_nil_r. }
    destruct (IH (results ++ [x])) as [b ->]; [lia|].
    exists b. by rewrite <- app_assoc.
  - cbn [orb]. induction ords as [|x ords IH]; intros results Hlim; cbn [runList].
    { exists true. by rewrite take_nil, app_nil_r. }
    destruct Hlim as [? | Hlim]; [lia|].
    assert (Hlen : len (results ++ [x]) = len results + 1).
    { unfold len. rewrite length_app. cbn. lia. }
    replace (Z.to_nat (limit - len results))
      with (S (Z.to_nat (limit - len results - 1))) by lia.
    cbn [take]. destruct (len (results ++ [x]) <? limit) eqn:E1.
    + apply Z.ltb_lt in E1. destruct (IH (results ++ [x])) as [b ->]; [lia|].
      exists b. rewrite <- app_assoc, Hlen. cbn.
      by replace (limit - (len results + 1)) with (limit - len results - 1) by lia.
    + apply Z.ltb_ge in E1. exists false.
      replace (Z.to_nat (limit - len results - 1)) with 0%nat by lia. done.
Qed.

Lemma Enumerate_trace (t : PQTree) (r : pqNode) (limit : Z) :
  wfTree t → root t = Some r →
  Enumerate t limit
  = Some (if limit <=? 0 then orderings (height r) r
          else take (Z.to_nat limit) (orderings (height r) r)).
Proof.
  unfold wfTree, Enumerate. intros Hwf Hr. rewrite Hr in *. destruct Hwf as [Hp _].
  rewrite enumerateLazy_trace by done. cbn [app]. rewrite list_fmap_id.
  destruct (collect_upto limit (orderings (height r) r) []) as [b ->].
  { unfold len. cbn. lia. }
  cbn. by rewrite Z.sub_0_r.
Qed.

(** ** [Reduce] and [Enumerate] on the trees of a run *)

(** X18: on every tree of a run, [Reduce] returns, whatever the constraint,
    and whether it returns true or false the tree afterwards still holds
    each of the leaves [0 .. n-1] exactly once: a failed reduction may
    regroup the tree but loses no leaf. *)
Theorem X18_Reduce_keeps_leaves (t : PQTree) (constraint : list Z) :
  reachable t →
  ∃ ok t',
    Reduce t constraint = Some (ok, t')
    ∧ leaves t' = leaves t
    ∧ match root t' with
      | Some r' => leafValues r' ≡ₚ Z.of_nat <$> seq 0 (leaves t)
      | None => leaves t = 0%nat
      end.
Proof.
  intros Hwf%reachable_wfTree.
  destruct (Reduce_wfTree t constraint Hwf) as (ok & t' & Hred & Hwf' & Hl).
  exists ok, t'. split_and!; [done | done |].
  unfold wfTree in Hwf'. rewrite Hl in Hwf'.
  destruct (root t'); [by destruct Hwf' | done].
Qed.

Lemma X18_Reduce_keeps_leaves_witness :
  ∃ ok t',
    Reduce (mkTree (Some (mkNode pNode 0 [newLeaf 0; newLeaf 1; newLeaf 2]
                            unmarked 0 0)) 3) [0; 2] = Some (ok, t')
    ∧ leaves t' = 3%nat
    ∧ match root t' with
      | Some r' => leafValues r' ≡ₚ Z.of_nat <$> seq 0 3
      | None => 3%nat = 0%nat
      end.
Proof.
  apply (X18_Reduce_keeps_leaves
           (mkTree (Some (mkNode pNode 0 [newLeaf 0; newLeaf 1; newLeaf 2]
                            unmarked 0 0)) 3) [0; 2]).
  apply (reach_new 3). reflexivity.
Defined.

(** X19: on every tree of a run [Enumerate] returns at least one ordering,
    and a positive limit cuts the enumeration short without changing it:
    [Enumerate(limit)] is the first [limit] orderings of [Enumerate(0)],
    and all of them when the limit is not positive. *)
Theorem X19_Enumerate_limit_is_prefix (t : PQTree) :
  reachable t →
  ∃ all,
    Enumerate t 0 = Some all
    ∧ all ≠ []
    ∧ ∀ limit,
        Enumerate t limit
        = Some (if limit <=? 0 then all else take (Z.to_nat limit) all).
Proof.
  intros Hwf%reachable_wfTree. destruct (root t) as [r|] eqn:Hr.
  - exists (orderings (height r) r). split_and!.
    + by rewrite (Enumerate_trace t r 0 Hwf Hr).
    + unfold wfTree in Hwf. rewrite Hr in Hwf. destruct Hwf as [Hp _].
      destruct (orderings_spec (height r) r Hp (le_n _)) as [[others ->] _]. done.
    + intros limit. by apply Enumerate_trace.
  - exists [[]]. unfold Enumerate. rewrite Hr. split_and!; [done | done |].
    intros limit. destruct (limit <=? 0) eqn:E; [done|].
    apply Z.leb_gt in E. replace (Z.to_nat limit) with (S (Z.to_nat (limit - 1))) by lia.
    cbn [take]. by rewrite take_nil.
Qed.

Lemma X19_Enumerate_limit_is_prefix_witness :
  ∃ all,
    Enumerate (mkTree (Some (mkNode pNode 0 [newLeaf 0; newLeaf 1; newLeaf 2]
                               unmarked 0 0)) 3) 0 = Some all
    ∧ all ≠ []
    ∧ ∀ limit,
        Enumerate (mkTree (Some (mkNode pNode 0 [newLeaf 0; newLeaf 1; newLeaf 2]
                                   unmarked 0 0)) 3) limit
        = Some (if limit <=? 0 then all else take (Z.to_nat limit) all).
Proof.
  apply (X19_Enumerate_limit_is_prefix
           (mkTree (Some (mkNode pNode 0 [newLeaf 0; newLeaf 1; newLeaf 2]
                            unmarked 0 0)) 3)).
  apply (reach_new 3). reflexivity.
Defined.

(** X20: on every tree of a run, the first ordering [Enumerate] returns is
    the frontier of the tree, its leaves as they stand from left to right,
    and every ordering it returns is one the tree admits: each P-node's
    children in some order, each Q-node's children in their order or in the
    reverse order, so that the leaves below any node stay together. *)
Theorem X20_Enumerate_admitted (t : PQTree) (r : pqNode) (limit : Z)
    (perms : list (list Z)) :
  reachable t → root t = Some r → Enumerate t limit = Some perms →
  (∃ others, perms = leafValues r :: others) ∧ Forall (admits r) perms.
Proof.
  intros Hwf%reachable_wfTree Hr Henum.
  rewrite (Enumerate_trace t r limit Hwf Hr) in Henum.
  unfold wfTree in Hwf. rewrite Hr in Hwf. destruct Hwf as [Hp _].
  destruct (orderings_spec (height r) r Hp (le_n _)) as [[others Hfirst] Hall].
  destruct (limit <=? 0) eqn:E; simplify_eq; [split; [by eexists | done]|].
  apply Z.leb_gt in E. split; [|by apply Forall_take].
  rewrite Hfirst. replace (Z.to_nat limit) with (S (Z.to_nat (limit - 1))) by lia.
  cbn. by eexists.
Qed.

Lemma X20_Enumerate_admitted_witness :
  (∃ others, [[0; 1; 2]; [1; 0; 2]] = leafValues
       (mkNode pNode 0 [newLeaf 0; newLeaf 1; newLeaf 2] unmarked 0 0) :: others)
  ∧ Forall (admits (mkNode pNode 0 [newLeaf 0; newLeaf 1; newLeaf 2] unmarked 0 0))
      [[0; 1; 2]; [1; 0; 2]].
Proof.
  apply (X20_Enumerate_admitted
           (mkTree (Some (mkNode pNode 0 [newLeaf 0; newLeaf 1; newLeaf 2]
                            unmarked 0 0)) 3) _ 2).
  - apply (reach_new 3). reflexivity.
  - reflexivity.
  - by vm_compute.
Defined.

(** ** The leaves below a node stay together *)

Lemma admits_Permutation (n : pqNode) :
  ∀ o, proper n → admits n o → o ≡ₚ leafValues n.
Proof.
  induction n as [k v cs m c p IH] using pqNode_nested_ind. intros o Hp Hadm.
  assert (Hparts : ∀ cs' parts, cs' ≡ₚ cs → Forall proper cs →
            Forall2 admits cs' parts → mjoin parts ≡ₚ cs ≫= leafValues).
  { intros cs' parts Hcs Hall Hparts. rewrite <- Hcs.
    assert (Hin : ∀ c', c' ∈ cs' → c' ∈ cs) by (intros c' Hc'; by rewrite <- Hcs).
    clear Hcs. induction Hparts as [|c' part cs' parts Hc' _ IHp]; [done|].
    cbn. rewrite IHp by (intros; apply Hin; by apply list_elem_of_further).
    specialize (Hin c' (list_elem_of_here _ _)).
    rewrite Forall_forall in IH, Hall. by rewrite (IH c' Hin part (Hall c' Hin) Hc'). }
  inversion Hadm as [n0 Hk | n0 cs' parts Hk Hcs Hparts' | n0 cs' parts Hk Hcs Hparts'];
    subst; cbn [kind children value] in *.
  - subst. done.
  - subst. cbn. apply (Hparts cs'); [done | | done].
    by destruct (proper_inner_children _ Hp ltac:(done)).
  - subst. cbn. apply (Hparts cs'); [| | done].
    + destruct Hcs as [-> | ->]; [done | symmetry; apply Permutation_rev].
    + by destruct (proper_inner_children _ Hp ltac:(done)).
Qed.

Lemma within_leaves (n m : pqNode) :
  within n m → proper n → proper m ∧ leafValues m ⊆ leafValues n.
Proof.
  induction 1 as [n | n c m Hc _ IH]; intros Hp; [done|].
  assert (Hk : kind n ≠ leafNode).
  { intros Hk. inversion Hp; subst; cbn in *; [by apply elem_of_nil in Hc | done]. }
  destruct (proper_inner_children _ Hp Hk) as [_ Hall].
  rewrite Forall_forall in Hall. destruct (IH (Hall c Hc)) as [Hpm Hsub].
  split; [done|]. intros x Hx. rewrite (leafValues_inner n Hk).
  apply list_elem_of_bind. exists c. split; [by apply Hsub | done].
Qed.

Lemma contiguous_block (S a p b : list Z) :
  contiguous S p →
  (∀ x, x ∈ a → x ∉ S) → (∀ x, x ∈ b → x ∉ S) →
  contiguous S (a ++ p ++ b).
Proof.
  intros Hp Ha Hb i j k x y z Hijk Hx Hy Hz HxS HzS.
  assert (Hblock : ∀ (i : nat) x, (a ++ p ++ b) !! i = Some x → x ∈ S →
            (length a ≤ i)%nat ∧ p !! (i - length a)%nat = Some x).
  { intros i' x' Hi' Hin.
    apply lookup_app_Some in Hi' as [Hi' | [Hge Hi']].
    { exfalso. apply (Ha x'); [by eapply list_elem_of_lookup_2 | done]. }
    apply lookup_app_Some in Hi' as [Hi' | [_ Hi']]; [done|].
    exfalso. apply (Hb x'); [by eapply list_elem_of_lookup_2 | done]. }
  destruct (Hblock i x Hx HxS) as [Hi Hxp].
  destruct (Hblock k z Hz HzS) as [Hk Hzp].
  assert (Hyp : p !! (j - length a)%nat = Some y).
  { apply lookup_app_Some in Hy as [Hy | [_ Hy]].
    { apply lookup_lt_Some in Hy. lia. }
    apply lookup_app_Some in Hy as [Hy | [Hge Hy]]; [done|].
    apply lookup_lt_Some in Hzp. lia. }
  apply (Hp (i - length a) (j - length a) (k - length a))%nat with (x := x) (z := z);
    [lia | done..].
Qed.

Lemma Forall2_split_elem {A B : Type} (R : A → B → Prop) (l : list A) (k : list B)
    (x : A) :
  Forall2 R l k → x ∈ l →
  ∃ l1 l2 k1 y k2,
    l = l1 ++ x :: l2 ∧ k = k1 ++ y :: k2 ∧ R x y
    ∧ Forall2 R l1 k1 ∧ Forall2 R l2 k2.
Proof.
  intros HR Hx. apply list_elem_of_split in Hx as (l1 & l2 & ->).
  apply Forall2_app_inv_l in HR as (k1 & k' & H1 & H2 & ->).
  apply Forall2_cons_inv_l in H2 as (y & k2 & Hxy & H2 & ->).
  by exists l1, l2, k1, y, k2.
Qed.

Lemma Forall2_admits_leaves (cs : list pqNode) (parts : list (list Z)) :
  Forall proper cs → Forall2 admits cs parts →
  mjoin parts ≡ₚ cs ≫= leafValues.
Proof.
  intros Hall Hparts. induction Hparts as [|c part cs parts Hc _ IH]; [done|].
  apply Forall_cons in Hall as [Hpc Hall]. cbn.
  by rewrite IH, (admits_Permutation c part Hpc Hc).
Qed.

Lemma admits_contiguous (n m : pqNode) :
  within n m →
  ∀ o, proper n → NoDup (leafValues n) → admits n o →
       contiguous (leafValues m) o.
Proof.
  induction 1 as [n | n c m Hc Hwithin IH]; intros o Hp Hnd Hadm.
  { apply admits_Permutation in Hadm; [|done].
    intros i j k x y z _ _ Hy _ _ _. rewrite <- Hadm.
    by eapply list_elem_of_lookup_2. }
  assert (Hk : kind n ≠ leafNode).
  { intros Hk. inversion Hp; subst; cbn in *; [by apply elem_of_nil in Hc | done]. }
  destruct (proper_inner_children _ Hp Hk) as [_ Hall].
  assert (Hcs : ∃ cs parts, cs ≡ₚ children n ∧ Forall2 admits cs parts
                            ∧ o = mjoin parts).
  { inversion Hadm as [n0 Hk' | n0 cs parts Hk' Hcs Hparts
                       | n0 cs parts Hk' Hcs Hparts]; subst.
    - done.
    - by exists cs, parts.
    - exists cs, parts. split; [|done].
      destruct Hcs as [-> | ->]; [done | symmetry; apply Permutation_rev]. }
  destruct Hcs as (cs & parts & Hperm & Hparts & ->).
  assert (Hc' : c ∈ cs) by (by rewrite Hperm).
  assert (Hall' : Forall proper cs) by (by rewrite Hperm).
  destruct (Forall2_split_elem _ _ _ _ Hparts Hc')
    as (cs1 & cs2 & ps1 & part & ps2 & -> & -> & Hpart & H1 & H2).
  rewrite (leafValues_inner n Hk), <- Hperm in Hnd.
  rewrite bind_app, bind_cons in Hnd.
  apply NoDup_app in Hnd as (_ & Hdis1 & Hnd).
  apply NoDup_app in Hnd as (Hndc & Hdis2 & _).
  apply Forall_app in Hall' as [Hall1 [Hpc Hall2]%Forall_cons].
  destruct (within_leaves c m Hwithin Hpc) as [_ Hsub].
  rewrite join_app. cbn [mjoin]. apply contiguous_block.
  - by apply IH.
  - intros x Hx Hxm. rewrite (Forall2_admits_leaves cs1 ps1 Hall1 H1) in Hx.
    apply (Hdis1 x Hx). apply elem_of_app. left. by apply Hsub.
  - intros x Hx Hxm. rewrite (Forall2_admits_leaves cs2 ps2 Hall2 H2) in Hx.
    by apply (Hdis2 x (Hsub x Hxm)).
Qed.

(** X21: the leaves below a node stay together.  On every tree of a run,
    in every ordering that [Enumerate] returns, the leaves below any node
    of the tree occupy a contiguous block. *)
Theorem X21_Enumerate_keeps_nodes_together (t : PQTree) (r m : pqNode)
    (limit : Z) (perms : list (list Z)) :
  reachable t → root t = Some r → within r m →
  Enumerate t limit = Some perms →
  Forall (contiguous (leafValues m)) perms.
Proof.
  intros Hwf%reachable_wfTree Hr Hm Henum.
  rewrite (Enumerate_trace t r limit Hwf Hr) in Henum.
  unfold wfTree in Hwf. rewrite Hr in Hwf. destruct Hwf as [Hp Hleaves].
  destruct (orderings_spec (height r) r Hp (le_n _)) as [_ Hall].
  assert (Hadm : Forall (admits r) perms).
  { destruct (limit <=? 0); simplify_eq; [done | by apply Forall_take]. }
  eapply Forall_impl; [exact Hadm|]. intros o Ho. cbn.
  apply (admits_contiguous r m); [done | done | | done].
  rewrite Hleaves. apply NoDup_fmap; [apply Nat2Z.inj' | apply NoDup_seq].
Qed.


Lemma X21_Enumerate_keeps_nodes_together_witness :
  Forall (contiguous
            (leafValues (mkNode pNode 0 [mkNode leafNode 0 [] full 0 0;
                                         mkNode leafNode 2 [] full 0 0] full 0 0)))
    [[0; 2; 1]; [2; 0; 1]; [1; 0; 2]; [1; 2; 0]].
Proof.
  apply (X21_Enumerate_keeps_nodes_together
           (mkTree
              (Some (mkNode pNode 0
                       [mkNode pNode 0 [mkNode leafNode 0 [] full 0 0;
                                        mkNode leafNode 2 [] full 0 0] full 0 0;
                        mkNode leafNode 1 [] empty 0 0] partial 2 0)) 3)
           (mkNode pNode 0
              [mkNode pNode 0 [mkNode leafNode 0 [] full 0 0;
                               mkNode leafNode 2 [] full 0 0] full 0 0;
               mkNode leafNode 1 [] empty 0 0] partial 2 0)
           (mkNode pNode 0 [mkNode leafNode 0 [] full 0 0;
                            mkNode leafNode 2 [] full 0 0] full 0 0)
           0).
  - apply (reach_reduce
             (mkTree (Some (mkNode pNode 0 [newLeaf 0; newLeaf 1; newLeaf 2]
                              unmarked 0 0)) 3) _ [0; 2] true).
    + apply (reach_new 3). reflexivity.
    + by vm_compute.
  - reflexivity.
  - eapply within_child; [apply list_elem_of_here|]. apply within_here.
  - by vm_compute.
Defined.

(** ** Q-nodes have two or more children *)

Lemma wideQ_inv (n : pqNode) :
  wideQ n
  ↔ (kind n = qNode → (2 ≤ length (children n))%nat) ∧ Forall wideQ (children n).
Proof. split; [by destruct 1 | intros [? ?]; by constructor]. Qed.

Lemma marksOnly_wide (f : pqNode → pqNode) (n : pqNode) :
  marksOnly f → proper n → wideQ n → wideQ (f n).
Proof.
  intros Hf. induction n as [k v cs m c p IH] using pqNode_nested_ind.
  intros Hp [Hq Hall]%wideQ_inv.
  destruct (Hf (mkNode k v cs m c p)) as (Hk & _ & Hinner & Hleaf).
  cbn [kind children] in *. apply wideQ_inv. rewrite Hk.
  apply proper_inv in Hp as [(Hkl & Hcs & _) | (Hkn & _ & Hpc)];
    cbn [kind children] in *.
  - subst. destruct (Hleaf eq_refl eq_refl) as [-> _]. split; [done | constructor].
  - rewrite (Hinner Hkn), length_fmap. split; [done|].
    apply Forall_fmap, Forall_forall. intros x Hx. cbn.
    rewrite Forall_forall in IH, Hpc, Hall. auto.
Qed.

Lemma markLeaves_wide (elems : list Z) :
  ∀ r, proper r → wideQ r →
       proper (foldl (λ r elem, markLeaf elem r) r elems)
       ∧ wideQ (foldl (λ r elem, markLeaf elem r) r elems).
Proof.
  induction elems as [|elem elems IH]; intros r Hp Hw; [done|]. cbn [foldl].
  apply IH.
  - by destruct (marksOnly_keeps _ r (markLeaf_marksOnly elem) Hp).
  - by apply marksOnly_wide; [apply markLeaf_marksOnly|..].
Qed.

Lemma groupChildren_wide (parent : pqNode) :
  kind parent = pNode → wideQ parent →
  wideQ (groupChildren parent (List.filter (hasMark full) (children parent)) pNode).
Proof.
  intros Hk Hw. pose proof Hw as [_ Hall]%wideQ_inv. unfold groupChildren.
  destruct (List.filter (hasMark full) (children parent)) as [|g0 [|g1 group]] eqn:Eg;
    [done..|].
  rewrite <- Eg. apply wideQ_inv. cbn [kind children set_children].
  split; [by rewrite Hk|]. apply spliceOnce_Forall; [|done].
  apply wideQ_inv. cbn. split; [done|]. by apply Forall_List_filter.
Qed.

Lemma List_filter_length_split {A : Type} (f : A → bool) (l : list A) :
  (length (List.filter (λ x, negb (f x)) l) + length (List.filter f l))%nat
  = length l.
Proof.
  rewrite (List_filter_partition f l) at 3. rewrite length_app. lia.
Qed.

Lemma extendPartialChild_wide (isRoot : bool) (parent p0 : pqNode) :
  proper parent → kind parent = pNode → wideQ parent →
  List.filter (hasMark partial) (children parent) = [p0] →
  wideQ (extendPartialChild isRoot parent p0
           (List.filter (hasMark full) (children parent))).2.
Proof.
  intros Hp Hk Hw Hp0. pose proof Hw as [_ Hall]%wideQ_inv.
  destruct (proper_inner_children _ Hp) as [_ Hpall]; [by rewrite Hk|].
  unfold extendPartialChild.
  set (fullSiblings := List.filter (hasMark full) (children parent)).
  destruct (len fullSiblings =? 0) eqn:Elen; [done|].
  assert (Hfs : (1 ≤ length fullSiblings)%nat).
  { unfold len in Elen. apply Z.eqb_neq in Elen. lia. }
  assert (Hin0 : p0 ∈ children parent ∧ hasMark partial p0 = true).
  { apply elem_of_List_filter. rewrite Hp0. apply list_elem_of_here. }
  destruct Hin0 as [Hin0 Hm0].
  assert (Hp0p : proper p0) by (rewrite Forall_forall in Hpall; auto).
  assert (Hw0 : wideQ p0) by (rewrite Forall_forall in Hall; auto).
  assert (Hk0 : kind p0 ≠ leafNode).
  { apply hasMark_true in Hm0.
    apply proper_inv in Hp0p as [(_ & _ & ?) | (? & _)]; done. }
  destruct (proper_inner_children _ Hp0p Hk0) as [Hne0 _].
  apply wideQ_inv in Hw0 as [_ Hall0].
  match goal with |- context [mkNode qNode 0 ?c partial 0 0] => set (cs := c) end.
  set (qnode := mkNode qNode 0 cs partial 0 0).
  assert (Hq : wideQ qnode).
  { apply wideQ_inv. cbn [kind children qnode]. split.
    - intros _. unfold cs. rewrite !length_app.
      pose proof (List_filter_length_split (hasMark full) (children p0)).
      destruct (children p0); [done|]. cbn [length] in *. lia.
    - unfold cs. rewrite !Forall_app. split_and!; by apply Forall_List_filter. }
  set (parent' := set_children parent
                    (spliceOnce (p0 :: fullSiblings) qnode false (children parent))).
  assert (Hw' : wideQ parent').
  { apply wideQ_inv. cbn [kind children parent' set_children].
    split; [by rewrite Hk|]. by apply spliceOnce_Forall. }
  destruct (children parent') as [|c [|c' rest]] eqn:Ech; [done | | done].
  destruct isRoot; [|done]. cbn [snd].
  apply wideQ_inv in Hw' as [_ Hall']. rewrite Ech in Hall'.
  by apply Forall_cons in Hall' as [? _].
Qed.

Lemma mergeQNodes_wide (parent : pqNode) (idx : Z) (n' : pqNode) :
  proper parent → kind parent ≠ leafNode → 0 <= idx < len (children parent) →
  wideQ parent → mergeQNodes parent idx = Some n' → wideQ n'.
Proof.
  intros Hp Hk Hidx Hw Hmerge.
  destruct (mergeQNodes_keeps parent idx Hp Hk Hidx)
    as (n'' & Hmerge' & _ & Hkind & Hlen).
  assert (n'' = n') as -> by congruence. clear Hmerge'.
  pose proof Hw as [Hq Hall]%wideQ_inv. apply wideQ_inv. split.
  - rewrite Hkind. intros Hqk. specialize (Hq Hqk). unfold len in Hlen. lia.
  - unfold mergeQNodes in Hmerge.
    destruct (index (children parent) idx) as [child|] eqn:Hi; [|done].
    destruct (negb _); [by simplify_eq|].
    apply index_lookup in Hi as [_ Hi].
    assert (Hwc : wideQ child).
    { rewrite Forall_forall in Hall. apply Hall. by eapply list_elem_of_lookup_2. }
    apply wideQ_inv in Hwc as [_ Hallc]. simplify_eq. cbn [children set_children].
    rewrite !Forall_app. split_and!; [by apply Forall_take | | by apply Forall_drop].
    match goal with |- context [if ?b then _ else _] => destruct b end; [|done].
    apply Forall_forall. intros x Hx%list_elem_of_In%in_rev%list_elem_of_In.
    rewrite Forall_forall in Hallc. auto.
Qed.

Lemma mergeLoop_wide (partialIdx : list Z) :
  ∀ n n', proper n → kind n ≠ leafNode →
          Forall (λ idx, 0 <= idx < len (children n)) partialIdx →
          wideQ n → mergeLoop n partialIdx = Some n' → wideQ n'.
Proof.
  induction partialIdx as [|idx rest IH]; intros n n' Hp Hk Hin Hw Hloop.
  { cbn in Hloop. by simplify_eq. }
  apply Forall_cons in Hin as [Hidx Hrest]. cbn [mergeLoop] in Hloop.
  destruct (index (children n) idx) as [c|]; [|done].
  destruct (nodeKind_eqb (kind c) qNode); [|by eapply IH].
  destruct (mergeQNodes_keeps n idx Hp Hk Hidx) as (n1 & Hm & Hkeep & Hkind & Hlen).
  rewrite Hm in Hloop. apply (IH n1); [apply Hkeep | congruence | | | done].
  - eapply Forall_impl; [exact Hrest|]. cbn. intros; lia.
  - by eapply mergeQNodes_wide.
Qed.

Section WideFacts.

Variable red : pqNode → option (bool * pqNode).

Hypothesis red_keeps : ∀ c, proper c → reduceKeeps c (red c).

Lemma reduceEach_wide (cs : list pqNode) :
  Forall (λ c, proper c → wideQ c → ∀ ok c', red c = Some (ok, c') → wideQ c') cs →
  Forall proper cs → Forall wideQ cs →
  ∀ ok cs', reduceEach red cs = Some (ok, cs') → Forall wideQ cs'.
Proof.
  induction 1 as [|c cs Hc _ IH]; intros Hp Hw ok cs' Heach; cbn [reduceEach] in Heach.
  { by simplify_eq. }
  apply Forall_cons in Hp as [Hpc Hp]. apply Forall_cons in Hw as [Hwc Hw].
  destruct (hasMark partial c).
  - destruct (red c) as [[[] c1]|] eqn:Hred; [| |done].
    + destruct (reduceEach red cs) as [[ok' rest']|] eqn:Hrest; [|done].
      simplify_eq. constructor; [by eapply Hc | by eapply IH].
    + simplify_eq. constructor; [by eapply Hc | done].
  - destruct (reduceEach red cs) as [[ok' rest']|] eqn:Hrest; [|done].
    simplify_eq. constructor; [done | by eapply IH].
Qed.

Lemma reducePartialChildren_wide (n : pqNode) (ok : bool) (n' : pqNode) :
  Forall (λ c, proper c → wideQ c → ∀ ok c', red c = Some (ok, c') → wideQ c')
    (children n) →
  proper n → kind n ≠ leafNode → wideQ n →
  reducePartialChildren red n = Some (ok, n') → wideQ n'.
Proof.
  intros Hred Hp Hk [Hq Hall]%wideQ_inv Hpart.
  destruct (proper_inner_children _ Hp Hk) as [_ Hpall].
  destruct (reduceEach_keeps red (children n)) as (ok1 & cs' & E & _ & _ & Hlen);
    [apply Forall_forall; intros c _; apply red_keeps | done |].
  pose proof (reduceEach_wide _ Hred Hpall Hall _ _ E) as Hall'.
  unfold reducePartialChildren in Hpart. rewrite E in Hpart.
  destruct ok1; simplify_eq; apply wideQ_inv; cbn [kind children set_children];
    by rewrite Hlen.
Qed.

Lemma reducePNode_wide (isRoot : bool) (n : pqNode) (ok : bool) (n' : pqNode) :
  Forall (λ c, proper c → wideQ c → ∀ ok c', red c = Some (ok, c') → wideQ c')
    (children n) →
  proper n → kind n = pNode → wideQ n →
  reducePNode red isRoot n = Some (ok, n') → wideQ n'.
Proof.
  intros Hred Hp Hk Hw Hnode.
  assert (Hkl : kind n ≠ leafNode) by (by rewrite Hk).
  destruct (reducePartialChildren_keeps red n) as (ok1 & n1 & E & Hkeep & Hk1);
    [apply Forall_forall; intros c _; apply red_keeps | done | done |].
  pose proof (reducePartialChildren_wide n ok1 n1 Hred Hp Hkl Hw E) as Hw1.
  unfold reducePNode in Hnode. rewrite E in Hnode.
  destruct ok1; [|by simplify_eq].
  assert (Hp1 : proper n1) by apply Hkeep.
  assert (Hkn1 : kind n1 = pNode) by congruence.
  destruct (len (List.filter (hasMark partial) (children n1)) >? 1) eqn:E1;
    [by simplify_eq|].
  destruct (len (List.filter (hasMark full) (children n1)) =? 0) eqn:E2;
    [by simplify_eq|].
  destruct (len (List.filter (hasMark partial) (children n1)) =? 0) eqn:E3.
  - destruct (_ && _); simplify_eq; [by apply groupChildren_wide | done].
  - destruct (List_filter_single_len _ E1 E3) as [p0 Hp0]. rewrite Hp0 in Hnode.
    pose proof (extendPartialChild_wide isRoot n1 p0 Hp1 Hkn1 Hw1 Hp0) as Hext.
    destruct (extendPartialChild _ _ _ _) as [ok' n2]. cbn [snd] in Hext.
    by simplify_eq.
Qed.

Lemma reduceQNode_wide (n : pqNode) (ok : bool) (n' : pqNode) :
  Forall (λ c, proper c → wideQ c → ∀ ok c', red c = Some (ok, c') → wideQ c')
    (children n) →
  proper n → kind n ≠ leafNode → wideQ n →
  reduceQNode red n = Some (ok, n') → wideQ n'.
Proof.
  intros Hred Hp Hk Hw Hnode.
  destruct (reducePartialChildren_keeps red n) as (ok1 & n1 & E & Hkeep & Hk1);
    [apply Forall_forall; intros c _; apply red_keeps | done | done |].
  pose proof (reducePartialChildren_wide n ok1 n1 Hred Hp Hk Hw E) as Hw1.
  unfold reduceQNode in Hnode. rewrite E in Hnode.
  destruct ok1; [|by simplify_eq].
  assert (Hp1 : proper n1) by apply Hkeep.
  assert (Hkn1 : kind n1 ≠ leafNode) by congruence.
  pose proof (scanQ_scanned (children n1) 0 (-1, -1, [])) as Hscan.
  destruct (scanQ 0 (children n1) (-1, -1, [])) as [[first last] partialIdx].
  destruct Hscan as [Hfl Hidx]; [lia | split; [lia | constructor] |].
  rewrite Z.add_0_l in Hfl, Hidx.
  destruct (first <? 0) eqn:Ef; [by simplify_eq|].
  destruct (noEmptyInRun _ _ _) as [[]|]; [|by simplify_eq|done].
  destruct (forallb _ partialIdx); [|by simplify_eq].
  destruct (mergeLoop n1 partialIdx) as [n2|] eqn:Hloop; [|done]. simplify_eq.
  by eapply mergeLoop_wide.
Qed.

End WideFacts.

Lemma reduce_wide (n : pqNode) :
  ∀ isRoot ok n', proper n → wideQ n → reduce isRoot n = Some (ok, n') → wideQ n'.
Proof.
  induction n as [k v cs m f p IH] using pqNode_nested_ind.
  intros isRoot ok n' Hp Hw. rewrite reduce_eq.
  destruct (_ || _); [by intros [= _ <-]|].
  assert (Hchildren :
    Forall (λ c, proper c → wideQ c →
                 ∀ ok c', reduce false c = Some (ok, c') → wideQ c') cs).
  { eapply Forall_impl; [exact IH|]. cbn. intros c Hc Hpc Hwc ok' c'. by apply Hc. }
  cbn [kind]. destruct k.
  - by intros [= _ <-].
  - by apply (reducePNode_wide (reduce false) (λ c Hc, reduce_keeps c false Hc)).
  - by apply (reduceQNode_wide (reduce false) (λ c Hc, reduce_keeps c false Hc)).
Qed.

Lemma Reduce_wide (t t' : PQTree) (constraint : list Z) (ok : bool) :
  wfTree t → (∀ r, root t = Some r → wideQ r) →
  Reduce t constraint = Some (ok, t') →
  ∀ r', root t' = Some r' → wideQ r'.
Proof.
  intros Hwf Hw. unfold Reduce. unfold wfTree in Hwf.
  destruct (root t) as [r|] eqn:Er; [|by intros [= _ <-] r'; rewrite Er].
  destruct Hwf as [Hp _]. specialize (Hw r eq_refl).
  destruct (_ || _); [intros [= _ <-] r'; rewrite Er; by intros [= <-]|].
  rewrite markConstraint_inRange.
  destruct (marksOnly_keeps _ r clearMarks_marksOnly Hp) as [Hp0 _].
  pose proof (marksOnly_wide _ r clearMarks_marksOnly Hp Hw) as Hw0.
  destruct (markLeaves_wide (List.filter (inRange (leaves t)) constraint)
              _ Hp0 Hw0) as [Hp1 Hw1].
  destruct (marksOnly_keeps _ _ bubbleUp_marksOnly Hp1) as [Hp2 _].
  pose proof (marksOnly_wide _ _ bubbleUp_marksOnly Hp1 Hw1) as Hw2.
  destruct (hasMark empty _); [by intros [= _ <-] r' [= <-]|].
  destruct (reduce true _) as [[ok3 r3]|] eqn:Hred; [|done].
  intros [= _ <-] r' [= <-]. by eapply reduce_wide.
Qed.

Lemma reachable_wide (t : PQTree) :
  reachable t → ∀ r, root t = Some r → wideQ r.
Proof.
  induction 1 as [n t Hn | t t' c ok Hreach IH Hred].
  - unfold NewPQTree in Hn. intros r Hr.
    destruct (n =? 0); [by simplify_eq|].
    destruct (n =? 1); [simplify_eq; cbn in Hr; simplify_eq; by constructor|].
    destruct (n <? 0); [done|]. simplify_eq. cbn in Hr. simplify_eq.
    constructor; [done|]. cbn. apply Forall_fmap, Forall_forall. intros i _.
    by constructor.
  - apply (Reduce_wide t t' c ok); [by apply reachable_wfTree | done..].
Qed.

(** ** Counting the orderings *)

Lemma orderingCount_pos (n : pqNode) : (1 ≤ orderingCount n)%nat.
Proof.
  induction n as [k v cs m f p IH] using pqNode_nested_ind. cbn [orderingCount kind children].
  assert (Hprod : (1 ≤ foldr (λ child product, orderingCount child * product) 1 cs)%nat).
  { induction IH as [|c cs Hc _ IHcs]; cbn [foldr]; [lia | nia]. }
  assert (Hfact : (1 ≤ factNat (length cs))%nat).
  { pose proof (fact_pos (length cs)). pose proof (factNat_fact (length cs)). lia. }
  destruct k; [lia | nia | nia].
Qed.

Lemma length_bind_const {A B : Type} (f : A → list B) (l : list A) (k : nat) :
  (∀ x, x ∈ l → length (f x) = k) → length (l ≫= f) = (length l * k)%nat.
Proof.
  induction l as [|x l IH]; intros Hf; [done|]. cbn.
  rewrite length_app, (Hf x) by apply list_elem_of_here.
  rewrite IH; [lia|]. intros y Hy. apply Hf. by apply list_elem_of_further.
Qed.

Lemma length_childOrderings (ords : pqNode → list (list Z)) (cs : list pqNode) :
  length (childOrderings ords cs)
  = foldr (λ c product, length (ords c) * product)%nat 1%nat cs.
Proof.
  induction cs as [|c cs IH]; [done|]. cbn [childOrderings foldr].
  rewrite (length_bind_const _ _ (length (childOrderings ords cs))); [by rewrite IH|].
  intros p _. by rewrite length_fmap.
Qed.

Lemma product_Permutation {A : Type} (g : A → nat) (l l' : list A) :
  l ≡ₚ l' →
  foldr (λ c product, g c * product)%nat 1%nat l
  = foldr (λ c product, g c * product)%nat 1%nat l'.
Proof.
  induction 1 as [|x l l' _ IH| x y l | l l' l'' _ IH1 _ IH2]; cbn [foldr];
    [done | by rewrite IH | lia | congruence].
Qed.

Lemma product_ext {A : Type} (g g' : A → nat) (l : list A) :
  (∀ x, x ∈ l → g x = g' x) →
  foldr (λ c product, g c * product)%nat 1%nat l
  = foldr (λ c product, g' c * product)%nat 1%nat l.
Proof.
  induction l as [|x l IH]; intros Hg; cbn [foldr]; [done|].
  rewrite (Hg x) by apply list_elem_of_here.
  rewrite IH; [done|]. intros y Hy. apply Hg. by apply list_elem_of_further.
Qed.

(** A node hands as many orderings to [emit] as [orderingCount] says. *)
Lemma length_orderings (depth : nat) :
  ∀ node, proper node → wideQ node → (height node ≤ depth)%nat →
    length (orderings depth node) = orderingCount node.
Proof.
  induction depth as [|depth IH]; intros node Hp Hw Hh.
  { destruct node; cbn in Hh; lia. }
  cbn [orderings]. destruct (nodeKind_eqb (kind node) leafNode) eqn:Ek.
  { apply nodeKind_eqb_eq in Ek. destruct node as [k v cs m f p]. cbn in Ek.
    by subst. }
  assert (Hk : kind node ≠ leafNode) by (intros Hk; by rewrite Hk in Ek).
  destruct (proper_inner_children _ Hp Hk) as [_ Hall].
  apply wideQ_inv in Hw as [Hq Hwall].
  destruct (childPerms_spec node) as (_ & Hperms & _ & Hcount).
  set (product := foldr (λ c product, orderingCount c * product)%nat 1%nat
                    (children node)).
  rewrite (length_bind_const _ _ product).
  - destruct node as [k v cs m f p]. cbn [kind children orderingCount] in *.
    fold product. destruct k; [done | |]; cbn [nodeKind_eqb] in Hcount.
    + pose proof (factNat_fact (length cs)). lia.
    + specialize (Hq eq_refl).
      replace (len cs <=? 1) with false in Hcount
        by (symmetry; apply Z.leb_gt; unfold len; lia).
      lia.
  - intros cs Hcs. rewrite Forall_forall in Hperms. specialize (Hperms cs Hcs).
    rewrite length_childOrderings.
    rewrite (product_Permutation _ _ _ Hperms). apply product_ext.
    intros c Hc. rewrite Forall_forall in Hall, Hwall. apply IH; auto.
    pose proof (height_children node c Hc). lia.
Qed.

Lemma countPerms_eq (node : pqNode) :
  countPerms node
  = match kind node with
    | leafNode => 1
    | k =>
        let product :=
          fold_left (λ product child, mul product (countPerms child))
            (children node) 1 in
        match k with
        | qNode => mul 2 product
        | _ => mul (Factorial (len (children node))) product
        end
    end.
Proof. by destruct node. Qed.

Lemma children_product_exact (cs : list pqNode) :
  Forall (λ c, Z.of_nat (orderingCount c) <= max_int →
               countPerms c = Z.of_nat (orderingCount c)) cs →
  ∀ acc : Z,
    1 <= acc →
    acc * Z.of_nat (foldr (λ c product, orderingCount c * product)%nat 1%nat cs)
    <= max_int →
    fold_left (λ product child, mul product (countPerms child)) cs acc
    = acc * Z.of_nat (foldr (λ c product, orderingCount c * product)%nat 1%nat cs).
Proof.
  induction 1 as [|c cs Hc Hcs IH]; intros acc Hacc Hbound; cbn [fold_left foldr] in *.
  { lia. }
  set (product := foldr (λ c product, orderingCount c * product)%nat 1%nat cs) in *.
  assert (Hprod : (1 ≤ product)%nat).
  { unfold product. clear. induction cs as [|c cs IH]; cbn [foldr]; [lia|].
    pose proof (orderingCount_pos c). nia. }
  pose proof (orderingCount_pos c) as Hpos.
  rewrite Nat2Z.inj_mul in Hbound |- *.
  set (x := Z.of_nat (orderingCount c)) in *.
  set (y := Z.of_nat product) in *.
  assert (1 <= x) by lia. assert (1 <= y) by lia.
  assert (acc * x <= acc * x * y) by nia.
  assert (x <= acc * x) by nia.
  rewrite Hc by lia. unfold mul at 2.
  rewrite wrap_small by (unfold in_range, min_int, max_int in *; nia).
  rewrite IH; [lia | nia | lia].
Qed.

(** [countPerms] is the number of orderings as long as that fits an
    [int]. *)
Lemma countPerms_exact (node : pqNode) :
  Z.of_nat (orderingCount node) <= max_int →
  countPerms node = Z.of_nat (orderingCount node).
Proof.
  induction node as [k v cs m f p IH] using pqNode_nested_ind. intros Hbound.
  rewrite countPerms_eq. cbn [kind children orderingCount] in *.
  set (product := foldr (λ c product, orderingCount c * product)%nat 1%nat cs) in *.
  assert (Hprod : (1 ≤ product)%nat).
  { unfold product. clear. induction cs as [|c cs IH]; cbn [foldr]; [lia|].
    pose proof (orderingCount_pos c). nia. }
  assert (Hfact : 1 <= fact (length cs)) by (pose proof (fact_pos (length cs)); lia).
  pose proof (factNat_fact (length cs)) as HfN.
  destruct k; [done | |]; cbn zeta.
  - rewrite Nat2Z.inj_mul, HfN in Hbound.
    rewrite (children_product_exact cs IH 1) by (fold product; nia).
    fold product. unfold Factorial, len. rewrite Nat2Z.id.
    rewrite (wrap_small (fact (length cs)))
      by (unfold in_range, min_int, max_int in *; nia).
    unfold mul. rewrite wrap_small by (unfold in_range, min_int, max_int in *; nia).
    rewrite Nat2Z.inj_mul, HfN. lia.
  - rewrite Nat2Z.inj_mul in Hbound.
    rewrite (children_product_exact cs IH 1) by (fold product; nia).
    fold product. unfold mul.
    rewrite wrap_small by (unfold in_range, min_int, max_int in *; nia).
    rewrite Nat2Z.inj_mul. lia.
Qed.

(** X22: [ValidCount] agrees with [Enumerate].  On every tree of a run, as
    long as the number of orderings [Enumerate(0)] returns fits an [int],
    [ValidCount] is that number, and [Enumerate(limit)] with a positive
    limit returns the lesser of [limit] and [ValidCount] orderings. *)
Theorem X22_ValidCount_counts_Enumerate (t : PQTree) (all : list (list Z)) :
  reachable t → Enumerate t 0 = Some all → len all <= max_int →
  ValidCount t = len all
  ∧ ∀ limit perms, 0 < limit → Enumerate t limit = Some perms →
      len perms = Z.min limit (ValidCount t).
Proof.
  intros Hreach Hall Hbound.
  assert (Hcount : ValidCount t = len all).
  { pose proof (reachable_wfTree t Hreach) as Hwf.
    unfold ValidCount. destruct (root t) as [r|] eqn:Hr.
    - rewrite (Enumerate_trace t r 0 Hwf Hr) in Hall. cbn in Hall. simplify_eq.
      unfold wfTree in Hwf. rewrite Hr in Hwf. destruct Hwf as [Hp _].
      unfold len in *.
      rewrite length_orderings in *
        by (done || by apply (reachable_wide t Hreach)).
      by apply countPerms_exact.
    - unfold Enumerate in Hall. rewrite Hr in Hall. by simplify_eq. }
  split; [done|]. intros limit perms Hlimit Hperms. rewrite Hcount.
  assert (Hprefix : perms = take (Z.to_nat limit) all).
  { pose proof (reachable_wfTree t Hreach) as Hwf.
    destruct (root t) as [r|] eqn:Hr.
    - rewrite (Enumerate_trace t r limit Hwf Hr) in Hperms.
      rewrite (Enumerate_trace t r 0 Hwf Hr) in Hall. cbn in Hall.
      replace (limit <=? 0) with false in Hperms by (symmetry; apply Z.leb_gt; lia).
      by simplify_eq.
    - unfold Enumerate in Hall, Hperms. rewrite Hr in Hall, Hperms. simplify_eq.
      replace (Z.to_nat limit) with (S (Z.to_nat (limit - 1))) by lia.
      cbn [take]. by rewrite take_nil. }
  rewrite Hprefix. unfold len. rewrite length_take. lia.
Qed.

Lemma X22_ValidCount_counts_Enumerate_witness :
  ValidCount (mkTree (Some (mkNode pNode 0 [newLeaf 0; newLeaf 1; newLeaf 2]
                              unmarked 0 0)) 3)
  = len [[0; 1; 2]; [1; 0; 2]; [2; 0; 1]; [0; 2; 1]; [1; 2; 0]; [2; 1; 0]]
  ∧ ∀ limit perms, 0 < limit →
      Enumerate (mkTree (Some (mkNode pNode 0 [newLeaf 0; newLeaf 1; newLeaf 2]
                                 unmarked 0 0)) 3) limit = Some perms →
      len perms
      = Z.min limit
          (ValidCount (mkTree (Some (mkNode pNode 0 [newLeaf 0; newLeaf 1; newLeaf 2]
                                       unmarked 0 0)) 3)).
Proof.
  apply (X22_ValidCount_counts_Enumerate
           (mkTree (Some (mkNode pNode 0 [newLeaf 0; newLeaf 1; newLeaf 2]
                            unmarked 0 0)) 3)).
  - apply (reach_new 3). reflexivity.
  - by vm_compute.
  - by vm_compute.
Defined.

(** ** [ValidCount] as the limit of [Enumerate] *)

Lemma factNat_pos (n : nat) : (1 ≤ factNat n)%nat.
Proof. induction n as [|n IH]; cbn [factNat]; nia. Qed.

Lemma factNat_shift (a b : nat) :
  (1 ≤ b)%nat → (S a * (factNat a * factNat b) ≤ factNat (a + b))%nat.
Proof.
  induction 1 as [|b Hb IH].
  - replace (a + 1)%nat with (S a) by lia. cbn [factNat]. lia.
  - replace (a + S b)%nat with (S (a + b)) by lia.
    change (factNat (S b)) with (S b * factNat b)%nat.
    change (factNat (S (a + b))) with (S (a + b) * factNat (a + b))%nat.
    pose proof (factNat_pos (a + b)). nia.
Qed.

Lemma factNat_fits (n : nat) :
  (n ≤ 20)%nat → Z.of_nat (factNat n) <= max_int.
Proof.
  intros Hn. rewrite factNat_fact. pose proof (fact_20_in_range n Hn) as [_ H].
  done.
Qed.

(** A P-node over children of [n1, ..., nk] leaves, with [c1, ..., ck]
    orderings of at most [n1!, ..., nk!], has at most [(n1 + ... + nk)!]
    orderings. *)
Lemma children_count_le (cs : list pqNode) :
  Forall (λ c, (1 ≤ length (leafValues c))%nat
               ∧ (orderingCount c ≤ factNat (length (leafValues c)))%nat) cs →
  (length cs ≤ length (cs ≫= leafValues))%nat
  ∧ (factNat (length cs)
     * foldr (λ child product, orderingCount child * product) 1 cs
     ≤ factNat (length (cs ≫= leafValues)))%nat.
Proof.
  induction 1 as [|c cs [Hc1 Hc] _ [IHlen IH]]; [cbn; lia|].
  cbn [mbind list_bind foldr length]. rewrite length_app.
  set (product := foldr (λ child product, (orderingCount child * product)%nat)
                    1%nat cs) in *.
  set (n := length (leafValues c)) in *.
  set (m := length (cs ≫= leafValues)) in *.
  set (k := length cs) in *.
  split; [lia|].
  change (factNat (S k)) with (S k * factNat k)%nat.
  pose proof (factNat_shift m n Hc1) as Hshift.
  replace (n + m)%nat with (m + n)%nat by lia.
  pose proof (factNat_pos m). pose proof (factNat_pos n).
  assert (S k * (factNat k * product) * orderingCount c
          ≤ S m * factNat m * factNat n)%nat; [|nia].
  apply Nat.mul_le_mono; [|done]. apply Nat.mul_le_mono; lia.
Qed.

Lemma orderingCount_le_fact (n : pqNode) :
  proper n → wideQ n →
  (1 ≤ length (leafValues n))%nat
  ∧ (orderingCount n ≤ factNat (length (leafValues n)))%nat.
Proof.
  induction n as [k v cs m f p IH] using pqNode_nested_ind. intros Hp Hw.
  apply proper_inv in Hp as [(Ek & Ec & Em) | (Ek & Ec & Hall)];
    cbn [kind children mark] in *.
  { subst. cbn. lia. }
  apply wideQ_inv in Hw as [Hq Hwall]. cbn [kind children] in *.
  assert (Hcs : Forall (λ c, (1 ≤ length (leafValues c))%nat
                  ∧ (orderingCount c ≤ factNat (length (leafValues c)))%nat) cs).
  { rewrite Forall_forall in IH, Hall, Hwall. apply Forall_forall. auto. }
  destruct (children_count_le cs Hcs) as [Hlen Hcount].
  rewrite (leafValues_inner (mkNode k v cs m f p)) by done.
  cbn [children orderingCount kind].
  set (product := foldr (λ child product, (orderingCount child * product)%nat)
                    1%nat cs) in *.
  split; [destruct cs; [done | cbn [length] in Hlen; lia]|].
  destruct k; [done | done |].
  specialize (Hq eq_refl).
  assert (2 ≤ factNat (length cs))%nat; [|nia].
  destruct cs as [|c1 [|c2 cs]]; cbn [length] in Hq; [lia | lia |].
  change (factNat (length (c1 :: c2 :: cs)))
    with (S (S (length cs)) * (S (length cs) * factNat (length cs)))%nat.
  pose proof (factNat_pos (length cs)). nia.
Qed.

Lemma Enumerate_ValidCount (t : PQTree) :
  reachable t → (leaves t ≤ 20)%nat →
  Enumerate t (ValidCount t) = Enumerate t 0.
Proof.
  intros Hreach Hsmall. pose proof (reachable_wfTree t Hreach) as Hwf.
  destruct (root t) as [r|] eqn:Hr.
  - rewrite !(Enumerate_trace t r _ Hwf Hr). unfold ValidCount. rewrite Hr.
    pose proof Hwf as Hwf0. unfold wfTree in Hwf0. rewrite Hr in Hwf0.
    destruct Hwf0 as [Hp Hl].
    pose proof (reachable_wide t Hreach r Hr) as Hw.
    destruct (orderingCount_le_fact r Hp Hw) as [_ Hle].
    apply Permutation_length in Hl. rewrite length_fmap, length_seq in Hl.
    rewrite Hl in Hle.
    assert (Hfit : Z.of_nat (orderingCount r) <= max_int).
    { pose proof (factNat_fits (leaves t) Hsmall). lia. }
    rewrite (countPerms_exact r Hfit). pose proof (orderingCount_pos r).
    replace (Z.of_nat (orderingCount r) <=? 0) with false
      by (symmetry; apply Z.leb_gt; lia).
    cbn. f_equal. apply take_ge.
    rewrite Nat2Z.id, length_orderings by done. lia.
  - unfold Enumerate, ValidCount. by rewrite Hr.
Qed.

Lemma Enumerate_nonempty (t : PQTree) (limit : Z) :
  reachable t → ∃ perms, Enumerate t limit = Some perms ∧ perms ≠ [].
Proof.
  intros Hwf%reachable_wfTree. destruct (root t) as [r|] eqn:Hr.
  - rewrite (Enumerate_trace t r limit Hwf Hr). eexists. split; [done|].
    unfold wfTree in Hwf. rewrite Hr in Hwf. destruct Hwf as [Hp _].
    destruct (orderings_spec (height r) r Hp (le_n _)) as [[others ->] _].
    destruct (limit <=? 0) eqn:El; [done|]. apply Z.leb_gt in El.
    replace (Z.to_nat limit) with (S (Z.to_nat (limit - 1))) by lia. done.
  - unfold Enumerate. rewrite Hr. by eexists.
Qed.

(** X23: for a tree of a run over [n] leaves, at most 20, [ValidCount] lies
    between 1 and [n!], and as the limit of [Enumerate] it cuts nothing
    off: [Enumerate(ValidCount())] returns every ordering that
    [Enumerate(0)] returns. *)
Theorem X23_Enumerate_ValidCount_is_all (t : PQTree) :
  reachable t → (leaves t ≤ 20)%nat →
  1 <= ValidCount t <= fact (leaves t)
  ∧ Enumerate t (ValidCount t) = Enumerate t 0.
Proof.
  intros Hreach Hsmall. split; [|by apply Enumerate_ValidCount].
  pose proof (reachable_wfTree t Hreach) as Hwf. unfold wfTree in Hwf.
  unfold ValidCount. destruct (root t) as [r|] eqn:Hr.
  - destruct Hwf as [Hp Hl].
    destruct (orderingCount_le_fact r Hp (reachable_wide t Hreach r Hr))
      as [_ Hle].
    apply Permutation_length in Hl. rewrite length_fmap, length_seq in Hl.
    rewrite Hl in Hle. pose proof (factNat_fits (leaves t) Hsmall).
    pose proof (orderingCount_pos r). pose proof (factNat_fact (leaves t)).
    rewrite countPerms_exact; lia.
  - rewrite Hwf. cbn. lia.
Qed.

Lemma X23_Enumerate_ValidCount_is_all_witness :
  1 <= ValidCount (mkTree (Some (mkNode pNode 0 [newLeaf 0; newLeaf 1; newLeaf 2]
                                   unmarked 0 0)) 3)
    <= fact 3
  ∧ Enumerate (mkTree (Some (mkNode pNode 0 [newLeaf 0; newLeaf 1; newLeaf 2]
                               unmarked 0 0)) 3)
      (ValidCount (mkTree (Some (mkNode pNode 0 [newLeaf 0; newLeaf 1; newLeaf 2]
                                   unmarked 0 0)) 3))
    = Enumerate (mkTree (Some (mkNode pNode 0 [newLeaf 0; newLeaf 1; newLeaf 2]
                                 unmarked 0 0)) 3) 0.
Proof.
  apply (X23_Enumerate_ValidCount_is_all
           (mkTree (Some (mkNode pNode 0 [newLeaf 0; newLeaf 1; newLeaf 2]
                            unmarked 0 0)) 3)).
  - apply (reach_new 3). reflexivity.
  - cbn [leaves]. lia.
Defined.


(** ** C10 *)














End PQTreeProperties.


(** * Further properties of the ordering code *)

Section OrderingProperties.

Import GoInt Ordering.

(** ** [calcCandidateLimit] *)

(** X1: the candidate limit never grows with the number of rows, and it
    always lies between 100 and 10000. *)
Theorem X1_calcCandidateLimit_antitone (a b : Z) :
  a <= b →
  100 <= calcCandidateLimit b
  ∧ calcCandidateLimit b <= calcCandidateLimit a
  ∧ calcCandidateLimit a <= 10000.
Proof.
  intros Hab. unfold calcCandidateLimit, maxCandidatesBase.
  destruct (a <=? 3) eqn:Ea; destruct (b <=? 3) eqn:Eb;
    [apply Z.leb_le in Ea | apply Z.leb_le in Ea
    | apply Z.leb_gt in Ea | apply Z.leb_gt in Ea];
    [apply Z.leb_le in Eb | apply Z.leb_gt in Eb
    | apply Z.leb_le in Eb | apply Z.leb_gt in Eb]; try lia.
  assert (10000 ÷ b <= 10000 ÷ a).
  { rewrite !Z.quot_div_nonneg by lia. apply Z.div_le_compat_l; lia. }
  lia.
Qed.

Lemma X1_calcCandidateLimit_antitone_witness :
  100 <= calcCandidateLimit 20
  ∧ calcCandidateLimit 20 <= calcCandidateLimit 5
  ∧ calcCandidateLimit 5 <= 10000.
Proof. apply (X1_calcCandidateLimit_antitone 5 20). lia. Defined.

(** ** [findParallelRow] *)

Lemma findParallelRowFrom_spec (s : solver) (rs : list Z) :
  ∀ i : Z,
    let p := findParallelRowFrom s i rs in
    (∃ (k : nat) r, p = i + Z.of_nat k ∧ rs !! k = Some r
                    ∧ 1 < len (nodesAt (rowNodes s) r)
                    ∧ ∀ j r', (j < k)%nat → rs !! j = Some r' →
                              len (nodesAt (rowNodes s) r') <= 1)
    ∨ (p = 0 ∧ ∀ r, r ∈ rs → len (nodesAt (rowNodes s) r) <= 1).
Proof.
  induction rs as [|r rs IH]; intros i; cbn.
  { right. split; [done|]. intros r Hr. by apply elem_of_nil in Hr. }
  destruct (len (nodesAt (rowNodes s) r) >? 1) eqn:Hn.
  - left. exists 0%nat, r. apply Z.gtb_lt in Hn.
    split_and!; [lia | done | done | intros; lia].
  - rewrite Z.gtb_ltb in Hn. apply Z.ltb_ge in Hn.
    destruct (IH (i + 1)) as [(k & r' & Hp & Hk & Hr' & Hbefore) | [Hp Hall]].
    + left. exists (S k), r'. split_and!; [lia | done | done |].
      intros [|j] r'' Hj Hr''; cbn in Hr''; [by simplify_eq|].
      apply (Hbefore j); [lia | done].
    + right. split; [done|]. intros r' [-> | Hr']%elem_of_cons; [done | by apply Hall].
Qed.

(** X2: [findParallelRow] returns the index of the first row with more
    than one node, and 0 when no row has more than one node; so it is an
    index into the rows whenever there are rows, and every row before it
    has at most one node. *)
Theorem X2_findParallelRow_first_wide_row (s : solver) :
  let p := findParallelRow s in
  ((∃ r, Perm.index (rows s) p = Some r
         ∧ 1 < len (nodesAt (rowNodes s) r))
   ∨ (p = 0 ∧ ∀ r, r ∈ rows s → len (nodesAt (rowNodes s) r) <= 1))
  ∧ (∀ i r, 0 <= i < p → Perm.index (rows s) i = Some r →
            len (nodesAt (rowNodes s) r) <= 1)
  ∧ 0 <= p
  ∧ (rows s ≠ [] → p < len (rows s)).
Proof.
  intros p. unfold p, findParallelRow.
  destruct (findParallelRowFrom_spec s (rows s) 0)
    as [(k & r & Hp & Hk & Hr & Hbefore) | [Hp Hall]]; rewrite Hp.
  - split_and!.
    + left. exists r. split; [|done].
      replace (0 + Z.of_nat k) with (Z.of_nat k) by lia. by rewrite index_nat.
    + intros i r' Hi Hr'. apply index_lookup in Hr' as [_ Hr'].
      apply (Hbefore (Z.to_nat i)); [lia | done].
    + lia.
    + intros _. apply lookup_lt_Some in Hk. unfold len. lia.
  - split_and!; [by right | intros; lia | lia |].
    intros Hne. unfold len. destruct (rows s); [done | cbn; lia].
Qed.

(** ** [buildNodeIndex] and [idsToIndices] *)

Lemma buildNodeIndex_snoc (nodes : list Node) (n : Node) :
  buildNodeIndex (nodes ++ [n]) = <[ID n := len nodes]> (buildNodeIndex nodes).
Proof.
  unfold buildNodeIndex. rewrite foldl_app. cbn [foldl].
  assert (Hcount : ∀ (ns : list Node) (acc : gmap string Z) (i0 : Z),
            (foldl (λ '(idx, i) n, (<[ID n := i]> idx, i + 1)) (acc, i0) ns).2
            = i0 + len ns).
  { induction ns as [|n0 ns IH]; intros acc i0; cbn [foldl]; [unfold len; cbn; lia|].
    rewrite IH. unfold len. cbn [length]. lia. }
  specialize (Hcount nodes ∅ 0).
  destruct (foldl _ _ nodes) as [idx i]. cbn in *. by rewrite Hcount.
Qed.

Lemma buildNodeIndex_last (nodes : list Node) (id : string) :
  match buildNodeIndex nodes !! id with
  | Some i =>
      ∃ n, Perm.index nodes i = Some n ∧ ID n = id
           ∧ ∀ j n', i < j → Perm.index nodes j = Some n' → ID n' ≠ id
  | None => id ∉ ID <$> nodes
  end.
Proof.
  induction nodes as [|n nodes IH] using rev_ind.
  { cbn. rewrite lookup_empty. apply not_elem_of_nil. }
  rewrite buildNodeIndex_snoc. destruct (decide (ID n = id)) as [<- | Hne].
  - rewrite lookup_insert_eq. exists n. split_and!; [|done|].
    + unfold len. rewrite index_nat. by apply list_lookup_middle.
    + intros j n' Hj Hn'. apply index_lookup in Hn' as [_ Hn'].
      apply lookup_lt_Some in Hn'. rewrite length_app in Hn'. cbn in Hn'.
      unfold len in Hj. lia.
  - rewrite lookup_insert_ne by done.
    destruct (buildNodeIndex nodes !! id) as [i|].
    + destruct IH as (n0 & Hn0 & Hid & Hlast). exists n0.
      apply index_lookup in Hn0 as [Hi Hn0]. split_and!; [|done|].
      * unfold Perm.index. destruct (i <? 0) eqn:E; [apply Z.ltb_lt in E; lia|].
        by apply lookup_app_l_Some.
      * intros j n' Hj Hn'. apply index_lookup in Hn' as [Hj0 Hn'].
        apply lookup_app_Some in Hn' as [Hn' | [Hlen Hn']].
        -- apply (Hlast j); [done|]. unfold Perm.index.
           destruct (j <? 0) eqn:E; [apply Z.ltb_lt in E; lia | done].
        -- apply list_lookup_singleton_Some in Hn' as [_ <-]. done.
    + rewrite fmap_app. cbn.
      intros [Hin | Hin%list_elem_of_singleton]%elem_of_app; [done | by subst].
Qed.

(** X3: [buildNodeIndex] maps an identifier to the index of the last node
    that has it, and has no entry for an identifier that no node has; so
    the indices that [idsToIndices] returns lead back to the identifiers
    asked for: reading the identifiers of the nodes at those indices gives
    the identifiers that some node has, in the order asked, and the others
    are dropped. *)
Theorem X3_buildNodeIndex_idsToIndices (nodes : list Node) :
  (∀ id,
     match buildNodeIndex nodes !! id with
     | Some i =>
         ∃ n, Perm.index nodes i = Some n ∧ ID n = id
              ∧ ∀ j n', i < j → Perm.index nodes j = Some n' → ID n' ≠ id
     | None => id ∉ ID <$> nodes
     end)
  ∧ ∀ ids,
      mapM (λ idx, ID <$> Perm.index nodes idx)
           (idsToIndices ids (buildNodeIndex nodes))
      = Some (List.filter (λ id, bool_decide (id ∈ ID <$> nodes)) ids).
Proof.
  split; [apply buildNodeIndex_last|].
  unfold idsToIndices. induction ids as [|id ids IH]; [done|].
  cbn [omap list_omap List.filter].
  pose proof (buildNodeIndex_last nodes id) as Hlast.
  destruct (buildNodeIndex nodes !! id) as [i|].
  - destruct Hlast as (n & Hn & <- & _).
    rewrite bool_decide_eq_true_2.
    2:{ apply index_lookup in Hn as [_ Hn]. apply list_elem_of_fmap.
        exists n. split; [done|]. by eapply list_elem_of_lookup_2. }
    cbn [mapM]. rewrite Hn. cbn. rewrite IH. done.
  - by rewrite bool_decide_eq_false_2.
Qed.

(** ** [toIndexPath] and [toStringOrder] *)

Lemma indicesOf_Some (nodes : list Node) (ids : list string) (indices : list Z) :
  indicesOf nodes ids = Some indices →
  length indices = length nodes
  ∧ Forall (λ idx, 0 <= idx < len nodes) indices.
Proof.
  unfold indicesOf. destruct (len nodes <? len ids) eqn:Hlen; [done|].
  apply Z.ltb_ge in Hlen. unfold len in Hlen. intros [= <-]. split.
  - rewrite length_app, length_fmap, length_replicate. lia.
  - apply Forall_app. split.
    + apply Forall_fmap, Forall_forall. intros id Hid. cbn.
      pose proof (buildNodeIndex_last nodes id) as Hlast.
      destruct (buildNodeIndex nodes !! id) as [i|]; cbn.
      * destruct Hlast as (n & [Hi Hn]%index_lookup & _).
        apply lookup_lt_Some in Hn. unfold len. lia.
      * destruct ids as [|id0 ids']; [by apply elem_of_nil in Hid|]. cbn in Hlen.
        destruct nodes; cbn in *; unfold len; cbn; lia.
    + apply Forall_forall. intros idx [-> Hn]%elem_of_replicate. unfold len. lia.
Qed.

(** X4: [toIndexPath] panics exactly when some row is given more
    identifiers than it has nodes.  Otherwise it returns one row of indices
    for every row of the graph, never nil, with as many indices as the row
    has nodes, each of them an index into the nodes of the row (an
    identifier that the row does not have, and a position that the order
    leaves out, read as index 0). *)
Theorem X4_toIndexPath_rows (g : DAG) (rs : list Z) (order : gmap Z (list string)) :
  (toIndexPath g rs order = None
   ↔ ∃ r, r ∈ rs ∧ len (NodesInRow g r) < len (orderAt order r))
  ∧ ∀ path, toIndexPath g rs order = Some path →
      length path = length rs
      ∧ ∀ i r, rs !! i = Some r →
          ∃ indices, path !! i = Some (Some indices)
                     ∧ length indices = length (NodesInRow g r)
                     ∧ Forall (λ idx, 0 <= idx < len (NodesInRow g r)) indices.
Proof.
  unfold toIndexPath. split.
  - rewrite eq_None_not_Some, mapM_is_Some. split.
    + intros Hn. apply not_Forall_Exists in Hn; [|intros r; unfold compose; apply _].
      apply Exists_exists in Hn as (r & Hr & Hrow). exists r. split; [done|].
      cbn in Hrow. unfold indicesOf in Hrow.
      destruct (_ <? _) eqn:Hlen; [by apply Z.ltb_lt in Hlen|].
      destruct Hrow. by eexists.
    + intros (r & Hr & Hrow) Hall. rewrite Forall_forall in Hall.
      specialize (Hall r Hr). cbn in Hall. unfold indicesOf in Hall.
      apply Z.ltb_lt in Hrow. rewrite Hrow in Hall. by destruct Hall.
  - intros path Hpath%mapM_Some_1. split; [symmetry; by eapply Forall2_length|].
    intros i r Hr.
    destruct (Forall2_lookup_l _ _ _ _ _ Hpath Hr) as (row & Hrow & Hind).
    destruct (indicesOf _ _) as [indices|] eqn:Hi; [|done]. cbn in Hind.
    simplify_eq. exists indices. split; [done|]. by eapply indicesOf_Some.
Qed.

Lemma elem_of_zip_lookup {A B : Type} (l : list A) (k : list B) (x : A) (y : B) :
  (x, y) ∈ zip l k ↔ ∃ i, l !! i = Some x ∧ k !! i = Some y.
Proof.
  rewrite list_elem_of_lookup. split.
  - intros (i & Hi). apply lookup_zip_with_Some in Hi as (x' & y' & ? & ? & ?).
    simplify_eq. eauto.
  - intros (i & Hx & Hy). exists i. apply lookup_zip_with_Some. eauto.
Qed.

Lemma mapM_ids_None (nodes : list Node) (indices : list Z) :
  mapM (λ idx, ID <$> Perm.index nodes idx) indices = None
  ↔ ∃ idx, idx ∈ indices ∧ ¬ (0 <= idx < len nodes).
Proof.
  rewrite eq_None_not_Some, mapM_is_Some. split.
  - intros Hn. apply not_Forall_Exists in Hn; [|intros r; unfold compose; apply _].
    apply Exists_exists in Hn as (idx & Hidx & Hrow). exists idx. split; [done|].
    intros Hin. apply Hrow. cbn. destruct (index_Some nodes idx Hin) as (x & -> & _).
    by eexists.
  - intros (idx & Hidx & Hout) Hall. rewrite Forall_forall in Hall.
    specialize (Hall idx Hidx). cbn in Hall. destruct Hall as [id Hid].
    destruct (Perm.index nodes idx) as [n|] eqn:Hn; [|done].
    apply index_lookup in Hn as [H0 Hn]. apply lookup_lt_Some in Hn.
    apply Hout. unfold len. lia.
Qed.

Lemma toStringOrderFrom_entries (rowNodes : gmap Z (list Node)) (rs : list Z) :
  ∀ (path : searchPath) (result0 result : gmap Z (list string)),
    NoDup rs →
    toStringOrderFrom rowNodes rs path result0 = Some result →
    ∀ r ids,
      result !! r = Some ids
      ↔ (∃ indices, (r, Some indices) ∈ zip rs path
                    ∧ mapM (λ idx, ID <$> Perm.index (nodesAt rowNodes r) idx)
                        indices = Some ids)
        ∨ ((∀ indices, (r, Some indices) ∉ zip rs path) ∧ result0 !! r = Some ids).
Proof.
  induction rs as [|r0 rs IH]; intros path result0 result Hnd Hres r ids.
  { cbn in Hres. simplify_eq. cbn. split; [intros ?; right|].
    - split; [|done]. intros indices. apply not_elem_of_nil.
    - intros [(indices & Hin & _) | [_ ?]]; [by apply elem_of_nil in Hin | done]. }
  apply NoDup_cons in Hnd as [Hr0 Hnd].
  destruct path as [|[indices0|] path]; cbn [toStringOrderFrom] in Hres.
  - simplify_eq. cbn. split; [intros ?; right|].
    + split; [|done]. intros indices. apply not_elem_of_nil.
    + intros [(indices & Hin & _) | [_ ?]]; [by apply elem_of_nil in Hin | done].
  - destruct (mapM _ indices0) as [ids0|] eqn:Hids0; [|done]. cbn in Hres.
    rewrite (IH _ _ _ Hnd Hres r ids). cbn [zip zip_with].
    destruct (decide (r = r0)) as [-> | Hne].
    + assert (Hnone : ∀ indices, (r0, Some indices) ∉ zip rs path).
      { intros indices Hin. apply Hr0. by apply elem_of_zip_l in Hin. }
      rewrite lookup_insert_eq. split.
      * intros [(indices & Hin & _) | [_ ?]]; [by apply Hnone in Hin|].
        simplify_eq. left. exists indices0. split; [apply list_elem_of_here | done].
      * intros [(indices & Hin & Hids) | [Hno _]].
        -- apply elem_of_cons in Hin as [? | Hin]; [|by apply Hnone in Hin].
           simplify_eq. right. by split.
        -- exfalso. apply (Hno indices0), list_elem_of_here.
    + rewrite lookup_insert_ne by done. split.
      * intros [(indices & Hin & Hids) | [Hno Hr]].
        -- left. exists indices. split; [by apply list_elem_of_further | done].
        -- right. split; [|done]. intros indices [? | Hin]%elem_of_cons;
             [by simplify_eq | by apply Hno in Hin].
      * intros [(indices & Hin & Hids) | [Hno Hr]].
        -- left. exists indices. split; [|done].
           apply elem_of_cons in Hin as [? | Hin]; [by simplify_eq | done].
        -- right. split; [|done]. intros indices Hin.
           apply (Hno indices). by apply list_elem_of_further.
  - rewrite (IH _ _ _ Hnd Hres r ids). cbn [zip zip_with]. split.
    + intros [(indices & Hin & Hids) | [Hno Hr]].
      * left. exists indices. split; [by apply list_elem_of_further | done].
      * right. split; [|done]. intros indices [? | Hin]%elem_of_cons;
          [by simplify_eq | by apply Hno in Hin].
    + intros [(indices & Hin & Hids) | [Hno Hr]].
      * left. exists indices. split; [|done].
        apply elem_of_cons in Hin as [? | Hin]; [by simplify_eq | done].
      * right. split; [|done]. intros indices Hin.
        apply (Hno indices). by apply list_elem_of_further.
Qed.

Lemma toStringOrderFrom_None (rowNodes : gmap Z (list Node)) (rs : list Z) :
  ∀ (path : searchPath) (result0 : gmap Z (list string)),
    toStringOrderFrom rowNodes rs path result0 = None
    ↔ ∃ r indices, (r, Some indices) ∈ zip rs path
                   ∧ mapM (λ idx, ID <$> Perm.index (nodesAt rowNodes r) idx)
                       indices = None.
Proof.
  induction rs as [|r0 rs IH]; intros path result0.
  { cbn. split; [done|]. intros (r & indices & Hin & _). by apply elem_of_nil in Hin. }
  destruct path as [|[indices0|] path]; cbn [toStringOrderFrom zip zip_with].
  - split; [done|]. intros (r & indices & Hin & _). by apply elem_of_nil in Hin.
  - destruct (mapM _ indices0) as [ids0|] eqn:Hids0; cbn.
    + rewrite IH. split; intros (r & indices & Hin & Hnone); exists r, indices.
      * split; [by apply list_elem_of_further | done].
      * split; [|done]. apply elem_of_cons in Hin as [? | Hin]; [|done].
        simplify_eq.
    + split; [intros _|done]. exists r0, indices0.
      split; [apply list_elem_of_here | done].
  - rewrite IH. split; intros (r & indices & Hin & Hnone); exists r, indices.
    + split; [by apply list_elem_of_further | done].
    + split; [|done]. apply elem_of_cons in Hin as [? | Hin]; [by simplify_eq | done].
Qed.

(** X5: [toStringOrder] panics exactly when a row of the path names an
    index outside the nodes of its row.  Otherwise, with the rows numbered
    once each, the result has an entry for row [rows[i]] exactly when the
    path has a row [i] that is not nil, namely the identifiers of the nodes
    at the indices of that row; rows beyond the end of the path and nil
    rows get no entry. *)
Theorem X5_toStringOrder_entries (rowNodes : gmap Z (list Node)) (rs : list Z)
    (path : searchPath) :
  NoDup rs →
  (toStringOrder rowNodes rs path = None
   ↔ ∃ i r indices idx,
       rs !! i = Some r ∧ path !! i = Some (Some indices) ∧ idx ∈ indices
       ∧ ¬ (0 <= idx < len (nodesAt rowNodes r)))
  ∧ ∀ result, toStringOrder rowNodes rs path = Some result →
      ∀ r ids,
        result !! r = Some ids
        ↔ ∃ i indices,
            rs !! i = Some r ∧ path !! i = Some (Some indices)
            ∧ mapM (λ idx, ID <$> Perm.index (nodesAt rowNodes r) idx) indices
              = Some ids.
Proof.
  intros Hnd. unfold toStringOrder. split.
  - rewrite toStringOrderFrom_None. split.
    + intros (r & indices & Hin & Hnone).
      apply elem_of_zip_lookup in Hin as (i & Hr & Hrow).
      apply mapM_ids_None in Hnone as (idx & Hidx & Hout).
      by exists i, r, indices, idx.
    + intros (i & r & indices & idx & Hr & Hrow & Hidx & Hout).
      exists r, indices. split; [apply elem_of_zip_lookup; eauto|].
      apply mapM_ids_None. eauto.
  - intros result Hres r ids.
    rewrite (toStringOrderFrom_entries _ _ _ _ _ Hnd Hres r ids), lookup_empty.
    split.
    + intros [(indices & Hin & Hids) | [_ ?]]; [|done].
      apply elem_of_zip_lookup in Hin as (i & Hr & Hrow). by exists i, indices.
    + intros (i & indices & Hr & Hrow & Hids). left. exists indices.
      split; [apply elem_of_zip_lookup; eauto | done].
Qed.

Lemma X5_toStringOrder_entries_witness :
  (toStringOrder (rowNodesOf k22 [0; 1]) [0; 1] [Some [1; 0]; None] = None
   ↔ ∃ i r indices idx,
       [0; 1] !! i = Some r ∧ [Some [1; 0]; None] !! i = Some (Some indices)
       ∧ idx ∈ indices
       ∧ ¬ (0 <= idx < len (nodesAt (rowNodesOf k22 [0; 1]) r)))
  ∧ ∀ result,
      toStringOrder (rowNodesOf k22 [0; 1]) [0; 1] [Some [1; 0]; None]
      = Some result →
      ∀ r ids,
        result !! r = Some ids
        ↔ ∃ i indices,
            [0; 1] !! i = Some r ∧ [Some [1; 0]; None] !! i = Some (Some indices)
            ∧ mapM (λ idx, ID <$> Perm.index (nodesAt (rowNodesOf k22 [0; 1]) r) idx)
                indices
              = Some ids.
Proof.
  apply (X5_toStringOrder_entries (rowNodesOf k22 [0; 1]) [0; 1]
           [Some [1; 0]; None]).
  apply (bool_decide_unpack _). by vm_compute.
Defined.

Lemma indicesOf_reads_back (nodes : list Node) (ids : list string) :
  length ids = length nodes →
  (∀ id, id ∈ ids → id ∈ ID <$> nodes) →
  ∃ indices, indicesOf nodes ids = Some indices
             ∧ mapM (λ idx, ID <$> Perm.index nodes idx) indices = Some ids.
Proof.
  intros Hlen Hids. unfold indicesOf.
  replace (len nodes <? len ids) with false
    by (symmetry; apply Z.ltb_ge; unfold len; lia).
  rewrite Hlen, Nat.sub_diag. cbn [replicate]. rewrite app_nil_r.
  eexists. split; [done|]. apply mapM_Some, Forall2_fmap_l, Forall_Forall2_diag.
  apply Forall_forall. intros id Hid. cbn.
  pose proof (buildNodeIndex_last nodes id) as Hlast.
  destruct (buildNodeIndex nodes !! id) as [i|]; cbn.
  - destruct Hlast as (n & -> & <- & _). done.
  - by apply Hids in Hid.
Qed.

Lemma toStringOrderFrom_toIndexPath (g : DAG) (rows : list Z)
    (orders : gmap Z (list string)) (rs : list Z) :
  (∀ r, r ∈ rs → r ∈ rows) →
  (∀ r, r ∈ rs →
        length (orderAt orders r) = length (NodesInRow g r)
        ∧ ∀ id, id ∈ orderAt orders r → id ∈ ID <$> NodesInRow g r) →
  ∀ result0,
    ∃ path result,
      toIndexPath g rs orders = Some path
      ∧ toStringOrderFrom (rowNodesOf g rows) rs path result0 = Some result
      ∧ ∀ r, result !! r
             = if bool_decide (r ∈ rs) then Some (orderAt orders r)
               else result0 !! r.
Proof.
  unfold toIndexPath.
  induction rs as [|r0 rs IH]; intros Hin Hfit result0.
  { exists [], result0. split_and!; [done | done |]. intros r.
    rewrite bool_decide_eq_false_2; [done | apply not_elem_of_nil]. }
  destruct (Hfit r0 (list_elem_of_here _ _)) as [Hlen Hids].
  destruct (indicesOf_reads_back _ _ Hlen Hids) as (indices & Hidx & Hback).
  destruct (IH (λ r Hr, Hin r (list_elem_of_further _ _ _ Hr))
               (λ r Hr, Hfit r (list_elem_of_further _ _ _ Hr))
               (<[r0 := orderAt orders r0]> result0))
    as (path & result & Hpath & Hres & Hentries).
  exists (Some indices :: path), result. split_and!.
  - cbn. rewrite Hidx. cbn. rewrite Hpath. done.
  - cbn [toStringOrderFrom].
    rewrite nodesAt_rowNodesOf by apply Hin, list_elem_of_here.
    rewrite Hback. cbn. exact Hres.
  - intros r. rewrite Hentries. destruct (decide (r = r0)) as [-> | Hne].
    + rewrite (bool_decide_eq_true_2 (r0 ∈ r0 :: rs)) by apply list_elem_of_here.
      destruct (bool_decide (r0 ∈ rs)); [done | by rewrite lookup_insert_eq].
    + rewrite lookup_insert_ne by done.
      destruct (decide (r ∈ rs)) as [Hr | Hr].
      * rewrite !bool_decide_eq_true_2; [done | by apply list_elem_of_further | done].
      * rewrite !bool_decide_eq_false_2; [done | | done].
        by intros [? | ?]%elem_of_cons.
Qed.

(** X6: [toStringOrder] undoes [toIndexPath].  When an order gives every
    row as many identifiers as the row has nodes, all of them identifiers
    of nodes of that row, neither function panics, and turning the order
    into an index path and back gives every row of the graph the order it
    had, and no entry to anything else. *)
Theorem X6_toStringOrder_undoes_toIndexPath (g : DAG)
    (orders : gmap Z (list string)) :
  (∀ r, r ∈ RowIDs g →
        length (orderAt orders r) = length (NodesInRow g r)
        ∧ ∀ id, id ∈ orderAt orders r → id ∈ ID <$> NodesInRow g r) →
  ∃ path result,
    toIndexPath g (RowIDs g) orders = Some path
    ∧ toStringOrder (rowNodesOf g (RowIDs g)) (RowIDs g) path = Some result
    ∧ (∀ r, r ∈ RowIDs g → result !! r = Some (orderAt orders r))
    ∧ (∀ r, r ∉ RowIDs g → result !! r = None).
Proof.
  intros Hfit.
  destruct (toStringOrderFrom_toIndexPath g (RowIDs g) orders (RowIDs g)
              (λ r Hr, Hr) Hfit ∅) as (path & result & Hpath & Hres & Hentries).
  exists path, result. split_and!; [done | done |..].
  - intros r Hr. by rewrite Hentries, bool_decide_eq_true_2.
  - intros r Hr. by rewrite Hentries, bool_decide_eq_false_2, lookup_empty.
Qed.

Lemma X6_toStringOrder_undoes_toIndexPath_witness :
  ∃ path result,
    toIndexPath fork (RowIDs fork)
      {[0 := ["c"; "a"; "b"]; 1 := ["d"; "f"; "e"]]}%string = Some path
    ∧ toStringOrder (rowNodesOf fork (RowIDs fork)) (RowIDs fork) path = Some result
    ∧ (∀ r, r ∈ RowIDs fork →
            result !! r
            = Some (orderAt {[0 := ["c"; "a"; "b"]; 1 := ["d"; "f"; "e"]]}%string r))
    ∧ (∀ r, r ∉ RowIDs fork → result !! r = None).
Proof.
  apply (X6_toStringOrder_undoes_toIndexPath fork
           {[0 := ["c"; "a"; "b"]; 1 := ["d"; "f"; "e"]]}%string).
  intros r Hr. cbn in Hr.
  apply elem_of_cons in Hr as [-> | Hr];
    [|apply elem_of_cons in Hr as [-> | Hr]; [|by apply elem_of_nil in Hr]].
  all: split; [by vm_compute|].
  all: intros id Hid; apply (bool_decide_unpack _); vm_compute in Hid.
  all: repeat (apply elem_of_cons in Hid as [-> | Hid]; [by vm_compute|]).
  all: by apply elem_of_nil in Hid.
Defined.

(** ** Sorting *)

Lemma insertSorted_ascending {A : Type} (less : A → A → bool) (x : A) :
  (∀ a b, less a b = true → less b a = false) →
  (∀ a b c, less a b = true → less c b = false → less c a = false) →
  ∀ l, ascending (λ a b, less b a = false) l →
       ascending (λ a b, less b a = false) (insertSorted less x l).
Proof.
  intros Hasym Htrans. induction l as [|y l IH]; intros Hl; cbn; [done|].
  destruct Hl as [Hy Hl]. destruct (less x y) eqn:Hxy; cbn.
  - split_and!; [|done..]. constructor; [by apply Hasym|].
    eapply Forall_impl; [exact Hy|]. cbn. intros z Hz. by eapply Htrans.
  - split; [|by apply IH].
    rewrite insertSorted_Permutation. by constructor.
Qed.

Lemma sortStableFunc_ascending {A : Type} (cmp : A → A → Z) (s : list A) :
  (∀ a b, cmp a b < 0 → ¬ cmp b a < 0) →
  (∀ a b c, cmp a b < 0 → ¬ cmp c b < 0 → ¬ cmp c a < 0) →
  ascending (λ a b, ¬ cmp b a < 0) (sortStableFunc cmp s).
Proof.
  intros Hasym Htrans. unfold sortStableFunc.
  assert (Hgen : ∀ acc,
            ascending (λ a b, (cmp b a <? 0) = false) acc →
            ascending (λ a b, (cmp b a <? 0) = false)
              (foldl (λ sorted x, insertSorted (λ a b, cmp a b <? 0) x sorted)
                 acc s)).
  { induction s as [|x s IH]; intros acc Hacc; cbn [foldl]; [done|].
    apply IH. apply (insertSorted_ascending (λ a b, cmp a b <? 0)); [..|done].
    - intros a b Hab%Z.ltb_lt. apply Z.ltb_ge. specialize (Hasym a b Hab). lia.
    - intros a b c Hab%Z.ltb_lt Hcb%Z.ltb_ge. apply Z.ltb_ge.
      assert (¬ cmp c a < 0) by (apply (Htrans a b c); [done | lia]). lia. }
  specialize (Hgen [] I).
  revert Hgen. generalize (foldl (λ sorted x, insertSorted (λ a b, cmp a b <? 0) x sorted) [] s).
  induction l as [|x l IH]; cbn; [done|]. intros [Hx Hl]. split; [|by apply IH].
  eapply Forall_impl; [exact Hx|]. cbn. intros y Hy%Z.ltb_ge. lia.
Qed.

Lemma sortInts_ascending (s : list Z) :
  ascending Z.le (sortStableFunc compareInt s).
Proof.
  pose proof (sortStableFunc_ascending compareInt s) as Hs.
  assert (Hcmp : ∀ a b, compareInt a b < 0 ↔ a < b).
  { intros a b. unfold compareInt.
    destruct (a <? b) eqn:E1; [apply Z.ltb_lt in E1; lia|].
    apply Z.ltb_ge in E1. destruct (b <? a); lia. }
  revert Hs. generalize (sortStableFunc compareInt s). intros l Hl.
  assert (Hsorted : ascending (λ a b, ¬ compareInt b a < 0) l).
  { apply Hl; intros *; rewrite !Hcmp; lia. }
  clear Hl. induction l as [|x l IH]; cbn in *; [done|].
  destruct Hsorted as [Hx Hl]. split; [|by apply IH].
  eapply Forall_impl; [exact Hx|]. cbn. intros y. rewrite Hcmp. lia.
Qed.

(** ** [newFastGraph] *)

(** X7: the table of [newFastGraph].  For a graph with rows (without rows
    the allocation of the table panics) it has one entry for every two
    neighbouring rows; that entry has one target list for every node of the
    upper row, which holds exactly the indices in the lower row of the
    children of that node in that row, in ascending order. *)
Theorem X7_newFastGraph_edges (g : DAG) (rs : list Z) :
  rs ≠ [] →
  len (fastEdges g rs) = len rs - 1
  ∧ ∀ (i : nat) upperRow lowerRow,
      rs !! i = Some upperRow → rs !! S i = Some lowerRow →
      ∃ e, fastEdges g rs !! i = Some e
           ∧ length e = length (NodesInRow g upperRow)
           ∧ ∀ (j : nat) node, NodesInRow g upperRow !! j = Some node →
               ∃ targets,
                 e !! j = Some targets
                 ∧ ascending Z.le targets
                 ∧ Forall (λ t, 0 <= t < len (NodesInRow g lowerRow)) targets
                 ∧ targets
                   ≡ₚ idsToIndices (ChildrenInRow g (ID node) lowerRow)
                        (buildNodeIndex (NodesInRow g lowerRow)).
Proof.
  intros Hne. unfold fastEdges. split.
  - unfold len. rewrite length_fmap, length_zip, length_drop.
    destruct rs as [|r rs']; [done|]. cbn [length].
    rewrite Nat.min_r by lia. lia.
  - intros i upperRow lowerRow Hu Hl. rewrite list_lookup_fmap.
    assert (Hz : zip rs (drop 1 rs) !! i = Some (upperRow, lowerRow)).
    { apply lookup_zip_with_Some. exists upperRow, lowerRow.
      split_and!; [done | done |]. by rewrite lookup_drop. }
    rewrite Hz. cbn. eexists. split; [done|]. split; [by rewrite length_fmap|].
    intros j node Hnode. rewrite list_lookup_fmap, Hnode. cbn.
    eexists. split; [done|]. split_and!.
    + apply sortInts_ascending.
    + apply Forall_forall. intros t Ht.
      rewrite sortStableFunc_Permutation in Ht. unfold idsToIndices in Ht.
      apply list_elem_of_omap in Ht as (child & _ & Hchild).
      pose proof (buildNodeIndex_last (NodesInRow g lowerRow) child) as Hlast.
      rewrite Hchild in Hlast. destruct Hlast as (n & [H0 Hn]%index_lookup & _).
      apply lookup_lt_Some in Hn. unfold len. lia.
    + apply sortStableFunc_Permutation.
Qed.

Lemma X7_newFastGraph_edges_witness :
  len (fastEdges fork [0; 1]) = len [0; 1] - 1
  ∧ ∀ (i : nat) upperRow lowerRow,
      [0; 1] !! i = Some upperRow → [0; 1] !! S i = Some lowerRow →
      ∃ e, fastEdges fork [0; 1] !! i = Some e
           ∧ length e = length (NodesInRow fork upperRow)
           ∧ ∀ (j : nat) node, NodesInRow fork upperRow !! j = Some node →
               ∃ targets,
                 e !! j = Some targets
                 ∧ ascending Z.le targets
                 ∧ Forall (λ t, 0 <= t < len (NodesInRow fork lowerRow)) targets
                 ∧ targets
                   ≡ₚ idsToIndices (ChildrenInRow fork (ID node) lowerRow)
                        (buildNodeIndex (NodesInRow fork lowerRow)).
Proof. apply (X7_newFastGraph_edges fork [0; 1]). discriminate. Defined.

(** ** [buildPrefix] *)

Lemma fastEdges_length (g : DAG) (rs : list Z) :
  length (fastEdges g rs) = (length rs - 1)%nat.
Proof.
  unfold fastEdges. rewrite length_fmap, length_zip, length_drop.
  apply Nat.min_r. lia.
Qed.

Lemma buildPrefixFrom_rows (E : Collaborators) (g : DAG) (count : nat) :
  ∀ (d : nat) (prefix : searchPath) (score : Z),
    (d + count ≤ length (RowIDs g))%nat →
    length prefix = length (RowIDs g) →
    ∃ prefix' score',
      buildPrefixFrom E (newSolver g) count (Z.of_nat d) prefix score
      = Some (prefix', score')
      ∧ length prefix' = length prefix
      ∧ ∀ i r, RowIDs g !! i = Some r →
          prefix' !! i
          = if bool_decide (d ≤ i < d + count)%nat
            then Some (Some (Seq E (len (NodesInRow g r))))
            else prefix !! i.
Proof.
  induction count as [|count IH]; intros d prefix score Hd Hlen;
    cbn [buildPrefixFrom].
  { exists prefix, score. split_and!; [done | done |]. intros i r _.
    rewrite bool_decide_eq_false_2; [done | lia]. }
  cbn [rows newSolver rowNodes edges].
  destruct (lookup_lt_is_Some_2 (RowIDs g) d) as [r Hr]; [lia|].
  rewrite index_nat, Hr, Nat2Z.id.
  rewrite nodesAt_rowNodesOf by (by eapply list_elem_of_lookup_2).
  replace (Z.of_nat d + 1) with (Z.of_nat (S d)) by lia.
  assert (Hstep : ∀ score1,
    ∃ prefix' score',
      buildPrefixFrom E (newSolver g) count (Z.of_nat (S d))
        (<[d := Some (Seq E (len (NodesInRow g r)))]> prefix) score1
      = Some (prefix', score')
      ∧ length prefix' = length prefix
      ∧ ∀ i r', RowIDs g !! i = Some r' →
          prefix' !! i
          = if bool_decide (d ≤ i < d + S count)%nat
            then Some (Some (Seq E (len (NodesInRow g r'))))
            else prefix !! i).
  { intros score1.
    destruct (IH (S d) (<[d := Some (Seq E (len (NodesInRow g r)))]> prefix) score1)
      as (prefix' & score' & Hb & Hl & Hrows); [lia | by rewrite length_insert|].
    exists prefix', score'. rewrite length_insert in Hl. split_and!; [done..|].
    intros i r' Hr'. rewrite (Hrows i r' Hr').
    destruct (decide (i = d)) as [-> | Hne].
    - rewrite bool_decide_eq_false_2 by lia. rewrite bool_decide_eq_true_2 by lia.
      rewrite list_lookup_insert_eq by lia. by simplify_eq.
    - rewrite list_lookup_insert_ne by done.
      destruct (decide (S d ≤ i < S d + count)%nat).
      + rewrite !bool_decide_eq_true_2 by lia. done.
      + rewrite !bool_decide_eq_false_2 by lia. done. }
  destruct (Z.of_nat d >? 0) eqn:Hpos; [|apply Hstep].
  apply Z.gtb_lt in Hpos.
  destruct (lookup_lt_is_Some_2 (fastEdges g (RowIDs g)) (d - 1)) as [e He].
  { rewrite fastEdges_length. lia. }
  replace (Z.of_nat d - 1) with (Z.of_nat (d - 1)) by lia.
  rewrite index_nat, He. apply Hstep.
Qed.

Lemma buildPrefixFrom_panics (E : Collaborators) (s : solver) (count : nat) :
  ∀ (d : nat) (prefix : searchPath) (score : Z),
    (d ≤ length (rows s) < d + count)%nat →
    buildPrefixFrom E s count (Z.of_nat d) prefix score = None.
Proof.
  induction count as [|count IH]; intros d prefix score Hd; [lia|].
  cbn [buildPrefixFrom]. rewrite index_nat.
  destruct (rows s !! d) as [r|] eqn:Hr; [|done].
  apply lookup_lt_Some in Hr.
  replace (Z.of_nat d + 1) with (Z.of_nat (S d)) by lia.
  destruct (Z.of_nat d >? 0); [destruct (Perm.index _ _); [|done]|];
    apply IH; lia.
Qed.

(** X8: [buildPrefix].  For a parallel row within the rows it returns a
    path with one row per row of the graph, in which every row before the
    parallel row holds the indices [perm.Seq] gives for its nodes and every
    other row is nil; for a parallel row beyond the rows it panics. *)
Theorem X8_buildPrefix_rows (E : Collaborators) (g : DAG) (parallelRow : Z) :
  (parallelRow <= len (RowIDs g) →
   ∃ prefix score,
     buildPrefix E (newSolver g) parallelRow = Some (prefix, score)
     ∧ length prefix = length (RowIDs g)
     ∧ ∀ (i : nat) r, RowIDs g !! i = Some r →
         prefix !! i
         = Some (if Z.of_nat i <? parallelRow
                 then Some (Seq E (len (NodesInRow g r))) else None))
  ∧ (len (RowIDs g) < parallelRow →
     buildPrefix E (newSolver g) parallelRow = None).
Proof.
  unfold buildPrefix. cbn [rows newSolver]. split.
  - intros Hp.
    destruct (buildPrefixFrom_rows E g (Z.to_nat parallelRow) 0
                (replicate (length (RowIDs g)) None) 0)
      as (prefix & score & Hb & Hl & Hrows);
      [unfold len in Hp; lia | by rewrite length_replicate|].
    exists prefix, score. rewrite length_replicate in Hl.
    split_and!; [done | done |]. intros i r Hr. rewrite (Hrows i r Hr).
    apply lookup_lt_Some in Hr as Hi.
    destruct (Z.of_nat i <? parallelRow) eqn:Hlt;
      [apply Z.ltb_lt in Hlt | apply Z.ltb_ge in Hlt].
    + by rewrite bool_decide_eq_true_2 by lia.
    + rewrite bool_decide_eq_false_2 by lia. by apply lookup_replicate_2.
  - intros Hp. apply (buildPrefixFrom_panics E (newSolver g) _ 0%nat).
    cbn [rows newSolver]. unfold len in Hp. lia.
Qed.

(** ** [updateBest] *)

(** X9: a call of [updateBest] that runs with no other call between its
    steps returns, and leaves exactly this behind: [explored] is one more;
    when the score is below [bestScore], [bestScore] and [bestPath] are the
    score and the path of the call, and the search is cancelled when that
    score is 0; otherwise [bestScore], [bestPath] and the cancellation are
    as before. *)
Theorem X9_updateBest_alone (path : searchPath) (score : Z) (sh sh' : shared) :
  rtc (updateBestStep path score) (atEntry, sh) (returned, sh')
  ↔ sh' = updateBestAlone path score sh.
Proof.
  unfold updateBestAlone. split.
  - intros Hrun.
    inversion Hrun as [|? [pc1 sh1] ? Hs1 Hrun1]; subst.
    inversion Hs1; subst. clear Hs1 Hrun.
    inversion Hrun1 as [|? [pc2 sh2] ? Hs2 Hrun2]; subst.
    inversion Hs2; subst. clear Hs2 Hrun1. cbn [bestScore] in *.
    inversion Hrun2 as [|? [pc3 sh3] ? Hs3 Hrun3]; subst.
    inversion Hs3; subst; clear Hs3 Hrun2; cbn [bestScore] in *.
    + replace (score <? bestScore sh) with false by (symmetry; apply Z.ltb_ge; lia).
      inversion Hrun3 as [|? [pc4 sh4] ? Hs4 _]; subst; [done | inversion Hs4].
    + replace (score <? bestScore sh) with true by (symmetry; apply Z.ltb_lt; lia).
      inversion Hrun3 as [|? [pc4 sh4] ? Hs4 Hrun4]; subst.
      inversion Hs4; subst. clear Hs4 Hrun3. cbn in Hrun4.
      destruct (score =? 0) eqn:Hzero.
      * inversion Hrun4 as [|? [pc5 sh5] ? Hs5 Hrun5]; subst.
        inversion Hs5; subst. clear Hs5 Hrun4. cbn in Hrun5.
        inversion Hrun5 as [|? [pc6 sh6] ? Hs6 _]; subst; [|inversion Hs6].
        by rewrite orb_true_r.
      * inversion Hrun4 as [|? [pc5 sh5] ? Hs5 _]; subst; [|inversion Hs5].
        by rewrite orb_false_r.
    + done.
  - intros ->.
    eapply rtc_l; [apply ub_explored|].
    eapply rtc_l; [apply ub_load|]. cbn [bestScore].
    destruct (score <? bestScore sh) eqn:Hlt;
      [apply Z.ltb_lt in Hlt | apply Z.ltb_ge in Hlt].
    + eapply rtc_l; [by apply ub_cas_won|].
      eapply rtc_l; [apply ub_store|]. cbn.
      destruct (score =? 0).
      * eapply rtc_l; [apply ub_cancel|]. cbn. rewrite orb_true_r. apply rtc_refl.
      * rewrite orb_false_r. destruct sh. apply rtc_refl.
    + eapply rtc_l; [apply ub_not_better; lia|]. apply rtc_refl.
Qed.

Lemma callSettled_mono (sh sh' : shared) (c : updateCall) :
  bestScore sh' <= bestScore sh → callSettled sh c → callSettled sh' c.
Proof. unfold callSettled. destruct (call_pc c); lia. Qed.

(** While [search] runs, every call knows what [callSettled] says, and
    [bestScore] is the first score or the score of a call that has won the
    compare-and-swap. *)
Lemma searchStep_settled (calls : searchPath → Z → Prop) (score0 : Z) :
  ∀ st st', rtc (searchStep calls) st st' →
    Forall (callSettled st.1) st.2 →
    (bestScore st.1 = score0
     ∨ ∃ c, c ∈ st.2 ∧ bestScore st.1 = call_score c) →
    Forall (callSettled st'.1) st'.2
    ∧ (bestScore st'.1 = score0
       ∨ ∃ c, c ∈ st'.2 ∧ bestScore st'.1 = call_score c).
Proof.
  induction 1 as [st | st st' st'' Hst _ IH]; [done|]. intros Hcs Hbest.
  apply IH; clear IH;
    destruct Hst as [sh cs path score Hc
      | sh sh' before after path score pc pc' Hub]; cbn [fst snd] in *.
  - constructor; [done | done].
  - pose proof (updateBestStep_decreases _ _ _ _ _ _ Hub) as Hdec.
    assert (Hle : bestScore sh' <= bestScore sh) by (destruct Hdec as [-> | ?]; lia).
    apply Forall_app in Hcs as [Hbefore [Hcall Hafter]%Forall_cons].
    assert (Hmono : ∀ l, Forall (callSettled sh) l → Forall (callSettled sh') l).
    { intros l Hl. eapply Forall_impl; [exact Hl|].
      intros c. by apply callSettled_mono. }
    apply Forall_app. split; [by apply Hmono|].
    constructor; [|by apply Hmono].
    unfold callSettled in *. cbn [call_pc call_score] in *.
    inversion Hub; subst; cbn [bestScore] in *; try done; try lia.
    destruct (score =? 0); lia.
  - destruct Hbest as [? | (c & Hc' & Hbest)]; [by left|].
    right. exists c. split; [by apply list_elem_of_further | done].
  - destruct (updateBestStep_decreases _ _ _ _ _ _ Hub)
      as [Heq | (-> & -> & Hnew & Hlt)].
    + rewrite Heq. destruct Hbest as [? | (c & Hc & Hbest)]; [by left|].
      right. apply elem_of_app in Hc as [Hc | Hc%elem_of_cons].
      * exists c. split; [|done]. apply elem_of_app. by left.
      * destruct Hc as [-> | Hc].
        -- exists (mkCall path score pc'). split; [|done].
           apply elem_of_app. right. apply list_elem_of_here.
        -- exists c. split; [|done]. apply elem_of_app. right.
           by apply list_elem_of_further.
    + right. exists (mkCall path score atStore). split; [|done].
      apply elem_of_app. right. apply list_elem_of_here.
Qed.

(** X10: no score is lost.  Whatever the interleaving of the calls of
    [updateBest], once all of them have returned [bestScore] is the least
    of the score the search started with and the scores of all calls: it is
    at most each of them, and it is one of them. *)
Theorem X10_bestScore_is_least (calls : searchPath → Z → Prop)
    (sh0 final : shared) (cs : list updateCall) :
  rtc (searchStep calls) (sh0, []) (final, cs) →
  allReturned cs →
  bestScore final <= bestScore sh0
  ∧ (∀ c, c ∈ cs → bestScore final <= call_score c)
  ∧ (bestScore final = bestScore sh0
     ∨ ∃ c, c ∈ cs ∧ bestScore final = call_score c).
Proof.
  intros Hrun Hret.
  destruct (searchStep_settled calls (bestScore sh0) _ _ Hrun)
    as [Hsettled Hbest]; [constructor | by left |]. cbn [fst snd] in *.
  split_and!; [|..|done].
  - clear Hret Hsettled Hbest.
    assert (Hgen : ∀ st st', rtc (searchStep calls) st st' →
              bestScore st'.1 <= bestScore st.1).
    { induction 1 as [st | st st' st'' Hst _ IH]; [lia|].
      etrans; [exact IH|].
      destruct Hst as [sh cs' path score Hc
        | sh sh' before after path score pc pc' Hub]; cbn [fst snd]; [lia|].
      destruct (updateBestStep_decreases _ _ _ _ _ _ Hub) as [-> | ?]; lia. }
    apply (Hgen _ _ Hrun).
  - intros c Hc. unfold allReturned in Hret. rewrite Forall_forall in Hret, Hsettled.
    specialize (Hret c Hc). specialize (Hsettled c Hc).
    unfold callSettled in Hsettled. by rewrite Hret in Hsettled.
Qed.

Lemma X10_bestScore_is_least_witness :
  bestScore (mkShared 2 [Some [1; 0]] 1 false) <= bestScore (mkShared 5 [] 0 false)
  ∧ (∀ c, c ∈ [mkCall [Some [1; 0]] 2 returned] →
          bestScore (mkShared 2 [Some [1; 0]] 1 false) <= call_score c)
  ∧ (bestScore (mkShared 2 [Some [1; 0]] 1 false) = bestScore (mkShared 5 [] 0 false)
     ∨ ∃ c, c ∈ [mkCall [Some [1; 0]] 2 returned]
            ∧ bestScore (mkShared 2 [Some [1; 0]] 1 false) = call_score c).
Proof.
  apply (X10_bestScore_is_least (λ _ _, True)).
  - eapply rtc_l; [by apply (step_call _ _ [] [Some [1; 0]] 2)|].
    eapply rtc_l; [eapply (step_update _ _ _ [] []), ub_explored|].
    eapply rtc_l; [eapply (step_update _ _ _ [] []), ub_load|].
    eapply rtc_l; [eapply (step_update _ _ _ [] []), ub_cas_won; by vm_compute|].
    eapply rtc_l; [eapply (step_update _ _ _ [] []), ub_store|].
    apply rtc_refl.
  - by repeat constructor.
Defined.

(** The steps of one call from its entry to the compare-and-swap it wins. *)
Lemma searchStep_wins (calls : searchPath → Z → Prop) (sh : shared)
    (before after : list updateCall) (path : searchPath) (score : Z) :
  score < bestScore sh →
  rtc (searchStep calls)
    (sh, before ++ mkCall path score atEntry :: after)
    (mkShared score (bestPath sh) (wrap (explored sh + 1)) (cancelled sh),
     before ++ mkCall path score atStore :: after).
Proof.
  intros Hlt.
  eapply rtc_l; [apply step_update, ub_explored|].
  eapply rtc_l; [apply step_update, ub_load|]. cbn [bestScore].
  eapply rtc_l; [by apply step_update, ub_cas_won|]. apply rtc_refl.
Qed.

(** The steps of one call from its store to its return. *)
Lemma searchStep_stores (calls : searchPath → Z → Prop) (sh : shared)
    (before after : list updateCall) (path : searchPath) (score : Z) :
  rtc (searchStep calls)
    (sh, before ++ mkCall path score atStore :: after)
    (mkShared (bestScore sh) path (explored sh) (cancelled sh || (score =? 0)),
     before ++ mkCall path score returned :: after).
Proof.
  eapply rtc_l; [apply step_update, ub_store|].
  destruct (score =? 0).
  - eapply rtc_l; [apply step_update, ub_cancel|]. cbn.
    rewrite orb_true_r. apply rtc_refl.
  - rewrite orb_false_r. apply rtc_refl.
Qed.

(** X11: [bestPath] can fall behind [bestScore].  When two calls of
    [updateBest] both improve on [bestScore], the call with the larger
    score can win its compare-and-swap first and store its path last: all
    calls have returned, [bestScore] is the smaller score, and [bestPath]
    is the path of the larger one. *)
Theorem X11_bestPath_can_lag (calls : searchPath → Z → Prop) (sh0 : shared)
    (path1 path2 : searchPath) (score1 score2 : Z) :
  calls path1 score1 → calls path2 score2 →
  score2 < score1 → score1 < bestScore sh0 →
  ∃ final cs,
    rtc (searchStep calls) (sh0, []) (final, cs)
    ∧ allReturned cs
    ∧ bestScore final = score2
    ∧ bestPath final = path1.
Proof.
  intros Hc1 Hc2 H21 H10.
  eexists _, [mkCall path2 score2 returned; mkCall path1 score1 returned].
  split_and!; [|by repeat constructor|..].
  - eapply rtc_l; [by apply (step_call _ _ [] path1 score1)|].
    eapply rtc_l; [by apply (step_call _ _ _ path2 score2)|].
    etrans; [by apply (searchStep_wins calls _ [_] [])|].
    etrans; [by apply (searchStep_wins calls _ [] [_])|].
    etrans; [apply (searchStep_stores calls _ [] [_])|].
    etrans; [apply (searchStep_stores calls _ [_] [])|].
    apply rtc_refl.
  - done.
  - done.
Qed.

Lemma X11_bestPath_can_lag_witness :
  ∃ final cs,
    rtc (searchStep (λ _ _, True)) (mkShared 9 [] 0 false, []) (final, cs)
    ∧ allReturned cs
    ∧ bestScore final = 3
    ∧ bestPath final = [Some [0; 1]].
Proof.
  apply (X11_bestPath_can_lag (λ _ _, True) (mkShared 9 [] 0 false)
           [Some [0; 1]] [Some [1; 0]] 5 3); [done | done | lia | cbn; lia].
Defined.

(** X12: the search is cancelled by [updateBest] only for a score of 0: in
    every run from a state that is not cancelled, once [cancelled] is set
    some call of [updateBest] with score 0 has returned, and [bestScore] is
    at most 0. *)
Theorem X12_cancelled_only_at_zero (calls : searchPath → Z → Prop)
    (sh0 sh : shared) (cs : list updateCall) :
  rtc (searchStep calls) (sh0, []) (sh, cs) →
  cancelled sh0 = false →
  cancelled sh = true →
  (∃ c, c ∈ cs ∧ call_score c = 0 ∧ call_pc c = returned)
  ∧ bestScore sh <= 0.
Proof.
  intros Hrun Hstart Hcancelled.
  assert (Hinv : ∀ st st', rtc (searchStep calls) st st' →
            Forall (λ c, call_pc c = atCancel → call_score c = 0) st.2 →
            (cancelled st.1 = true →
             ∃ c, c ∈ st.2 ∧ call_score c = 0 ∧ call_pc c = returned) →
            Forall (λ c, call_pc c = atCancel → call_score c = 0) st'.2
            ∧ (cancelled st'.1 = true →
               ∃ c, c ∈ st'.2 ∧ call_score c = 0 ∧ call_pc c = returned)).
  { clear. induction 1 as [st | st st' st'' Hst _ IH]; [done|]. intros Hpc Hc.
    apply IH; clear IH;
      destruct Hst as [sh cs path score Hcall
        | sh sh' before after path score pc pc' Hub]; cbn [fst snd] in *.
    - by constructor.
    - apply Forall_app in Hpc as [Hbefore [Hcall Hafter]%Forall_cons].
      apply Forall_app. split; [done|]. constructor; [|done].
      cbn [call_pc call_score] in *.
      inversion Hub; subst; try done.
      destruct (score =? 0) eqn:Hz; [by apply Z.eqb_eq in Hz | done].
    - intros Hcan. destruct (Hc Hcan) as (c & Hin & Hz & Hr).
      exists c. split; [by apply list_elem_of_further | done].
    - intros Hcan.
      apply Forall_app in Hpc as [Hbefore [Hcall Hafter]%Forall_cons].
      cbn [call_pc call_score] in *.
      assert (Hold : cancelled sh = true →
                ∃ c, c ∈ before ++ mkCall path score pc' :: after
                     ∧ call_score c = 0 ∧ call_pc c = returned).
      { intros Hcan'. destruct (Hc Hcan') as (c & Hin & Hz & Hr).
        apply elem_of_app in Hin as [Hin | Hin%elem_of_cons].
        - exists c. split; [apply elem_of_app; by left | done].
        - destruct Hin as [-> | Hin].
          + cbn in Hr. subst pc. inversion Hub.
          + exists c. split; [|done]. apply elem_of_app. right.
            by apply list_elem_of_further. }
      inversion Hub; subst; cbn [cancelled] in *; try (by apply Hold).
      exists (mkCall path score returned). split_and!; [|by apply Hcall | done].
      apply elem_of_app. right. apply list_elem_of_here. }
  destruct (Hinv _ _ Hrun) as [_ Hzero]; cbn [fst snd];
    [constructor | by rewrite Hstart |].
  destruct (Hzero Hcancelled) as (c & Hin & Hz & Hr). split; [by exists c|].
  destruct (searchStep_settled calls (bestScore sh0) _ _ Hrun)
    as [Hsettled _]; [constructor | by left |]. cbn [fst snd] in *.
  rewrite Forall_forall in Hsettled. specialize (Hsettled c Hin).
  unfold callSettled in Hsettled. rewrite Hr in Hsettled. lia.
Qed.

Lemma X12_cancelled_only_at_zero_witness :
  (∃ c, c ∈ [mkCall [Some [1; 0]] 0 returned]
        ∧ call_score c = 0 ∧ call_pc c = returned)
  ∧ bestScore (mkShared 0 [Some [1; 0]] 1 true) <= 0.
Proof.
  apply (X12_cancelled_only_at_zero (λ _ _, True) (mkShared 5 [] 0 false)).
  - eapply rtc_l; [by apply (step_call _ _ [] [Some [1; 0]] 0)|].
    eapply rtc_l; [eapply (step_update _ _ _ [] []), ub_explored|].
    eapply rtc_l; [eapply (step_update _ _ _ [] []), ub_load|].
    eapply rtc_l; [eapply (step_update _ _ _ [] []), ub_cas_won; by vm_compute|].
    eapply rtc_l; [eapply (step_update _ _ _ [] []), ub_store|].
    eapply rtc_l; [eapply (step_update _ _ _ [] []), ub_cancel|].
    apply rtc_refl.
  - reflexivity.
  - reflexivity.
Defined.

(** ** The barycentric orderer *)

(** X13: [Barycentric.OrderRows] returns on every graph and for every
    number of passes (each [transpose] runs out of swaps).  Without rows it
    returns nil; with rows it returns a map in which every entry arranges
    exactly the identifiers of the nodes of its row, and in which every row
    that has nodes has an entry. *)
Theorem X13_Barycentric_OrderRows_arranges (E : Collaborators) (g : DAG)
    (Passes : Z) :
  soundCollaborators E →
  ∃ m, BarycentricOrderRows E Passes g = Some m
       ∧ (len (RowIDs g) = 0 → m = nilOrders)
       ∧ (len (RowIDs g) ≠ 0 →
          ∃ orders,
            m = ordersOf orders
            ∧ (∀ r ids, orders !! r = Some ids → ids ≡ₚ ID <$> NodesInRow g r)
            ∧ (∀ r, r ∈ RowIDs g → NodesInRow g r ≠ [] → is_Some (orders !! r))).
Proof.
  intros Hsound.
  destruct (BarycentricOrderRows_valid E Hsound g Passes) as (m & Hm & Hrows).
  exists m. split_and!; [done | |].
  - intros H0. unfold BarycentricOrderRows in Hm. apply Z.eqb_eq in H0.
    rewrite H0 in Hm. by simplify_eq.
  - intros Hne. destruct (Hrows Hne) as (orders & -> & Hvalid & Hkeep).
    exists orders. by split_and!.
Qed.

Lemma X13_Barycentric_OrderRows_arranges_witness :
  ∃ m, BarycentricOrderRows specCollaborators 3 fork = Some m
       ∧ (len (RowIDs fork) = 0 → m = nilOrders)
       ∧ (len (RowIDs fork) ≠ 0 →
          ∃ orders,
            m = ordersOf orders
            ∧ (∀ r ids, orders !! r = Some ids → ids ≡ₚ ID <$> NodesInRow fork r)
            ∧ (∀ r, r ∈ RowIDs fork → NodesInRow fork r ≠ [] →
                    is_Some (orders !! r))).
Proof.
  apply (X13_Barycentric_OrderRows_arranges specCollaborators fork 3).
  exact specCollaborators_sound.
Defined.

Lemma passLoop_score (E : Collaborators) (g : DAG) (rows : list Z)
    (rowNodes : gmap Z (list Node)) (count : nat) :
  ∀ (pass : Z) (orders best : gmap Z (list string)) (bestScore staleCount : Z)
    (best' : gmap Z (list string)) (score' : Z),
    passLoop E g rows rowNodes count pass orders best bestScore staleCount
    = Some (best', score') →
    bestScore = CountCrossings E g best →
    score' = CountCrossings E g best' ∧ score' <= bestScore.
Proof.
  induction count as [|count IH];
    intros pass orders best bestScore staleCount best' score' Hloop Hbest;
    cbn [passLoop] in Hloop.
  { simplify_eq. split; [done | lia]. }
  destruct (bestScore >? 0); [|simplify_eq; split; [done | lia]].
  destruct (if pass `rem` 2 =? 0 then _ else _) as [orders1|]; [|done].
  cbn in Hloop.
  destruct (CountCrossings E g orders1 <? bestScore) eqn:Hlt.
  - apply Z.ltb_lt in Hlt.
    destruct (_ && _); [simplify_eq; split; [done | lia]|].
    apply IH in Hloop as [-> Hle]; [|done]. split; [done | lia].
  - destruct (_ && _); [simplify_eq; split; [done | lia]|].
    by apply IH in Hloop.
Qed.

(** X14: the barycentric orderer never makes things worse.  [runPasses]
    returns orders together with their crossing count, which is at most the
    count of the orders it started from; and what [Barycentric.OrderRows]
    returns has at most as many crossings as the initial orders of
    [initOrders]. *)
Theorem X14_Barycentric_never_worse (E : Collaborators) (g : DAG) (Passes : Z)
    (result : gmap Z (list string)) :
  BarycentricOrderRows E Passes g = Some (ordersOf result) →
  CountCrossings E g result
  <= CountCrossings E g (initOrders E g (RowIDs g) (rowNodesOf g (RowIDs g)))
  ∧ ∀ rows rowNodes init passes orders score,
      runPasses E g rows rowNodes init passes = Some (orders, score) →
      score = CountCrossings E g orders ∧ score <= CountCrossings E g init.
Proof.
  intros Hret.
  assert (Hrun : ∀ rows rowNodes init passes orders score,
      runPasses E g rows rowNodes init passes = Some (orders, score) →
      score = CountCrossings E g orders ∧ score <= CountCrossings E g init).
  { intros rows rowNodes init passes orders score Hr.
    by apply passLoop_score in Hr. }
  split; [|exact Hrun].
  unfold BarycentricOrderRows in Hret.
  destruct (len (RowIDs g) =? 0); [done|].
  set (init := initOrders E g (RowIDs g) (rowNodesOf g (RowIDs g))) in *.
  destruct (CountCrossings E g init =? 0); [simplify_eq; lia|].
  destruct (runPasses E g _ _ init _) as [[orders1 score1]|] eqn:E1; [|done].
  cbn in Hret. apply Hrun in E1 as [-> Hle1].
  destruct (CountCrossings E g orders1 <? CountCrossings E g init) eqn:Hlt; cbn in Hret.
  - apply Z.ltb_lt in Hlt.
    destruct (CountCrossings E g orders1 =? 0); cbn in Hret; [simplify_eq; lia|].
    destruct (runPasses E g _ _ (reverseOrders orders1 _) _)
      as [[orders2 score2]|] eqn:E2; [|done].
    cbn in Hret. apply Hrun in E2 as [-> Hle2].
    destruct (CountCrossings E g orders2 <? _) eqn:Hlt2; simplify_eq;
      [apply Z.ltb_lt in Hlt2; lia | lia].
  - destruct (runPasses E g _ _ (reverseOrders init _) _)
      as [[orders2 score2]|] eqn:E2; [|done].
    cbn in Hret. apply Hrun in E2 as [-> Hle2].
    destruct (CountCrossings E g orders2 <? _) eqn:Hlt2; simplify_eq;
      [apply Z.ltb_lt in Hlt2; lia | lia].
Qed.

Lemma X14_Barycentric_never_worse_witness :
  CountCrossings specCollaborators fork
    {[0 := ["a"; "b"; "c"]; 1 := ["d"; "e"; "f"]]}%string
  <= CountCrossings specCollaborators fork
       (initOrders specCollaborators fork (RowIDs fork)
          (rowNodesOf fork (RowIDs fork)))
  ∧ ∀ rows rowNodes init passes orders score,
      runPasses specCollaborators fork rows rowNodes init passes
      = Some (orders, score) →
      score = CountCrossings specCollaborators fork orders
      ∧ score <= CountCrossings specCollaborators fork init.
Proof.
  apply (X14_Barycentric_never_worse specCollaborators fork 0). by vm_compute.
Defined.

(** ** [transpose] *)

Lemma transposeScan_quiet (swaps : string → string → bool) (rest : list string) :
  ∀ x order,
    transposeScan swaps x rest = (order, false) →
    order = x :: rest
    ∧ ∀ (i : nat) a b, (x :: rest) !! i = Some a → (x :: rest) !! S i = Some b →
                       swaps a b = false.
Proof.
  induction rest as [|y rest IH]; intros x order Hscan; cbn in Hscan.
  { simplify_eq. split; [done|]. by intros [|i] a b _ Hb. }
  destruct (swaps x y) eqn:Hxy.
  { by destruct (transposeScan swaps x rest). }
  destruct (transposeScan swaps y rest) as [order1 swapped] eqn:Hrest.
  simplify_eq. destruct (IH _ _ Hrest) as [-> Hquiet]. split; [done|].
  intros [|i] a b Ha Hb; cbn in Ha, Hb; [by simplify_eq|]. by apply (Hquiet i).
Qed.

Lemma transposeLoop_quiet (swaps : string → string → bool) (fuel : nat) :
  ∀ order order',
    transposeLoop fuel swaps order = Some order' →
    ∀ (i : nat) a b, order' !! i = Some a → order' !! S i = Some b →
                     swaps a b = false.
Proof.
  induction fuel as [|fuel IH]; intros order order' Hloop; [done|].
  cbn [transposeLoop] in Hloop. destruct order as [|x rest]; [by simplify_eq|].
  destruct (transposeScan swaps x rest) as [order1 swapped] eqn:Hscan.
  destruct swapped; [by eapply IH|]. simplify_eq.
  by destruct (transposeScan_quiet _ _ _ _ Hscan) as [-> Hquiet].
Qed.

Lemma transposeScan_filter (swaps : string → string → bool) (p : string → bool) :
  (∀ a b, p a = true → p b = true → swaps a b = false) →
  ∀ rest x,
    List.filter p (transposeScan swaps x rest).1 = List.filter p (x :: rest).
Proof.
  intros Hp. induction rest as [|y rest IH]; intros x; [done|].
  cbn [transposeScan]. destruct (swaps x y) eqn:Hxy.
  - specialize (IH x). destruct (transposeScan swaps x rest) as [order1 swapped].
    cbn [fst] in *. cbn [List.filter] in *. rewrite IH.
    destruct (p x) eqn:Hpx, (p y) eqn:Hpy; try done.
    by rewrite (Hp x y Hpx Hpy) in Hxy.
  - specialize (IH y). destruct (transposeScan swaps y rest) as [order1 swapped].
    cbn [fst] in *. cbn [List.filter] in *. by rewrite IH.
Qed.

Lemma transposeLoop_filter (swaps : string → string → bool) (p : string → bool) :
  (∀ a b, p a = true → p b = true → swaps a b = false) →
  ∀ fuel order order',
    transposeLoop fuel swaps order = Some order' →
    List.filter p order' = List.filter p order.
Proof.
  intros Hp. induction fuel as [|fuel IH]; intros order order' Hloop; [done|].
  cbn [transposeLoop] in Hloop. destruct order as [|x rest]; [by simplify_eq|].
  pose proof (transposeScan_filter swaps p Hp rest x) as Hscan.
  destruct (transposeScan swaps x rest) as [order1 swapped]. cbn [fst] in Hscan.
  destruct swapped; [|by simplify_eq]. rewrite <- Hscan. by eapply IH.
Qed.

(** X15: [transpose] returns (it runs out of swaps), touches no row but
    [row], keeps the identifiers of that row, and leaves it so that no two
    neighbours would be swapped by one more scan. *)
Theorem X15_transpose_settles (E : Collaborators) (g : DAG)
    (orders : gmap Z (list string)) (row adjRow : Z) (useParents : bool) :
  ∃ orders',
    transpose E g orders row adjRow useParents = Some orders'
    ∧ (∀ r, r ≠ row → orders' !! r = orders !! r)
    ∧ orderAt orders' row ≡ₚ orderAt orders row
    ∧ ∀ (i : nat) a b,
        orderAt orders' row !! i = Some a → orderAt orders' row !! S i = Some b →
        swapsPair E g (PosMap E (orderAt orders adjRow)) useParents a b = false.
Proof.
  unfold transpose.
  destruct (len (orderAt orders row) <? 2) eqn:Elen.
  { exists orders. split_and!; [done..|]. intros i a b Ha Hb.
    apply Z.ltb_lt in Elen. apply lookup_lt_Some in Hb. unfold len in Elen. lia. }
  set (swaps := swapsPair E g (PosMap E (orderAt orders adjRow)) useParents).
  destruct (transposeLoop_returns swaps
              (swapsPair_asym E g (PosMap E (orderAt orders adjRow)) useParents)
              (transposeFuel (length (orderAt orders row))) (orderAt orders row))
    as (order' & Hloop & Hp).
  { unfold transposeFuel.
    pose proof (pendingSwaps_bound swaps (orderAt orders row)). lia. }
  rewrite Hloop. cbn. eexists. split; [done|].
  assert (Hrow : orderAt (<[row := order']> orders) row = order')
    by (unfold orderAt; by rewrite lookup_insert_eq).
  rewrite Hrow. split_and!; [|done|].
  - intros r Hr. by rewrite lookup_insert_ne.
  - by apply (transposeLoop_quiet swaps _ _ _ Hloop).
Qed.

(** X16: [transpose] never changes the order of two nodes of the same
    effective identity: the occurrences of two such identifiers stand in
    the row afterwards as they stood before. *)
Theorem X16_transpose_keeps_same_identity (E : Collaborators) (g : DAG)
    (orders orders' : gmap Z (list string)) (row adjRow : Z) (useParents : bool)
    (a b : string) :
  sameEffectiveID g a b = true →
  transpose E g orders row adjRow useParents = Some orders' →
  List.filter (λ x, bool_decide (x = a ∨ x = b)) (orderAt orders' row)
  = List.filter (λ x, bool_decide (x = a ∨ x = b)) (orderAt orders row).
Proof.
  intros Hsame. unfold transpose.
  destruct (len (orderAt orders row) <? 2); [by intros [= <-]|].
  destruct (transposeLoop _ _ _) as [order'|] eqn:Hloop; [|done]. cbn.
  intros [= <-]. unfold orderAt at 1. rewrite lookup_insert_eq. cbn.
  apply (transposeLoop_filter _ (λ x, bool_decide (x = a ∨ x = b))) in Hloop;
    [done|].
  assert (Hsym : sameEffectiveID g b a = true).
  { unfold sameEffectiveID in *.
    destruct (NodeByID g a), (NodeByID g b); try done.
    apply bool_decide_eq_true. apply bool_decide_eq_true in Hsame. done. }
  assert (Hself : ∀ x, swapsPair E g (PosMap E (orderAt orders adjRow)) useParents
                         x x = false).
  { intros x. unfold swapsPair. apply andb_false_iff. right. apply Z.ltb_irrefl. }
  intros x y [-> | ->]%bool_decide_eq_true [-> | ->]%bool_decide_eq_true;
    try apply Hself; unfold swapsPair; [by rewrite Hsame | by rewrite Hsym].
Qed.

Lemma X16_transpose_keeps_same_identity_witness :
  List.filter (λ x, bool_decide (x = "u1" ∨ x = "u2"))%string
    (orderAt {[0 := ["p"; "q"]; 1 := ["u1"; "u2"]]}%string 1)
  = List.filter (λ x, bool_decide (x = "u1" ∨ x = "u2"))%string
      (orderAt {[0 := ["p"; "q"]; 1 := ["u1"; "u2"]]}%string 1).
Proof.
  apply (X16_transpose_keeps_same_identity specCollaborators twins
           {[0 := ["p"; "q"]; 1 := ["u1"; "u2"]]}%string
           {[0 := ["p"; "q"]; 1 := ["u1"; "u2"]]}%string 1 0 true);
    by vm_compute.
Defined.

(** ** [reverseOrders] *)

Lemma reverseOrders_lookup (orders : gmap Z (list string)) (rs : list Z) (r : Z) :
  reverseOrders orders rs !! r
  = if bool_decide (r ∈ rs) then Some (rev (orderAt orders r)) else None.
Proof.
  unfold reverseOrders.
  assert (Hgen : ∀ acc : gmap Z (list string),
    foldl (λ rev_ r0, <[r0 := rev (orderAt orders r0)]> rev_) acc rs !! r
    = if bool_decide (r ∈ rs) then Some (rev (orderAt orders r)) else acc !! r).
  { induction rs as [|r0 rs IH]; intros acc; cbn [foldl].
    { by rewrite bool_decide_eq_false_2 by apply not_elem_of_nil. }
    rewrite IH. destruct (decide (r ∈ rs)) as [Hr | Hr].
    - rewrite !bool_decide_eq_true_2; [done | by apply list_elem_of_further | done].
    - rewrite (bool_decide_eq_false_2 (r ∈ rs)) by done.
      destruct (decide (r = r0)) as [-> | Hne].
      + rewrite bool_decide_eq_true_2 by apply list_elem_of_here.
        by rewrite lookup_insert_eq.
      + rewrite bool_decide_eq_false_2 by (by intros [? | ?]%elem_of_cons).
        by rewrite lookup_insert_ne. }
  rewrite Hgen. by rewrite lookup_empty.
Qed.

(** X17: [reverseOrders] gives every row of [rows] its order reversed (the
    empty order for a row without entry) and drops the entries of all other
    rows; reversing twice gives every row of [rows] the order it had. *)
Theorem X17_reverseOrders_twice (orders : gmap Z (list string)) (rs : list Z) :
  (∀ r, r ∈ rs →
        reverseOrders orders rs !! r = Some (rev (orderAt orders r))
        ∧ reverseOrders (reverseOrders orders rs) rs !! r = Some (orderAt orders r))
  ∧ (∀ r, r ∉ rs → reverseOrders orders rs !! r = None).
Proof.
  split.
  - intros r Hr. rewrite !reverseOrders_lookup, !bool_decide_eq_true_2 by done.
    split; [done|]. unfold orderAt at 1.
    rewrite reverseOrders_lookup, bool_decide_eq_true_2 by done. cbn.
    by rewrite rev_involutive.
  - intros r Hr. by rewrite reverseOrders_lookup, bool_decide_eq_false_2.
Qed.

(** ** [generateC1PCandidates] *)

Lemma index_is_Some {A : Type} (l : list A) (i : Z) :
  0 <= i < len l → is_Some (Perm.index l i).
Proof.
  intros [Hi Hlt]. unfold Perm.index.
  replace (i <? 0) with false by (symmetry; apply Z.ltb_ge; lia).
  apply lookup_lt_is_Some. unfold len in Hlt. lia.
Qed.

Lemma reduceByAll_reachable (constraints : list (list Z)) :
  ∀ tree, Perm.reachable tree →
    ∃ ok tree', reduceByAll tree constraints = Some (ok, tree')
                ∧ Perm.reachable tree' ∧ Perm.leaves tree' = Perm.leaves tree.
Proof.
  induction constraints as [|c rest IH]; intros tree Hreach; cbn [reduceByAll].
  - by eexists _, _.
  - destruct (len c >=? 2); [|by apply IH].
    destruct (Reduce_wfTree tree c (reachable_wfTree tree Hreach))
      as (ok & tree1 & E1 & _ & Hl1).
    rewrite E1. pose proof (Perm.reach_reduce _ _ _ _ Hreach E1) as Hreach1.
    destruct ok; [|by eexists _, _].
    destruct (IH tree1 Hreach1) as (ok & tree2 & -> & Hreach2 & Hl2).
    eexists _, _. split_and!; [done..|congruence].
Qed.

(** X24: [generateC1PCandidates] returns whenever [depth] is a row of the
    solver and the previous order holds indices into the previous nodes:
    no [Reduce] and no [Enumerate] on its tree panics.  What it returns
    arranges the indices [0 .. n-1] of the row.  When the row has more than
    one node and no constraint fails, the result is what [Enumerate]
    returns on the reduced tree, never the fallback for an empty
    enumeration; for a row of up to 8 nodes these are all the orderings the
    tree admits, as [Enumerate(0)] returns them, and for a longer row those
    of [Enumerate(candLimit)]. *)
Theorem X24_generateC1PCandidates_returns (E : Collaborators) (s : solver)
    (depth : Z) (nodes : list Node) (prevOrder : list Z) (prevNodes : list Node) :
  soundCollaborators E →
  0 <= depth < len (rows s) →
  Forall (λ idx, 0 <= idx < len prevNodes) prevOrder →
  ∃ candidates,
    generateC1PCandidates E s depth nodes prevOrder prevNodes = Some candidates
    ∧ Forall (λ p, p ≡ₚ seqZ 0 (len nodes)) candidates
    ∧ ∀ tree0 tree1 tree2,
        1 < len nodes →
        Perm.NewPQTree (len nodes) = Some tree0 →
        applyParentConstraints s tree0 (buildNodeIndex nodes) depth prevOrder
          prevNodes = Some (true, tree1) →
        applyChildConstraints s tree1 (buildNodeIndex nodes) depth
        = Some (true, tree2) →
        candidates ≠ []
        ∧ Perm.Enumerate tree2 (if len nodes <=? 8 then 0 else candLimit s)
          = Some candidates.
Proof.
  intros Hsound Hdepth Hprev.
  assert (Hret : ∃ candidates,
            generateC1PCandidates E s depth nodes prevOrder prevNodes
            = Some candidates
            ∧ ∀ tree0 tree1 tree2,
                1 < len nodes →
                Perm.NewPQTree (len nodes) = Some tree0 →
                applyParentConstraints s tree0 (buildNodeIndex nodes) depth
                  prevOrder prevNodes = Some (true, tree1) →
                applyChildConstraints s tree1 (buildNodeIndex nodes) depth
                = Some (true, tree2) →
                candidates ≠ []
                ∧ Perm.Enumerate tree2
                    (if len nodes <=? 8 then 0 else candLimit s)
                  = Some candidates).
  { unfold generateC1PCandidates. destruct (len nodes <=? 1) eqn:En.
    { apply Z.leb_le in En. eexists. split; [done|]. intros; lia. }
    apply Z.leb_gt in En.
    destruct (Perm.NewPQTree (len nodes)) as [tree0|] eqn:Enew.
    2:{ unfold Perm.NewPQTree in Enew.
        destruct (len nodes =? 0); [done|]. destruct (len nodes =? 1); [done|].
        replace (len nodes <? 0) with false in Enew; [done|].
        symmetry; apply Z.ltb_ge; lia. }
    pose proof (Perm.reach_new _ _ Enew) as Hreach0.
    apply NewPQTree_wfTree in Enew as [_ Hl0]. cbn [mbind option_bind].
    assert (Hparent : ∃ ok tree1,
              applyParentConstraints s tree0 (buildNodeIndex nodes) depth
                prevOrder prevNodes = Some (ok, tree1)
              ∧ Perm.reachable tree1 ∧ Perm.leaves tree1 = Perm.leaves tree0).
    { unfold applyParentConstraints.
      destruct (index_is_Some (rows s) depth Hdepth) as [row ->].
      cbn [mbind option_bind].
      match goal with |- context [mapM ?f prevOrder] =>
        destruct (mapM f prevOrder) as [constraints|] eqn:Em end.
      - cbn [mbind option_bind]. by apply reduceByAll_reachable.
      - exfalso. apply eq_None_not_Some in Em. apply Em, mapM_is_Some.
        eapply Forall_impl; [exact Hprev|]. intros idx Hidx. cbn.
        destruct (index_is_Some prevNodes idx Hidx) as [prevNode ->]. by eexists. }
    destruct Hparent as (ok1 & tree1 & Eparent & Hreach1 & Hl1).
    rewrite Eparent. cbn [mbind option_bind].
    destruct ok1; cbn [negb];
      [|eexists; split; [done|]; intros t0 t1 t2 _ ? ? ?; simplify_eq].
    assert (Hchild : ∃ ok tree2,
              applyChildConstraints s tree1 (buildNodeIndex nodes) depth
              = Some (ok, tree2)
              ∧ Perm.reachable tree2 ∧ Perm.leaves tree2 = Perm.leaves tree1).
    { unfold applyChildConstraints.
      destruct (depth >=? len (rows s) - 1) eqn:Elast; [by eexists _, _|].
      rewrite Z.geb_leb in Elast. apply Z.leb_gt in Elast.
      destruct (index_is_Some (rows s) depth Hdepth) as [row ->].
      destruct (index_is_Some (rows s) (depth + 1)) as [next ->]; [lia|].
      cbn [mbind option_bind]. by apply reduceByAll_reachable. }
    destruct Hchild as (ok2 & tree2 & Echild & Hreach2 & Hl2).
    rewrite Echild. cbn [mbind option_bind].
    destruct ok2; cbn [negb];
      [|eexists; split; [done|]; intros t0 t1 t2 _ ? ? ?; simplify_eq].
    assert (Hlimit : Perm.Enumerate tree2
                       (if len nodes <=? 8 then Perm.ValidCount tree2
                        else candLimit s)
                     = Perm.Enumerate tree2
                         (if len nodes <=? 8 then 0 else candLimit s)).
    { destruct (len nodes <=? 8) eqn:E8; [|done]. apply Z.leb_le in E8.
      apply Enumerate_ValidCount; [done|]. lia. }
    rewrite Hlimit.
    destruct (Enumerate_nonempty tree2
                (if len nodes <=? 8 then 0 else candLimit s) Hreach2)
      as (perms & Eperms & Hne).
    rewrite Eperms. cbn [mbind option_bind].
    replace (len perms =? 0) with false
      by (symmetry; apply Z.eqb_neq; unfold len; destruct perms; [done | cbn; lia]).
    eexists. split; [done|]. intros t0 t1 t2 _ ? ? ?. by simplify_eq. }
  destruct Hret as (candidates & Hgen & Hrest). exists candidates.
  split; [done|]. split; [|done].
  by apply (generateC1PCandidates_valid E Hsound s depth nodes prevOrder prevNodes).
Qed.

Lemma X24_generateC1PCandidates_returns_witness :
  ∃ candidates,
    generateC1PCandidates specCollaborators (newSolver fork) 1
      (NodesInRow fork 1) [0; 2; 1] (NodesInRow fork 0) = Some candidates
    ∧ Forall (λ p, p ≡ₚ seqZ 0 (len (NodesInRow fork 1))) candidates
    ∧ ∀ tree0 tree1 tree2,
        1 < len (NodesInRow fork 1) →
        Perm.NewPQTree (len (NodesInRow fork 1)) = Some tree0 →
        applyParentConstraints (newSolver fork) tree0
          (buildNodeIndex (NodesInRow fork 1)) 1 [0; 2; 1] (NodesInRow fork 0)
        = Some (true, tree1) →
        applyChildConstraints (newSolver fork) tree1
          (buildNodeIndex (NodesInRow fork 1)) 1 = Some (true, tree2) →
        candidates ≠ []
        ∧ Perm.Enumerate tree2
            (if len (NodesInRow fork 1) <=? 8 then 0
             else candLimit (newSolver fork))
          = Some candidates.
Proof.
  apply (X24_generateC1PCandidates_returns specCollaborators (newSolver fork) 1
           (NodesInRow fork 1) [0; 2; 1] (NodesInRow fork 0)).
  - exact specCollaborators_sound.
  - vm_compute. split; [discriminate | reflexivity].
  - repeat constructor; vm_compute; (discriminate || reflexivity).
Defined.


(** ** What a task of [search] hands to [updateBest] *)

(** X25: every call of [updateBest] that a task of [search] makes carries a
    path that orders every row of the graph (an arrangement of the indices
    of the row, nil for a row without nodes) together with the exact score
    of that path: the sum, over all pairs of neighbouring rows, of what
    [CountCrossingsIdx] returns for the pair, as long as that sum fits an
    [int].  So the increments [dfs] and [buildPrefix] add row by row lose
    nothing. *)
Theorem X25_search_calls_carry_exact_score (E : Collaborators) (g : DAG)
    (leafPath : searchPath) (leafScore : Z) :
  soundCollaborators E →
  (∀ e upper lower, 0 <= CountCrossingsIdx E e upper lower) →
  (∀ e upper, CountCrossingsIdx E e upper [] = 0) →
  searchReaches E (newSolver g) leafPath leafScore →
  foldr Z.add 0 (pairCounts E (fastEdges g (RowIDs g)) leafPath) <= max_int →
  pathValid g leafPath
  ∧ leafScore = foldr Z.add 0 (pairCounts E (fastEdges g (RowIDs g)) leafPath).
Proof.
  intros Hsound Hnonneg Hempty Hreach Htotal. split.
  - by apply (searchReaches_valid E Hsound g leafPath leafScore).
  - by apply searchReaches_score.
Qed.

Lemma X25_search_calls_carry_exact_score_witness :
  pathValid fork [Some [0; 2; 1]; Some [0; 2; 1]]
  ∧ 0 = foldr Z.add 0
          (pairCounts specCollaborators (fastEdges fork (RowIDs fork))
             [Some [0; 2; 1]; Some [0; 2; 1]]).
Proof.
  apply (X25_search_calls_carry_exact_score specCollaborators fork
           [Some [0; 2; 1]; Some [0; 2; 1]] 0).
  - exact specCollaborators_sound.
  - intros e upper lower. apply inversions_nonneg.
  - apply specCountCrossingsIdx_empty.
  - exact fork_searchReaches.
  - by vm_compute.
Defined.


End OrderingProperties.
